(** * diff-delta.c: the delta encoder, embedded and verified

    The development follows [src/diff-delta.c] function by function.

    - Buffers are [list byte]; a pointer into a buffer is an offset ([Z]) or
      the suffix it points at.
    - [unsigned int] values are [Z] with the 32-bit wrap-around written
      [u32]; a store into an [unsigned char] truncates with [u8].
    - The output buffer is a list with one cell per allocated byte; a store
      or a load outside it ends the run with [OutOfBounds] (undefined
      behaviour in C).
    - The encoder is modelled twice.  In the first model [malloc] and
      [realloc] are taken to succeed, and the arena allocator ([cha_init],
      [cha_alloc], [cha_free]), which only hands out the records, is
      represented by the records themselves.  The second model
      ([diff_delta_mem]) adds the heap: every [malloc], [realloc] and
      [free], the arena with its chunks, [delta_cleanup] and the
      out-of-memory returns; it is proved to agree with the first.
    - [from_size], [to_size] and [max_size] are [unsigned long] (64 bits);
      [delta_prepare] receives the reference size as an [int].  The sizes
      are the lengths of the lists, and the theorems name the ranges in
      which no conversion changes them.
    - [adler32] belongs to zlib; the encoder is parameterised by it. *)

From Stdlib Require Import ZArith Lia Bool List Sorted.
From Stdlib Require Import Init.Byte Strings.Byte.
From stdpp Require Import base option list gmap.
Import ListNotations.
Local Open Scope Z_scope.

(** ** Machine integers and bytes *)

Definition u32 (z : Z) : Z := z mod 2 ^ 32.

Definition byte_val (b : byte) : Z := Z.of_N (Byte.to_N b).

(** Conversion to [unsigned char]: the low eight bits. *)
Definition u8 (z : Z) : byte :=
  match Byte.of_N (Z.to_N (z mod 256)) with
  | Some b => b
  | None => x00
  end.

Definition len {A} (l : list A) : Z := Z.of_nat (length l).

(** ** Outcome of a run *)

Inductive run (A : Type) : Type :=
| Done (a : A)
| ReturnNull
| OutOfBounds (idx cap : Z)
| OutOfFuel.
Arguments Done {A} a.
Arguments ReturnNull {A}.
Arguments OutOfBounds {A} idx cap.
Arguments OutOfFuel {A}.

#[global] Instance run_ret : MRet run := fun A a => Done a.
#[global] Instance run_bind : MBind run := fun A B f c =>
  match c with
  | Done a => f a
  | ReturnNull => ReturnNull
  | OutOfBounds i c => OutOfBounds i c
  | OutOfFuel => OutOfFuel
  end.

(** [out[idx] = v] *)
Definition store (out : list byte) (idx : Z) (v : byte) : run (list byte) :=
  if (0 <=? idx) && (idx <? len out)
  then Done (<[Z.to_nat idx := v]> out)
  else OutOfBounds idx (len out).

(** [out[idx]] *)
Definition load (out : list byte) (idx : Z) : run byte :=
  if (0 <=? idx) && (idx <? len out)
  then match out !! Z.to_nat idx with
       | Some b => Done b
       | None => OutOfBounds idx (len out)
       end
  else OutOfBounds idx (len out).

(** ** Constants and macros *)

Definition BLK_SIZE : Z := 16.
Definition GR_PRIME : Z := 0x9e370001.

(** [HASH(v, b)]: 32-bit multiply, then the high [b] bits. *)
Definition HASH (v b : Z) : Z := Z.shiftr (u32 (u32 v * GR_PRIME)) (32 - b).

(** [!!x] *)
Definition nz (x : Z) : Z := if x =? 0 then 0 else 1.

Definition COPYOP_SIZE (o s : Z) : Z :=
  nz (Z.land o 0xff) + nz (Z.land o 0xff00) + nz (Z.land o 0xff0000)
  + nz (Z.land o 0xff000000)
  + nz (Z.land s 0xff) + nz (Z.land s 0xff00) + 1.

Definition MAX_OP_SIZE : Z := COPYOP_SIZE 0xffffffff 0xffffffff.

(** ** hashbits *)

Fixpoint hashbits_loop (fuel : nat) (size val bits : Z) : Z :=
  match fuel with
  | O => bits
  | S fuel' =>
      if (val <? size) && (bits <? 32)
      then hashbits_loop fuel' size (u32 (Z.shiftl val 1)) (bits + 1)
      else bits
  end.

(** The guard [bits < 32] bounds the loop by 32 iterations. *)
Definition hashbits (size : Z) : Z :=
  let bits := hashbits_loop 32 size 1 0 in
  if bits =? 0 then 1 else bits.

(** ** The block index *)

Record bdrecord : Type := { fp : Z; ptr : Z }.

Record bdfile : Type := { fphbits : Z; fphash : list (list bdrecord) }.

Definition bucket (fphash : list (list bdrecord)) (i : Z) : list bdrecord :=
  default [] (fphash !! Z.to_nat i).

(** The local variables of [diff_delta] that live across iterations of the
    main loop; [data] is the part of the target from [data] to [top]. *)
Record enc_state : Type := {
  out : list byte;
  outsize : Z;
  outpos : Z;
  inscnt : Z;
  moff : Z;
  data : list byte
}.

Section Encoder.

(** [adler32 adler buf]: zlib's checksum of [buf] from the seed [adler]. *)
Variable adler32 : Z -> list byte -> Z.

(** The [for] loop of [delta_prepare]: [data] walks down from the last block
    in strides of [BLK_SIZE] while [data >= buf]; each record is linked in
    front of its bucket. *)
Fixpoint prepare_loop (fuel : nat) (buf : list byte) (bits : Z) (data : Z)
    (fphash : list (list bdrecord)) : list (list bdrecord) :=
  match fuel with
  | O => fphash
  | S fuel' =>
      if data <? 0 then fphash
      else
        let top := len buf in
        let brec :=
          {| fp := u32 (adler32 0 (take (Z.to_nat (Z.min BLK_SIZE (top - data)))
                                        (drop (Z.to_nat data) buf)));
             ptr := data |} in
        let i := HASH (fp brec) bits in
        prepare_loop fuel' buf bits (data - BLK_SIZE)
          (<[Z.to_nat i := brec :: bucket fphash i]> fphash)
  end.

Definition delta_prepare (buf : list byte) : bdfile :=
  let bufsize := len buf in
  let bits := hashbits (u32 (bufsize / BLK_SIZE + 1)) in
  let hsize := Z.shiftl 1 bits in
  let fphash := replicate (Z.to_nat hsize) [] in
  let top := bufsize in
  let data := (bufsize / BLK_SIZE) * BLK_SIZE in
  let data := if data =? top then data - BLK_SIZE else data in
  {| fphbits := bits;
     fphash := prepare_loop (Z.to_nat (bufsize / BLK_SIZE + 1)) buf bits data fphash |}.

(** ** diff_delta: the match search (lines 210-232) *)

(** The byte comparison loop: how far [ptr1] and [ptr2] agree, at most
    [csize] bytes. *)
Fixpoint match_run (csize : Z) (ptr1 ptr2 : list byte) : Z :=
  match ptr1, ptr2 with
  | a :: ptr1', b :: ptr2' =>
      if negb (csize =? 0) && Byte.eqb a b
      then 1 + match_run (csize - 1) ptr1' ptr2'
      else 0
  | _, _ => 0
  end.

(** The walk along one bucket chain, from [brec] on, with the best match so
    far in [msize], [moff]. *)
Fixpoint walk_chain (ref_buf data : list byte) (tfp : Z)
    (brec : list bdrecord) (msize moff : Z) : Z * Z :=
  match brec with
  | [] => (msize, moff)
  | r :: next =>
      if fp r =? tfp then
        let csize := u32 (len ref_buf - ptr r) in
        let csize := if csize >? len data then len data else csize in
        let csize := match_run csize (drop (Z.to_nat (ptr r)) ref_buf) data in
        if csize >? msize then
          if csize >=? 0x10000 then (0x10000, u32 (ptr r))
          else walk_chain ref_buf data tfp next csize (u32 (ptr r))
        else walk_chain ref_buf data tfp next msize moff
      else walk_chain ref_buf data tfp next msize moff
  end.

Definition find_match (bdf : bdfile) (ref_buf data : list byte) (moff : Z)
    : Z * Z :=
  let tfp := u32 (adler32 0 (take (Z.to_nat (Z.min (len data) BLK_SIZE)) data)) in
  let i := HASH tfp (fphbits bdf) in
  walk_chain ref_buf data tfp (bucket (fphash bdf) i) 0 moff.

(** The test of line 234. *)
Definition insert_path (msize moff : Z) : bool :=
  (msize =? 0) || (msize <? COPYOP_SIZE moff msize).

(** ** diff_delta: the literal path (lines 235-242) *)

Definition emit_insert (st : enc_state) (moff' : Z) (b : byte)
    (rest : list byte) : run enc_state :=
  let outpos1 := if inscnt st =? 0 then u32 (outpos st + 1) else outpos st in
  out1 ← store (out st) outpos1 b;
  let outpos2 := u32 (outpos1 + 1) in
  let inscnt1 := u32 (inscnt st + 1) in
  if inscnt1 =? 0x7f then
    out2 ← store out1 (u32 (outpos2 - inscnt1 - 1)) (u8 inscnt1);
    mret {| out := out2; outsize := outsize st; outpos := outpos2;
            inscnt := 0; moff := moff'; data := rest |}
  else
    mret {| out := out1; outsize := outsize st; outpos := outpos2;
            inscnt := inscnt1; moff := moff'; data := rest |}.

(** ** diff_delta: the copy path (lines 244-265) *)

(** [if (v & 0xff) { out[outpos++] = v; i |= flag; }] *)
Definition put_if (v flag : Z) (s : list byte * Z * Z)
    : run (list byte * Z * Z) :=
  let '(out, outpos, i) := s in
  if Z.land v 0xff =? 0 then mret s
  else out' ← store out outpos (u8 v);
       mret (out', u32 (outpos + 1), Z.lor i flag).

(** [if (inscnt) { out[outpos - inscnt - 1] = inscnt; }] *)
Definition close_insert (st : enc_state) : run (list byte) :=
  if inscnt st =? 0 then mret (out st)
  else store (out st) (u32 (outpos st - inscnt st - 1)) (u8 (inscnt st)).

Definition emit_copy (st : enc_state) (msize moff' : Z) : run enc_state :=
  out0 ← close_insert st;
  let orig := outpos st in
  s ← put_if moff' 0x01 (out0, u32 (outpos st + 1), 0x80);
  let moff1 := Z.shiftr moff' 8 in
  s ← put_if moff1 0x02 s;
  let moff2 := Z.shiftr moff1 8 in
  s ← put_if moff2 0x04 s;
  let moff3 := Z.shiftr moff2 8 in
  s ← put_if moff3 0x08 s;
  s ← put_if msize 0x10 s;
  let msize1 := Z.shiftr msize 8 in
  '(out1, outpos1, i) ← put_if msize1 0x20 s;
  out2 ← store out1 orig (u8 i);
  mret {| out := out2; outsize := outsize st; outpos := outpos1;
          inscnt := 0; moff := moff3;
          data := drop (Z.to_nat msize) (data st) |}.

(** ** diff_delta: growing the output (lines 268-282) *)

Definition grow (max_size : Z) (st : enc_state) : run enc_state :=
  if outpos st >=? u32 (outsize st - MAX_OP_SIZE) then
    let outsize1 := u32 (outsize st * 3) / 2 in
    let outsize2 :=
      if negb (max_size =? 0) && (outsize1 >=? max_size)
      then u32 (max_size + MAX_OP_SIZE + 1) else outsize1 in
    if negb (max_size =? 0) && (outpos st >? max_size) then ReturnNull
    else mret {| out := resize (Z.to_nat outsize2) x00 (out st);
                 outsize := outsize2; outpos := outpos st;
                 inscnt := inscnt st; moff := moff st; data := data st |}
  else mret st.

(** ** diff_delta: one iteration and the loop *)

Definition iteration (bdf : bdfile) (ref_buf : list byte) (max_size : Z)
    (st : enc_state) : run enc_state :=
  match data st with
  | [] => mret st
  | b :: rest =>
      let '(msize, moff') := find_match bdf ref_buf (data st) (moff st) in
      st' ← (if insert_path msize moff'
             then emit_insert st moff' b rest
             else emit_copy st msize moff');
      grow max_size st'
  end.

(** [while (data < top)] and the lines after it (285-290).  Every iteration
    consumes at least one byte of the target. *)
Fixpoint encode_loop (fuel : nat) (bdf : bdfile) (ref_buf : list byte)
    (max_size : Z) (st : enc_state) : run (list byte) :=
  match data st with
  | [] =>
      out' ← close_insert st;
      mret (take (Z.to_nat (outpos st)) out')
  | _ :: _ =>
      match fuel with
      | O => OutOfFuel
      | S fuel' =>
          st' ← iteration bdf ref_buf max_size st;
          encode_loop fuel' bdf ref_buf max_size st'
      end
  end.

(** ** diff_delta: the size header (lines 190-205) *)

Fixpoint put_size_loop (fuel : nat) (size : Z) (out : list byte) (outpos : Z)
    : run (list byte * Z) :=
  if size =? 0 then mret (out, outpos)
  else
    match fuel with
    | O => OutOfFuel
    | S fuel' =>
        b ← load out (u32 (outpos - 1));
        out ← store out (u32 (outpos - 1)) (u8 (Z.lor (byte_val b) 0x80));
        out ← store out outpos (u8 size);
        put_size_loop fuel' (Z.shiftr size 7) out (u32 (outpos + 1))
    end.

(** An [unsigned long] has 64 bits: after the first shift at most nine
    groups of seven bits remain. *)
Definition put_size (size : Z) (out : list byte) (outpos : Z)
    : run (list byte * Z) :=
  out ← store out outpos (u8 size);
  put_size_loop 10 (Z.shiftr size 7) out (u32 (outpos + 1)).

(** ** diff_delta *)

(** The result [Done d] stands for the returned buffer with
    [*delta_size = length d]. *)
Definition diff_delta (from_buf to_buf : list byte) (max_size : Z)
    : run (list byte) :=
  let from_size := len from_buf in
  let to_size := len to_buf in
  if (from_size =? 0) || (to_size =? 0) then ReturnNull
  else
    let bdf := delta_prepare from_buf in
    let outsize := 8192 in
    let outsize :=
      if negb (max_size =? 0) && (outsize >=? max_size)
      then u32 (max_size + MAX_OP_SIZE + 1) else outsize in
    let out := replicate (Z.to_nat outsize) x00 in
    '(out, outpos) ← put_size from_size out 0;
    '(out, outpos) ← put_size to_size out outpos;
    encode_loop (length to_buf) bdf from_buf max_size
      {| out := out; outsize := outsize; outpos := outpos;
         inscnt := 0; moff := 0; data := to_buf |}.

End Encoder.

(** ** zlib's adler32 *)

(** Modelled from the spec: [adler32] is zlib's, outside this file; the
    specification gives it the semantics of RFC 1950, with the running sums
    taken from the two halves of the seed. *)
Module Zlib.

Definition BASE : Z := 65521.

Fixpoint adler32_sums (s1 s2 : Z) (buf : list byte) : Z :=
  match buf with
  | [] => Z.lor (Z.shiftl s2 16) s1
  | c :: buf' =>
      let s1' := (s1 + byte_val c) mod BASE in
      adler32_sums s1' ((s2 + s1') mod BASE) buf'
  end.

Definition adler32 (adler : Z) (buf : list byte) : Z :=
  adler32_sums (Z.land adler 0xffff) (Z.land (Z.shiftr adler 16) 0xffff) buf.

End Zlib.

(** ** The test inputs of the specification and of the theorems *)

Module Examples.

Definition hello : list byte := map u8 [104; 101; 108; 108; 111; 32; 119; 111; 114; 108; 100].

(** Seventeen zero bytes: one full block and a tail of one byte. *)
Definition seventeen : list byte := replicate 17 x00.

(** A block and a second one with the same Adler-32 sums that leaves it at
    the third byte. *)
Definition blk_a : list byte := map u8 [1; 1; 1; 2; 1; 0; 0; 0; 0; 0; 0; 0; 0; 0; 0; 0].
Definition blk_b : list byte := map u8 [1; 1; 2; 0; 2; 0; 0; 0; 0; 0; 0; 0; 0; 0; 0; 0].

(** Sixty-four blocks, block [j] made of sixteen bytes [j]. *)
Definition ramp : list byte :=
  flat_map (fun j => replicate 16 (u8 (Z.of_nat j))) (seq 0 64).

(** The 272 bytes of [ramp] from offset 272, then 16112 bytes [0xff]. *)
Definition ramp_tail : list byte :=
  take 272 (drop 272 ramp) ++ replicate (Z.to_nat 16112) xff.

End Examples.

(** ** The cost formula and the table size, in the words of the specification *)

(** Byte [i] of [x], least significant first. *)
Definition byte_at (x : Z) (i : Z) : Z := (x / 256 ^ i) mod 256.

(** [1 + ] the non-zero bytes among the four of [off] [+] those among the two
    low bytes of [size]. *)
Definition cost (off size : Z) : Z :=
  1 + nz (byte_at off 0) + nz (byte_at off 1) + nz (byte_at off 2)
    + nz (byte_at off 3)
    + nz (byte_at size 0) + nz (byte_at size 1).

(** [k] is the smallest integer [>= 1] with [2 ^ k >= n]. *)
Definition smallest_bits (n k : Z) : Prop :=
  1 <= k /\ n <= 2 ^ k /\ forall j, 1 <= j -> n <= 2 ^ j -> k <= j.

(** [ceil (a / b)] *)
Definition cdiv (a b : Z) : Z := (a + b - 1) / b.

(** A state at the head of the main loop, for the reference and target
    [Examples.hello]: two header bytes written, nothing else. *)
Definition hello_state : enc_state :=
  {| out := replicate 16 x00; outsize := 16; outpos := 2; inscnt := 0;
     moff := 0; data := Examples.hello |}.

(** ** Match lengths, for the statements about the chain walk *)

(** The length the encoder measures for the record [r] against the target
    at [data] (lines 215-222), and the same capped at [0x10000]. *)
Definition run_at (ref_buf data : list byte) (r : bdrecord) : Z :=
  let csize := u32 (len ref_buf - ptr r) in
  let csize := if csize >? len data then len data else csize in
  match_run csize (drop (Z.to_nat (ptr r)) ref_buf) data.

Definition capped_run (ref_buf data : list byte) (r : bdrecord) : Z :=
  Z.min (run_at ref_buf data r) 0x10000.

(** ** The opcodes the encoder decides on, and their bytes *)

Inductive op : Type :=
| Insert (lits : list byte)
| Copy (off size : Z).

(** The byte [put_if] stores for [v], if any, and the bit it sets. *)
Definition opt_byte (v : Z) : list byte :=
  if Z.land v 0xff =? 0 then [] else [u8 v].

Definition opt_flag (v flag : Z) : Z :=
  if Z.land v 0xff =? 0 then 0 else flag.

Definition copy_fields (off size : Z) : list byte :=
  opt_byte off ++ opt_byte (Z.shiftr off 8)
  ++ opt_byte (Z.shiftr (Z.shiftr off 8) 8)
  ++ opt_byte (Z.shiftr (Z.shiftr (Z.shiftr off 8) 8) 8)
  ++ opt_byte size ++ opt_byte (Z.shiftr size 8).

Definition copy_cmd (off size : Z) : Z :=
  Z.lor (Z.lor (Z.lor (Z.lor (Z.lor (Z.lor 0x80
    (opt_flag off 0x01))
    (opt_flag (Z.shiftr off 8) 0x02))
    (opt_flag (Z.shiftr (Z.shiftr off 8) 8) 0x04))
    (opt_flag (Z.shiftr (Z.shiftr (Z.shiftr off 8) 8) 8) 0x08))
    (opt_flag size 0x10))
    (opt_flag (Z.shiftr size 8) 0x20).

Definition ser_op (o : op) : list byte :=
  match o with
  | Insert lits => u8 (len lits) :: lits
  | Copy off size => u8 (copy_cmd off size) :: copy_fields off size
  end.

Definition ser_ops (ops : list op) : list byte := concat (map ser_op ops).

(** The bytes of one size of the header, as [put_size] leaves them. *)
Fixpoint size_bytes_loop (fuel : nat) (size : Z) : list byte :=
  match fuel with
  | O => []
  | S fuel' =>
      if Z.shiftr size 7 =? 0 then [u8 size]
      else u8 (Z.lor (byte_val (u8 size)) 0x80)
             :: size_bytes_loop fuel' (Z.shiftr size 7)
  end.

Definition size_bytes (size : Z) : list byte := size_bytes_loop 11 size.

Definition header (ref_buf to_buf : list byte) : list byte :=
  size_bytes (len ref_buf) ++ size_bytes (len to_buf).

Definition header_size (ref_buf to_buf : list byte) : Z :=
  len (header ref_buf to_buf).

(** The literal run that is open when the loop is left or a copy starts. *)
Definition flush (lits : list byte) : list op :=
  match lits with
  | [] => []
  | _ :: _ => [Insert lits]
  end.

Definition moff_after (moff : Z) : Z :=
  Z.shiftr (Z.shiftr (Z.shiftr moff 8) 8) 8.

Section Opcodes.
Variable adler32 : Z -> list byte -> Z.

(** The decisions of the main loop of [diff_delta], without the buffer:
    [lits] is the open literal run, [moff] and [data] are as in
    [enc_state]. *)
Fixpoint ops_loop (fuel : nat) (bdf : bdfile) (ref_buf : list byte)
    (moff : Z) (lits data : list byte) : list op :=
  match data with
  | [] => flush lits
  | b :: rest =>
      match fuel with
      | O => []
      | S fuel' =>
          let '(msize, moff') := find_match adler32 bdf ref_buf data moff in
          if insert_path msize moff' then
            let lits' := lits ++ [b] in
            if len lits' =? 0x7f
            then Insert lits' :: ops_loop fuel' bdf ref_buf moff' [] rest
            else ops_loop fuel' bdf ref_buf moff' lits' rest
          else
            flush lits
            ++ Copy moff' msize
               :: ops_loop fuel' bdf ref_buf (moff_after moff') []
                    (drop (Z.to_nat msize) data)
      end
  end.

Definition delta_ops (ref_buf to_buf : list byte) : list op :=
  ops_loop (length to_buf) (delta_prepare adler32 ref_buf) ref_buf 0 [] to_buf.

End Opcodes.

(** ** The applier *)

(** Modelled from the spec: the reader of a delta is not in [src/]; section 6
    of the specification gives the wire format.  The reader here is strict:
    it refuses a zero command byte, a truncated opcode, a copy that leaves
    the reference, a reference of another size than announced and a result
    of another size than announced. *)
Module Applier.

(** One size of the header: seven payload bits per byte, low bits first,
    the high bit set on every byte but the last. *)
Fixpoint get_size (delta : list byte) (shift acc : Z)
    : option (Z * list byte) :=
  match delta with
  | [] => None
  | b :: delta' =>
      let acc' := acc + Z.land (byte_val b) 0x7f * 2 ^ shift in
      if Z.testbit (byte_val b) 7 then get_size delta' (shift + 7) acc'
      else Some (acc', delta')
  end.

(** An offset or size byte: read from the delta when its bit is set in the
    command byte, zero otherwise. *)
Definition get_field (cmd bit : Z) (delta : list byte)
    : option (Z * list byte) :=
  if Z.testbit cmd bit then
    match delta with
    | [] => None
    | b :: delta' => Some (byte_val b, delta')
    end
  else Some (0, delta).

Definition get_copy (cmd : Z) (delta : list byte)
    : option (Z * Z * list byte) :=
  '(o0, delta) ← get_field cmd 0 delta;
  '(o1, delta) ← get_field cmd 1 delta;
  '(o2, delta) ← get_field cmd 2 delta;
  '(o3, delta) ← get_field cmd 3 delta;
  '(s0, delta) ← get_field cmd 4 delta;
  '(s1, delta) ← get_field cmd 5 delta;
  let off := o0 + o1 * 2 ^ 8 + o2 * 2 ^ 16 + o3 * 2 ^ 24 in
  let size := s0 + s1 * 2 ^ 8 in
  Some (off, (if size =? 0 then 0x10000 else size), delta).

(** The opcodes of a delta body.  Every opcode takes at least one byte. *)
Fixpoint parse_ops (fuel : nat) (delta : list byte) : option (list op) :=
  match delta with
  | [] => Some []
  | c :: delta' =>
      match fuel with
      | O => None
      | S fuel' =>
          let cmd := byte_val c in
          if Z.testbit cmd 7 then
            '(off, size, rest) ← get_copy cmd delta';
            ops ← parse_ops fuel' rest;
            Some (Copy off size :: ops)
          else if cmd =? 0 then None
          else if cmd <=? len delta' then
            ops ← parse_ops fuel' (drop (Z.to_nat cmd) delta');
            Some (Insert (take (Z.to_nat cmd) delta') :: ops)
          else None
      end
  end.

Definition apply_op (ref_buf : list byte) (o : op) : option (list byte) :=
  match o with
  | Insert lits => Some lits
  | Copy off size =>
      if (0 <=? off) && (off + size <=? len ref_buf)
      then Some (take (Z.to_nat size) (drop (Z.to_nat off) ref_buf))
      else None
  end.

Fixpoint apply_ops (ref_buf : list byte) (ops : list op)
    : option (list byte) :=
  match ops with
  | [] => Some []
  | o :: ops' =>
      a ← apply_op ref_buf o;
      b ← apply_ops ref_buf ops';
      Some (a ++ b)
  end.

Definition patch_delta (ref_buf delta : list byte) : option (list byte) :=
  '(src_size, body) ← get_size delta 0 0;
  '(dst_size, body) ← get_size body 0 0;
  if src_size =? len ref_buf then
    ops ← parse_ops (length body) body;
    dst ← apply_ops ref_buf ops;
    if len dst =? dst_size then Some dst else None
  else None.

End Applier.

(** An opcode the applier accepts for the reference [ref_buf]: a literal run
    of 1 to 127 bytes, or a copy of 1 to [0x10000] bytes that stays inside
    the reference. *)
Definition op_ok (ref_buf : list byte) (o : op) : Prop :=
  match o with
  | Insert lits => 1 <= len lits <= 0x7f
  | Copy off size => 0 <= off /\ 1 <= size <= 0x10000 /\ off + size <= len ref_buf
  end.

(** A copy that reads inside the reference. *)
Definition copy_inside (ref_buf : list byte) (o : op) : Prop :=
  match o with
  | Insert _ => True
  | Copy off size => 0 <= off /\ 0 < size /\ off + size <= len ref_buf
  end.

(** ** Invariants *)

(** What [prepare_loop] keeps true of every chain while [data] walks down:
    positions rise along the chain and all lie above [data]. *)
Definition chain_ok (buf : list byte) (data : Z) (chain : list bdrecord) : Prop :=
  StronglySorted Z.lt (map ptr chain)
  /\ Forall (fun r => data < ptr r /\ 0 <= ptr r < len buf) chain.

(** The open literal run in the buffer: the reserved length byte, whatever
    it holds, and the literals. *)
Definition pending (x : byte) (lits : list byte) : list byte :=
  match lits with
  | [] => []
  | _ :: _ => x :: lits
  end.

(** The state of the main loop against the opcodes decided so far: the
    written part of the buffer is [C], the bytes of the header and of the
    closed opcodes, followed by the open literal run [lits].  [h] is the
    length of the header and [n] the length of the target. *)
Record Rep (max_size h n : Z) (st : enc_state) (C lits : list byte) : Prop := {
  rep_len : len (out st) = outsize st;
  rep_cap : 9 <= outsize st /\ outsize st * 3 < 2 ^ 32;
  rep_cap_max : max_size <> 0 -> outsize st <= max_size + 8;
  rep_cap_min : outsize st = max_size + 8 \/ 8192 <= outsize st;
  rep_pos : 0 <= outpos st <= outsize st;
  rep_ins : inscnt st = len lits /\ len lits < 0x7f;
  rep_out : exists x, take (Z.to_nat (outpos st)) (out st) = C ++ pending x lits;
  rep_data : len (data st) <= n;
  rep_size : 3 * (outpos st - h) + inscnt st
             <= 4 * (n - len (data st)) + (if inscnt st =? 0 then 0 else 3)
}.

(** Room for the longest opcode. *)
Definition Safe (st : enc_state) : Prop := outpos st + 7 <= outsize st.

(** What holds after the capacity check at the end of an iteration. *)
Definition Checked (max_size : Z) (st : enc_state) : Prop :=
  Safe st /\ (max_size <> 0 -> outpos st <= max_size).

(** The written part [P] of a buffer up to [pos]. *)
Definition written (P : list byte) (out : list byte) (pos : Z) : Prop :=
  take (Z.to_nat pos) out = P /\ pos = len P /\ pos <= len out.

(** The same while the fields of a copy are stored from [lo] on: the
    position may run one past the buffer as long as nothing is stored. *)
Definition written_from (lo : Z) (P : list byte) (out : list byte) (pos : Z)
    : Prop :=
  pos = len P /\ lo <= pos /\ pos <= Z.max (len out) lo
  /\ (pos <= len out -> take (Z.to_nat pos) out = P).

(** ** What the index holds *)

Section IndexContents.
Variable adler32 : Z -> list byte -> Z.

(** The record [delta_prepare] makes for the block at [p] (lines 132-133):
    the checksum of the [MIN(BLK_SIZE, top - data)] bytes at [p], and
    [p]. *)
Definition block_record (buf : list byte) (p : Z) : bdrecord :=
  {| fp := u32 (adler32 0 (take (Z.to_nat (Z.min BLK_SIZE (len buf - p)))
                                (drop (Z.to_nat p) buf)));
     ptr := p |}.

(** What [prepare_loop] keeps true of the table while [data] walks down
    from [lo]: bucket [i] holds the records of the blocks above [lo] whose
    checksum hashes to [i], and nothing else. *)
Definition indexed (buf : list byte) (bits lo : Z)
    (fphash : list (list bdrecord)) : Prop :=
  forall i r, 0 <= i < len fphash ->
    (r ∈ bucket fphash i <->
     exists p, lo < p < len buf /\ p mod BLK_SIZE = 0
               /\ r = block_record buf p /\ i = HASH (fp r) bits).

End IndexContents.

(** ** What the opcodes stand for *)

(** The number of target bytes an opcode produces. *)
Definition op_size (o : op) : Z :=
  match o with
  | Insert lits => len lits
  | Copy _ size => size
  end.

Definition target_bytes (ops : list op) : Z := foldr Z.add 0 (map op_size ops).

Definition is_insert (o : op) : Prop :=
  match o with
  | Insert _ => True
  | Copy _ _ => False
  end.

(** A copy that is no longer on the wire than the bytes it stands for. *)
Definition copy_pays (o : op) : Prop :=
  match o with
  | Insert _ => True
  | Copy _ size => len (ser_op o) <= size
  end.

(** No literal run is followed by another one unless it is full. *)
Fixpoint runs_merged (ops : list op) : Prop :=
  match ops with
  | [] => True
  | o :: ops' =>
      match o, ops' with
      | Insert lits, Insert _ :: _ => len lits = 0x7f
      | _, _ => True
      end
      /\ runs_merged ops'
  end.

(** ** The heap *)

(** [diff-delta.c] allocates with [malloc] and [realloc] and releases with
    [free].  A block is named by the number of the call that allocated it;
    [live] maps the blocks that are allocated to their sizes in bytes.  The
    bytes of the output buffer stay in [enc_state]; the heap records which
    blocks exist. *)
Record heap : Type := { calls : nat; live : gmap nat Z }.

(** The outcome of a call that uses the heap: it returns [a] and leaves the
    heap [h]; or it frees or reallocates a block that is not allocated, or
    stores outside a buffer (undefined behaviour in C); or the fuel of a
    loop ran out. *)
Inductive mrun (A : Type) : Type :=
| Ret (a : A) (h : heap)
| Undefined
| Unfinished.
Arguments Ret {A} a h.
Arguments Undefined {A}.
Arguments Unfinished {A}.

Definition mem (A : Type) : Type := heap -> mrun A.

#[global] Instance mem_ret : MRet mem := fun A a h => Ret a h.
#[global] Instance mem_bind : MBind mem := fun A B f c h =>
  match c h with
  | Ret a h' => f a h'
  | Undefined => Undefined
  | Unfinished => Unfinished
  end.

(** The buffer operations of the encoder, run beside the heap. *)
Definition lift {A} (r : run A) : mem A := fun h =>
  match r with
  | Done a => Ret a h
  | OutOfFuel => Unfinished
  | _ => Undefined
  end.

(** Sizes of the structures, for 64-bit pointers (as [unsigned long] has 64
    bits): [chanode_t] is a pointer and an [int], padded; [bdrecord_t] is a
    pointer, an [unsigned int], padding and a pointer. *)
Definition sizeof_chanode_t : Z := 16.
Definition sizeof_bdrecord_t : Z := 24.
Definition sizeof_pointer : Z := 8.

(** A node of the arena: the block that holds it, and [icurr]; [next] is the
    rest of the list. *)
Record chanode : Type := { node_block : nat; icurr : Z }.

(** [ancur] is the list of nodes from the current one on; [NULL] is the
    empty list. *)
Record chastore : Type := { isize : Z; nsize : Z; ancur : list chanode }.

(** An address inside a block: the block and the offset in bytes. *)
Definition address : Type := (nat * Z)%type.

(** The index with its memory: the arena, the block of the table, and the
    table, each record with the address [cha_alloc] gave it. *)
Record bdfile_mem : Type := {
  cha : chastore;
  bits_mem : Z;
  fphash_block : nat;
  fphash_mem : list (list (address * bdrecord))
}.

(** What the search reads of it. *)
Definition index_of (bdf : bdfile_mem) : bdfile :=
  {| fphbits := bits_mem bdf; fphash := map (map snd) (fphash_mem bdf) |}.

Section Memory.

(** Whether an allocation finds memory is not in the hands of the program:
    [avail k] says whether call number [k] does. *)
Variable avail : nat -> bool.
Variable adler32 : Z -> list byte -> Z.

Definition malloc (size : Z) : mem (option nat) := fun h =>
  let b := calls h in
  if avail b
  then Ret (Some b) {| calls := S b; live := <[b := size]> (live h) |}
  else Ret None {| calls := S b; live := live h |}.

Definition free (b : nat) : mem unit := fun h =>
  match live h !! b with
  | Some _ => Ret tt {| calls := calls h; live := delete b (live h) |}
  | None => Undefined
  end.

(** A [realloc] that fails leaves the block as it is; one that succeeds
    releases it and returns a block of the new size. *)
Definition realloc (b : nat) (size : Z) : mem (option nat) := fun h =>
  match live h !! b with
  | Some _ =>
      let b' := calls h in
      if avail b'
      then Ret (Some b')
             {| calls := S b'; live := <[b' := size]> (delete b (live h)) |}
      else Ret None {| calls := S b'; live := live h |}
  | None => Undefined
  end.

(** *** The arena allocator (lines 54-89) *)

Definition cha_init (isize icount : Z) : chastore :=
  {| isize := isize; nsize := icount * isize; ancur := [] |}.

(** Lines 76-78, for the current node [n] followed by [next]. *)
Definition cha_take (cha : chastore) (n : chanode) (next : list chanode)
    : option address * chastore :=
  (Some (node_block n, sizeof_chanode_t + icurr n),
   {| isize := isize cha; nsize := nsize cha;
      ancur := {| node_block := node_block n; icurr := icurr n + isize cha |}
               :: next |}).

(** Lines 67-74. *)
Definition cha_fresh (cha : chastore) : mem (option address * chastore) :=
  p ← malloc (sizeof_chanode_t + nsize cha);
  match p with
  | None => mret (None, cha)
  | Some b => mret (cha_take cha {| node_block := b; icurr := 0 |} (ancur cha))
  end.

Definition cha_alloc (cha : chastore) : mem (option address * chastore) :=
  match ancur cha with
  | [] => cha_fresh cha
  | n :: next =>
      if icurr n =? nsize cha then cha_fresh cha
      else mret (cha_take cha n next)
  end.

Fixpoint cha_free_loop (cur : list chanode) : mem unit :=
  match cur with
  | [] => mret tt
  | tmp :: cur' => _ ← free (node_block tmp); cha_free_loop cur'
  end.

Definition cha_free (cha : chastore) : mem unit := cha_free_loop (ancur cha).

(** *** delta_prepare and delta_cleanup with their memory *)

(** The loop of lines 125-137; [None] is the return of [-1] at line 130. *)
Fixpoint prepare_loop_mem (fuel : nat) (buf : list byte) (bits : Z) (data : Z)
    (table : nat) (cha : chastore) (fphash : list (list (address * bdrecord)))
    : mem (option (chastore * list (list (address * bdrecord)))) :=
  match fuel with
  | O => mret (Some (cha, fphash))
  | S fuel' =>
      if data <? 0 then mret (Some (cha, fphash))
      else
        '(brec, cha) ← cha_alloc cha;
        match brec with
        | None =>
            _ ← cha_free cha;
            _ ← free table;
            mret None
        | Some a =>
            let top := len buf in
            let r :=
              {| fp := u32 (adler32 0 (take (Z.to_nat (Z.min BLK_SIZE (top - data)))
                                            (drop (Z.to_nat data) buf)));
                 ptr := data |} in
            let i := HASH (fp r) bits in
            prepare_loop_mem fuel' buf bits (data - BLK_SIZE) table cha
              (<[Z.to_nat i := (a, r) :: default [] (fphash !! Z.to_nat i)]> fphash)
        end
  end.

(** [None] is the return value [-1], [Some bdf] is [0] with [*bdf] filled. *)
Definition delta_prepare_mem (buf : list byte) : mem (option bdfile_mem) :=
  let bufsize := len buf in
  let bits := hashbits (u32 (bufsize / BLK_SIZE + 1)) in
  let hsize := Z.shiftl 1 bits in
  fphash ← malloc (hsize * sizeof_pointer);
  match fphash with
  | None => mret None
  | Some table =>
      let cha := cha_init sizeof_bdrecord_t (hsize / 4 + 1) in
      let top := bufsize in
      let data := (bufsize / BLK_SIZE) * BLK_SIZE in
      let data := if data =? top then data - BLK_SIZE else data in
      r ← prepare_loop_mem (Z.to_nat (bufsize / BLK_SIZE + 1)) buf bits data
            table cha (replicate (Z.to_nat hsize) []);
      match r with
      | None => mret None
      | Some (cha, fphash) =>
          mret (Some {| cha := cha; bits_mem := bits; fphash_block := table;
                        fphash_mem := fphash |})
      end
  end.

Definition delta_cleanup (bdf : bdfile_mem) : mem unit :=
  _ ← free (fphash_block bdf);
  cha_free (cha bdf).

(** *** diff_delta with its memory *)

(** Lines 268-282, for the output buffer in the block [ob]; [None] is the
    [return NULL] of line 280. *)
Definition grow_mem (max_size : Z) (bdf : bdfile_mem) (ob : nat)
    (st : enc_state) : mem (option (nat * enc_state)) :=
  if outpos st >=? u32 (outsize st - MAX_OP_SIZE) then
    let tmp := ob in
    let outsize1 := u32 (outsize st * 3) / 2 in
    let outsize2 :=
      if negb (max_size =? 0) && (outsize1 >=? max_size)
      then u32 (max_size + MAX_OP_SIZE + 1) else outsize1 in
    out' ← (if negb (max_size =? 0) && (outpos st >? max_size)
            then mret None
            else realloc ob outsize2);
    match out' with
    | None =>
        _ ← free tmp;
        _ ← delta_cleanup bdf;
        mret None
    | Some ob' =>
        mret (Some (ob', {| out := resize (Z.to_nat outsize2) x00 (out st);
                            outsize := outsize2; outpos := outpos st;
                            inscnt := inscnt st; moff := moff st;
                            data := data st |}))
    end
  else mret (Some (ob, st)).

(** The main loop and lines 285-290; the result is the returned block with
    the [*delta_size] bytes of the delta, or [None] for [NULL]. *)
Fixpoint encode_loop_mem (fuel : nat) (bdf : bdfile_mem) (ref_buf : list byte)
    (max_size : Z) (ob : nat) (st : enc_state)
    : mem (option (nat * list byte)) :=
  match data st with
  | [] =>
      out' ← lift (close_insert st);
      _ ← delta_cleanup bdf;
      mret (Some (ob, take (Z.to_nat (outpos st)) out'))
  | b :: rest =>
      match fuel with
      | O => fun _ => Unfinished
      | S fuel' =>
          let '(msize, moff') :=
            find_match adler32 (index_of bdf) ref_buf (data st) (moff st) in
          st' ← lift (if insert_path msize moff'
                      then emit_insert st moff' b rest
                      else emit_copy st msize moff');
          r ← grow_mem max_size bdf ob st';
          match r with
          | None => mret None
          | Some (ob', st'') =>
              encode_loop_mem fuel' bdf ref_buf max_size ob' st''
          end
      end
  end.

Definition diff_delta_mem (from_buf to_buf : list byte) (max_size : Z)
    : mem (option (nat * list byte)) :=
  let from_size := len from_buf in
  let to_size := len to_buf in
  if (from_size =? 0) || (to_size =? 0) then mret None
  else
    bdf ← delta_prepare_mem from_buf;
    match bdf with
    | None => mret None
    | Some bdf =>
        let outsize := 8192 in
        let outsize :=
          if negb (max_size =? 0) && (outsize >=? max_size)
          then u32 (max_size + MAX_OP_SIZE + 1) else outsize in
        out ← malloc outsize;
        match out with
        | None =>
            _ ← delta_cleanup bdf;
            mret None
        | Some ob =>
            let out := replicate (Z.to_nat outsize) x00 in
            '(out, outpos) ← lift (put_size from_size out 0);
            '(out, outpos) ← lift (put_size to_size out outpos);
            encode_loop_mem (length to_buf) bdf from_buf max_size ob
              {| out := out; outsize := outsize; outpos := outpos;
                 inscnt := 0; moff := 0; data := to_buf |}
        end
    end.

End Memory.

(** ** Invariants of the heap *)

(** No block has a number that is still to come. *)
Definition heap_ok (h : heap) : Prop :=
  forall b, (calls h <= b)%nat -> live h !! b = None.

(** The heap [h] is the heap [h0] and the blocks [bs], allocated since. *)
Record owns (h0 h : heap) (bs : list nat) : Prop := {
  owns_old : heap_ok h0;
  owns_ok : heap_ok h;
  owns_calls : (calls h0 <= calls h)%nat;
  owns_new : forall b, b ∈ bs -> (calls h0 <= b)%nat /\ is_Some (live h !! b);
  owns_rest : forall b, b ∉ bs -> live h !! b = live h0 !! b;
  owns_nodup : NoDup bs
}.

Definition chunks (cha : chastore) : list nat := map node_block (ancur cha).

(** What [cha_alloc] keeps true of the arena, of the heap and of the
    addresses [S] it has handed out: every node lies in an allocated block of
    [sizeof (chanode_t) + nsize] bytes and is filled up to a multiple of
    [isize], every node but the current one is full, and every address
    handed out is a slot of [isize] bytes in the filled part of a node. *)
Record arena_inv (cha : chastore) (h : heap) (S : list address) : Prop := {
  arena_isize : 0 < isize cha;
  arena_nsize : exists icount, 0 < icount /\ nsize cha = icount * isize cha;
  arena_nodes : forall n, n ∈ ancur cha ->
      live h !! node_block n = Some (sizeof_chanode_t + nsize cha)
      /\ exists j, 0 <= j /\ icurr n = j * isize cha /\ icurr n <= nsize cha;
  arena_shape :
      match ancur cha with
      | [] => S = []
      | n :: rest =>
          isize cha <= icurr n
          /\ Forall (fun n' => icurr n' = nsize cha) rest
          /\ len S * isize cha = icurr n + len rest * nsize cha
      end;
  arena_nodup : NoDup S;
  arena_slots : forall a, a ∈ S ->
      exists n j, n ∈ ancur cha /\ node_block n = a.1
        /\ 0 <= j /\ a.2 = sizeof_chanode_t + j * isize cha
        /\ a.2 + isize cha <= sizeof_chanode_t + icurr n
}.

(** Two slots of [isize] bytes that do not overlap. *)
Definition apart (isize : Z) (a b : address) : Prop :=
  a.1 <> b.1 \/ a.2 + isize <= b.2 \/ b.2 + isize <= a.2.

(** The buffer operations of the encoder end in a value or in a store
    outside the buffer. *)
Definition clean {A} (r : run A) : Prop :=
  match r with
  | Done _ | OutOfBounds _ _ => True
  | _ => False
  end.


(** The heap before anything is allocated. *)
Definition empty_heap : heap := {| calls := 0; live := ∅ |}.

(** ** Runs of the memory model, for the theorems *)

Module MemExamples.

(** Every allocation finds memory. *)
Definition plenty : nat -> bool := fun _ => true.

(** Every allocation but the one numbered [k] finds memory. *)
Definition all_but (k : nat) : nat -> bool := fun j => negb (Nat.eqb j k).

(** The index of [Examples.ramp] in memory, and the heap that holds it. *)
Definition ramp_prepared : mrun (option bdfile_mem) :=
  delta_prepare_mem plenty Zlib.adler32 Examples.ramp empty_heap.

Definition ramp_bdf : bdfile_mem :=
  match ramp_prepared with
  | Ret (Some bdf) _ => bdf
  | _ => {| cha := cha_init 0 0; bits_mem := 0; fphash_block := 0;
            fphash_mem := [] |}
  end.

Definition ramp_heap : heap :=
  match ramp_prepared with
  | Ret _ h => h
  | _ => empty_heap
  end.

End MemExamples.

(** * Proofs *)

(** ** Bytes *)

Lemma byte_val_u8 (z : Z) : byte_val (u8 z) = z mod 256.
Proof.
  unfold byte_val, u8.
  assert (Hr : 0 <= z mod 256 < 256) by (apply Z.mod_pos_bound; lia).
  destruct (Byte.of_N (Z.to_N (z mod 256))) as [b|] eqn:E.
  - apply Byte.to_of_N in E. rewrite E. lia.
  - apply Byte.of_N_None_iff in E. lia.
Qed.

Lemma byte_val_range (b : byte) : 0 <= byte_val b < 256.
Proof. unfold byte_val. pose proof (Byte.to_N_bounded b). lia. Qed.

Lemma u8_byte_val (b : byte) : u8 (byte_val b) = b.
Proof.
  unfold u8. rewrite Z.mod_small by apply byte_val_range.
  unfold byte_val. rewrite N2Z.id, Byte.of_to_N. reflexivity.
Qed.

Lemma u8_mod (z : Z) : u8 (z mod 256) = u8 z.
Proof. unfold u8. rewrite Z.mod_mod by lia. reflexivity. Qed.

Lemma u32_small (z : Z) : 0 <= z < 2 ^ 32 -> u32 z = z.
Proof. intros H. unfold u32. apply Z.mod_small. exact H. Qed.

Lemma u32_range (z : Z) : 0 <= u32 z < 2 ^ 32.
Proof. unfold u32. apply Z.mod_pos_bound. lia. Qed.

(** ** Masks and bytes *)

Lemma land_ff (x : Z) : Z.land x 0xff = x mod 256.
Proof. change 0xff with (Z.ones 8). rewrite Z.land_ones by lia. reflexivity. Qed.

Lemma land_mask_shift (x k : Z) :
  0 <= k -> Z.land x (Z.shiftl 0xff k) = Z.shiftl (Z.land (Z.shiftr x k) 0xff) k.
Proof.
  intros Hk. apply Z.bits_inj'. intros n Hn.
  rewrite Z.land_spec.
  destruct (Z.lt_ge_cases n k) as [Hlt|Hge].
  - rewrite !Z.shiftl_spec_low by lia. apply andb_false_r.
  - rewrite !Z.shiftl_spec by lia. rewrite Z.land_spec, Z.shiftr_spec by lia.
    replace (n - k + k) with n by lia. reflexivity.
Qed.

Lemma nz_shiftl (x k : Z) : 0 <= k -> nz (Z.shiftl x k) = nz x.
Proof.
  intros Hk. unfold nz.
  destruct (Z.eqb_spec x 0) as [->|Hx].
  - rewrite Z.shiftl_0_l. reflexivity.
  - destruct (Z.eqb_spec (Z.shiftl x k) 0) as [E|E]; [|reflexivity].
    apply Z.shiftl_eq_0_iff in E; [contradiction | exact Hk].
Qed.

Lemma nz_mask (x k : Z) :
  0 <= k -> nz (Z.land x (Z.shiftl 0xff k)) = nz (Z.land (Z.shiftr x k) 0xff).
Proof. intros Hk. rewrite land_mask_shift by exact Hk. apply nz_shiftl, Hk. Qed.

Lemma byte_at_shiftr (x i : Z) :
  0 <= i -> byte_at x i = Z.land (Z.shiftr x (8 * i)) 0xff.
Proof.
  intros Hi. unfold byte_at. rewrite land_ff, Z.shiftr_div_pow2 by lia.
  rewrite Z.pow_mul_r by lia. reflexivity.
Qed.

Lemma COPYOP_SIZE_cost (o s : Z) : COPYOP_SIZE o s = cost o s.
Proof.
  unfold COPYOP_SIZE, cost.
  rewrite !byte_at_shiftr by lia. change (8 * 0) with 0.
  change 0xff00 with (Z.shiftl 0xff 8).
  change 0xff0000 with (Z.shiftl 0xff 16).
  change 0xff000000 with (Z.shiftl 0xff 24).
  rewrite !nz_mask by lia. rewrite !Z.shiftr_0_r.
  change (8 * 1) with 8. change (8 * 2) with 16. change (8 * 3) with 24. lia.
Qed.

Lemma nz_range (x : Z) : 0 <= nz x <= 1.
Proof. unfold nz. destruct (x =? 0); lia. Qed.

Lemma COPYOP_SIZE_range (o s : Z) : 1 <= COPYOP_SIZE o s <= 7.
Proof.
  unfold COPYOP_SIZE.
  pose proof (nz_range (Z.land o 0xff)). pose proof (nz_range (Z.land o 0xff00)).
  pose proof (nz_range (Z.land o 0xff0000)).
  pose proof (nz_range (Z.land o 0xff000000)).
  pose proof (nz_range (Z.land s 0xff)). pose proof (nz_range (Z.land s 0xff00)).
  lia.
Qed.

(** ** C6: the value of MAX_OP_SIZE *)

(** C6, as stated (MAX_OP_SIZE equals 8), fails: the macro evaluates to 7. *)
Lemma MAX_OP_SIZE_not_8 : MAX_OP_SIZE <> 8.
Proof. vm_compute. discriminate. Qed.

(** C6, amended: MAX_OP_SIZE, the copy cost at the largest offset and size,
    equals 7, and no copy opcode is longer. *)
Theorem MAX_OP_SIZE_is_7 :
  MAX_OP_SIZE = 7 /\ MAX_OP_SIZE = cost 0xffffffff 0xffffffff
  /\ forall o s, COPYOP_SIZE o s <= MAX_OP_SIZE.
Proof.
  split; [reflexivity|]. split; [reflexivity|].
  intros o s. change MAX_OP_SIZE with 7. apply COPYOP_SIZE_range.
Qed.

(** ** The test of line 234 *)

Lemma insert_path_iff (msize moff : Z) :
  insert_path msize moff = true <-> msize = 0 \/ msize < cost moff msize.
Proof.
  unfold insert_path. rewrite orb_true_iff, Z.eqb_eq, Z.ltb_lt, COPYOP_SIZE_cost.
  reflexivity.
Qed.

(** ** C9: empty inputs *)

(** C9: with an empty reference or an empty target [diff_delta] returns
    null, for every [max_size]. *)
Theorem empty_input_null (adler32 : Z -> list byte -> Z)
    (from_buf to_buf : list byte) (max_size : Z) :
  from_buf = [] \/ to_buf = [] ->
  diff_delta adler32 from_buf to_buf max_size = ReturnNull.
Proof.
  intros [-> | ->]; unfold diff_delta; simpl.
  - reflexivity.
  - rewrite orb_true_r. reflexivity.
Qed.

Lemma empty_input_null_witness :
  diff_delta Zlib.adler32 [] Examples.hello 5 = ReturnNull
  /\ diff_delta Zlib.adler32 Examples.hello [] 0 = ReturnNull.
Proof.
  split.
  - apply (empty_input_null Zlib.adler32 [] Examples.hello 5). left. reflexivity.
  - apply (empty_input_null Zlib.adler32 Examples.hello [] 0). right. reflexivity.
Defined.

(** ** hashbits *)

Lemma hashbits_loop_spec (size : Z) (fuel : nat) :
  forall val bits,
    0 <= bits -> bits + Z.of_nat fuel = 32 -> (bits < 32 -> val = 2 ^ bits) ->
    let k := hashbits_loop fuel size val bits in
    bits <= k <= 32 /\ (k < 32 -> size <= 2 ^ k)
    /\ (bits < k -> 2 ^ (k - 1) < size).
Proof.
  induction fuel as [|fuel IH]; intros val bits Hb Hf Hv; simpl.
  - split; [lia|]. split; intros; lia.
  - destruct ((val <? size) && (bits <? 32)) eqn:Hc.
    + apply andb_true_iff in Hc. destruct Hc as [H1 H2].
      apply Z.ltb_lt in H1, H2.
      specialize (IH (u32 (Z.shiftl val 1)) (bits + 1)).
      destruct IH as (IH1 & IH2 & IH3); [lia | lia | |].
      * intros Hlt. rewrite Hv by lia. rewrite Z.shiftl_mul_pow2 by lia.
        rewrite <- Z.pow_add_r by lia. rewrite u32_small; [reflexivity|].
        split; [apply Z.pow_nonneg; lia|].
        apply Z.pow_lt_mono_r; lia.
      * split; [lia|]. split; [exact IH2|].
        intros _. destruct (Z.eq_dec (hashbits_loop fuel size (u32 (Z.shiftl val 1)) (bits + 1)) (bits + 1)) as [E|E].
        -- rewrite E. replace (bits + 1 - 1) with bits by lia.
           rewrite <- Hv by lia. exact H1.
        -- apply IH3. lia.
    + apply andb_false_iff in Hc. rename Hc into Hn.
      split; [lia|]. split; [|lia].
      intros Hk. destruct Hn as [Hn|Hn].
      * apply Z.ltb_ge in Hn. rewrite <- Hv by lia. exact Hn.
      * apply Z.ltb_ge in Hn. lia.
Qed.

(** The fuel of [hashbits_loop] is never what ends it: at [bits = 32] the
    guard is false. *)
Lemma hashbits_loop_fuel (size : Z) (fuel : nat) :
  forall val bits,
    bits + Z.of_nat fuel = 32 ->
    hashbits_loop (S fuel) size val bits = hashbits_loop fuel size val bits.
Proof.
  induction fuel as [|fuel IH]; intros val bits Hf.
  - assert (bits = 32) by lia. subst bits. simpl.
    rewrite andb_false_r. reflexivity.
  - change (hashbits_loop (S (S fuel)) size val bits)
      with (if (val <? size) && (bits <? 32)
            then hashbits_loop (S fuel) size (u32 (Z.shiftl val 1)) (bits + 1)
            else bits).
    change (hashbits_loop (S fuel) size val bits)
      with (if (val <? size) && (bits <? 32)
            then hashbits_loop fuel size (u32 (Z.shiftl val 1)) (bits + 1)
            else bits).
    destruct ((val <? size) && (bits <? 32)); [|reflexivity].
    apply IH. lia.
Qed.

Lemma hashbits_smallest (size : Z) :
  size <= 2 ^ 31 -> smallest_bits size (hashbits size).
Proof.
  intros Hs. unfold hashbits.
  destruct (hashbits_loop_spec size 32 1 0) as (H1 & H2 & H3); [lia | lia | reflexivity |].
  set (k := hashbits_loop 32 size 1 0) in *.
  assert (Hk : k < 32).
  { destruct (Z.eq_dec k 0) as [E|E]; [lia|].
    destruct (Z.eq_dec k 32) as [E32|E32]; [|lia].
    assert (2 ^ (k - 1) < size) by (apply H3; lia).
    rewrite E32 in H. simpl in H. lia. }
  destruct (Z.eqb_spec k 0) as [E|E].
  - split; [lia|]. split.
    + specialize (H2 Hk). rewrite E in H2. simpl in H2. simpl. lia.
    + intros j Hj _. exact Hj.
  - split; [lia|]. split; [apply H2, Hk|].
    intros j Hj Hle.
    assert (Hlt : 2 ^ (k - 1) < 2 ^ j) by (specialize (H3 ltac:(lia)); lia).
    apply Z.pow_lt_mono_r_iff in Hlt; lia.
Qed.

Section Index.
Variable adler32 : Z -> list byte -> Z.

Lemma prepare_loop_length (buf : list byte) (bits : Z) (fuel : nat) :
  forall data fphash,
    length (prepare_loop adler32 fuel buf bits data fphash) = length fphash.
Proof.
  induction fuel as [|fuel IH]; intros data fphash; simpl; [reflexivity|].
  destruct (data <? 0); [reflexivity|].
  rewrite IH. apply length_insert.
Qed.

(** Nor is the fuel of [prepare_loop]: once [data] is below the buffer the
    walk is over. *)
Lemma prepare_loop_fuel (buf : list byte) (bits : Z) (fuel : nat) :
  forall data fphash,
    data < BLK_SIZE * Z.of_nat fuel ->
    prepare_loop adler32 (S fuel) buf bits data fphash
    = prepare_loop adler32 fuel buf bits data fphash.
Proof.
  induction fuel as [|fuel IH]; intros data fphash Hd.
  - simpl. destruct (Z.ltb_spec data 0); [reflexivity|]. unfold BLK_SIZE in Hd. lia.
  - cbn [prepare_loop]. destruct (data <? 0); [reflexivity|].
    apply (IH (data - BLK_SIZE)). unfold BLK_SIZE in *. lia.
Qed.

Lemma delta_prepare_fuel (buf : list byte) (bits : Z)
    (fphash : list (list bdrecord)) :
  let data := len buf / BLK_SIZE * BLK_SIZE in
  let data := if data =? len buf then data - BLK_SIZE else data in
  prepare_loop adler32 (S (Z.to_nat (len buf / BLK_SIZE + 1))) buf bits data fphash
  = prepare_loop adler32 (Z.to_nat (len buf / BLK_SIZE + 1)) buf bits data fphash.
Proof.
  cbv zeta. apply prepare_loop_fuel.
  assert (Hn : 0 <= len buf) by (unfold len; lia).
  assert (Hq : 0 <= len buf / BLK_SIZE) by (unfold BLK_SIZE; apply Z.div_pos; lia).
  rewrite Z2Nat.id by lia.
  destruct (len buf / BLK_SIZE * BLK_SIZE =? len buf); unfold BLK_SIZE in *; lia.
Qed.

Lemma delta_prepare_hsize (buf : list byte) :
  len buf < 2 ^ 31 ->
  smallest_bits (len buf / BLK_SIZE + 1) (fphbits (delta_prepare adler32 buf))
  /\ len (fphash (delta_prepare adler32 buf))
     = 2 ^ fphbits (delta_prepare adler32 buf).
Proof.
  intros Hr. unfold delta_prepare; simpl.
  assert (Hn : 0 <= len buf) by (unfold len; lia).
  assert (Hq : 0 <= len buf / BLK_SIZE < 2 ^ 27).
  { unfold BLK_SIZE. split; [apply Z.div_pos; lia|].
    apply Z.div_lt_upper_bound; lia. }
  rewrite u32_small by lia.
  pose proof (hashbits_smallest (len buf / BLK_SIZE + 1) ltac:(lia)) as Hs.
  split; [exact Hs|].
  unfold len at 1. rewrite prepare_loop_length, length_replicate.
  destruct Hs as (Hk & _ & _).
  rewrite Z2Nat.id by (apply Z.shiftl_nonneg; lia).
  rewrite Z.shiftl_1_l. reflexivity.
Qed.

Lemma bucket_ok (buf : list byte) (data : Z) (fphash : list (list bdrecord)) (i : Z) :
  Forall (chain_ok buf data) fphash -> chain_ok buf data (bucket fphash i).
Proof.
  intros H. unfold bucket.
  destruct (fphash !! Z.to_nat i) as [chain|] eqn:E; simpl.
  - exact (Forall_lookup_1 _ _ _ _ H E).
  - split; constructor.
Qed.

Lemma chain_ok_weaken (buf : list byte) (data data' : Z) (chain : list bdrecord) :
  data' <= data -> chain_ok buf data chain -> chain_ok buf data' chain.
Proof.
  intros Hle [Hs Hf]. split; [exact Hs|].
  eapply Forall_impl; [exact Hf|]. simpl. intros r Hr. lia.
Qed.

Lemma prepare_loop_ok (buf : list byte) (bits : Z) (fuel : nat) :
  forall data fphash,
    data < len buf ->
    Forall (chain_ok buf data) fphash ->
    Forall (chain_ok buf (-1)) (prepare_loop adler32 fuel buf bits data fphash)
    \/ Forall (chain_ok buf data) (prepare_loop adler32 fuel buf bits data fphash).
Proof.
  induction fuel as [|fuel IH]; intros data fphash Hd Hok; simpl.
  - right. exact Hok.
  - destruct (Z.ltb_spec data 0) as [Hneg|Hpos]; [right; exact Hok|].
    set (brec := {| fp := _; ptr := data |}).
    set (i := HASH _ bits).
    assert (Hnew : Forall (chain_ok buf (data - BLK_SIZE))
                     (<[Z.to_nat i := brec :: bucket fphash i]> fphash)).
    { apply Forall_insert.
      - eapply Forall_impl; [exact Hok|]. intros c Hc.
        eapply chain_ok_weaken; [|exact Hc]. unfold BLK_SIZE. lia.
      - destruct (bucket_ok buf data fphash i Hok) as [Hs Hf].
        split.
        + simpl. constructor; [exact Hs|].
          apply Forall_fmap. eapply Forall_impl; [exact Hf|].
          simpl. intros r Hr. lia.
        + constructor.
          * simpl. unfold BLK_SIZE. lia.
          * eapply Forall_impl; [exact Hf|]. simpl. unfold BLK_SIZE. intros r Hr. lia. }
    destruct (IH (data - BLK_SIZE) _ ltac:(unfold BLK_SIZE; lia) Hnew) as [H|H].
    + left. exact H.
    + left. eapply Forall_impl; [exact H|]. intros c [Hs Hf]. split; [exact Hs|].
      eapply Forall_impl; [exact Hf|]. simpl. intros r Hr. lia.
Qed.

Lemma delta_prepare_ok (buf : list byte) :
  Forall (chain_ok buf (-1)) (fphash (delta_prepare adler32 buf)).
Proof.
  unfold delta_prepare; simpl.
  assert (Hn : 0 <= len buf) by (unfold len; lia).
  set (d0 := len buf / BLK_SIZE * BLK_SIZE).
  assert (Hd0 : d0 <= len buf).
  { unfold d0, BLK_SIZE. pose proof (Z.mul_div_le (len buf) 16). lia. }
  set (d := if d0 =? len buf then d0 - BLK_SIZE else d0).
  assert (Hd : d < len buf).
  { unfold d. destruct (Z.eqb_spec d0 (len buf)); unfold BLK_SIZE; lia. }
  match goal with |- Forall _ (prepare_loop _ ?f _ ?b _ ?h) =>
    destruct (prepare_loop_ok buf b f d h Hd) as [H|H] end.
  - apply Forall_replicate. split; constructor.
  - exact H.
  - destruct (Z.ltb_spec d 0) as [Hneg|Hpos].
    + (* the loop does not run at all *)
      eapply Forall_impl; [exact H|]. intros c [Hs Hf]. split; [exact Hs|].
      eapply Forall_impl; [exact Hf|]. simpl. intros r Hr. lia.
    + eapply Forall_impl; [exact H|]. intros c Hc.
      eapply chain_ok_weaken; [|exact Hc]. lia.
Qed.

Lemma delta_prepare_bucket_ok (buf : list byte) (i : Z) :
  chain_ok buf (-1) (bucket (fphash (delta_prepare adler32 buf)) i).
Proof. apply bucket_ok, delta_prepare_ok. Qed.

End Index.

(** ** C5: the number of buckets *)

(** C5, as stated (the bucket count is the power of two fitting
    [ceil (|R| / 16) + 1]), fails for a reference of 17 bytes: the claim asks
    for 4 buckets, the table has 2. *)
Lemma hsize_not_ceiling :
  ~ exists k,
      smallest_bits (cdiv (len Examples.seventeen) BLK_SIZE + 1) k
      /\ len (fphash (delta_prepare Zlib.adler32 Examples.seventeen)) = 2 ^ k.
Proof.
  intros (k & (H1 & H2 & H3) & H4).
  assert (Hl : len (fphash (delta_prepare Zlib.adler32 Examples.seventeen)) = 2)
    by (vm_compute; reflexivity).
  assert (Hc : cdiv (len Examples.seventeen) BLK_SIZE + 1 = 3)
    by (vm_compute; reflexivity).
  rewrite Hl in H4. rewrite Hc in H2. lia.
Qed.

(** C5, amended: for a non-empty reference (of a size an [int] holds)
    [delta_prepare] builds a table of exactly [2 ^ k] buckets, [k] the
    smallest integer [>= 1] with [2 ^ k >= floor (|R| / B) + 1], [B = 16]. *)
Theorem hsize_floor (adler32 : Z -> list byte -> Z) (R : list byte) :
  R <> [] -> len R < 2 ^ 31 ->
  exists k,
    smallest_bits (len R / BLK_SIZE + 1) k
    /\ BLK_SIZE = 16
    /\ fphbits (delta_prepare adler32 R) = k
    /\ len (fphash (delta_prepare adler32 R)) = 2 ^ k.
Proof.
  intros _ Hr. exists (fphbits (delta_prepare adler32 R)).
  destruct (delta_prepare_hsize adler32 R Hr) as [H1 H2].
  repeat split; try assumption; apply H1.
Qed.

Lemma hsize_floor_witness :
  exists k,
    smallest_bits (len Examples.seventeen / BLK_SIZE + 1) k
    /\ BLK_SIZE = 16
    /\ fphbits (delta_prepare Zlib.adler32 Examples.seventeen) = k
    /\ len (fphash (delta_prepare Zlib.adler32 Examples.seventeen)) = 2 ^ k.
Proof.
  apply (hsize_floor Zlib.adler32 Examples.seventeen).
  - discriminate.
  - vm_compute. reflexivity.
Defined.

(** ** C4: the order of a chain and the choice among equal matches *)

Section Walk.
Variables (ref_buf data : list byte) (tfp : Z).

Lemma match_run_range (csize : Z) (p1 p2 : list byte) :
  0 <= csize -> 0 <= match_run csize p1 p2 <= csize.
Proof.
  revert csize p2. induction p1 as [|a p1 IH]; intros csize p2 Hc; simpl; [lia|].
  destruct p2 as [|b p2]; [lia|].
  destruct (Z.eqb_spec csize 0); simpl; [lia|].
  destruct (Byte.eqb a b); [|lia].
  specialize (IH (csize - 1) p2). lia.
Qed.

Lemma walk_chain_spec (chain : list bdrecord) :
  forall msize0 moff0 msize moff,
    walk_chain ref_buf data tfp chain msize0 moff0 = (msize, moff) ->
    msize0 < 0x10000 ->
    msize0 <= msize <= 0x10000
    /\ (forall r, r ∈ chain -> fp r = tfp -> capped_run ref_buf data r <= msize)
    /\ ((msize = msize0 /\ moff = moff0)
        \/ (msize0 < msize
            /\ exists pre r post,
                chain = pre ++ r :: post /\ fp r = tfp
                /\ capped_run ref_buf data r = msize /\ moff = u32 (ptr r)
                /\ forall r', r' ∈ pre -> fp r' = tfp ->
                     capped_run ref_buf data r' < msize)).
Proof.
  induction chain as [|r next IH]; intros msize0 moff0 msize moff Hw H0; simpl in Hw.
  - inversion Hw; subst. split; [lia|]. split.
    + intros r Hr. inversion Hr.
    + left. split; reflexivity.
  - fold (run_at ref_buf data r) in Hw.
    destruct (Z.eqb_spec (fp r) tfp) as [Hfp|Hfp].
    + destruct (Z.gtb_spec (run_at ref_buf data r) msize0) as [Hgt|Hle].
      * destruct (Z.geb_spec (run_at ref_buf data r) 0x10000) as [Hbig|Hsmall].
        -- inversion Hw; subst msize moff. split; [lia|]. split.
           ++ intros r' _ _. unfold capped_run. lia.
           ++ right. split; [lia|]. exists [], r, next.
              split; [reflexivity|]. split; [exact Hfp|].
              split; [unfold capped_run; lia|]. split; [reflexivity|].
              intros r' Hr'. inversion Hr'.
        -- destruct (IH _ _ _ _ Hw ltac:(lia)) as (I1 & I2 & I3).
           split; [lia|]. split.
           ++ intros r' Hr' Hf'. apply elem_of_cons in Hr'. destruct Hr' as [->|Hr'].
              ** unfold capped_run. lia.
              ** apply I2; assumption.
           ++ right. split; [lia|].
              destruct I3 as [[E1 E2]|(Hlt & pre & r1 & post & Ec & Ef & Er & Em & Hp)].
              ** exists [], r, next. subst msize moff.
                 split; [reflexivity|]. split; [exact Hfp|].
                 split; [unfold capped_run; lia|]. split; [reflexivity|].
                 intros r' Hr'. inversion Hr'.
              ** exists (r :: pre), r1, post. subst next.
                 split; [reflexivity|]. split; [exact Ef|].
                 split; [exact Er|]. split; [exact Em|].
                 intros r' Hr' Hf'. apply elem_of_cons in Hr'. destruct Hr' as [->|Hr'].
                 --- unfold capped_run. lia.
                 --- apply Hp; assumption.
      * destruct (IH _ _ _ _ Hw H0) as (I1 & I2 & I3).
        split; [lia|]. split.
        -- intros r' Hr' Hf'. apply elem_of_cons in Hr'. destruct Hr' as [->|Hr'].
           ++ unfold capped_run. lia.
           ++ apply I2; assumption.
        -- destruct I3 as [E|(Hlt & pre & r1 & post & Ec & Ef & Er & Em & Hp)];
             [left; exact E|].
           right. split; [lia|]. exists (r :: pre), r1, post. subst next.
           split; [reflexivity|]. split; [exact Ef|].
           split; [exact Er|]. split; [exact Em|].
           intros r' Hr' Hf'. apply elem_of_cons in Hr'. destruct Hr' as [->|Hr'].
           ++ unfold capped_run. lia.
           ++ apply Hp; assumption.
    + destruct (IH _ _ _ _ Hw H0) as (I1 & I2 & I3).
      split; [lia|]. split.
      * intros r' Hr' Hf'. apply elem_of_cons in Hr'. destruct Hr' as [->|Hr'].
        -- contradiction.
        -- apply I2; assumption.
      * destruct I3 as [E|(Hlt & pre & r1 & post & Ec & Ef & Er & Em & Hp)];
          [left; exact E|].
        right. split; [lia|]. exists (r :: pre), r1, post. subst next.
        split; [reflexivity|]. split; [exact Ef|].
        split; [exact Er|]. split; [exact Em|].
        intros r' Hr' Hf'. apply elem_of_cons in Hr'. destruct Hr' as [->|Hr'].
        -- contradiction.
        -- apply Hp; assumption.
Qed.

End Walk.

Lemma sorted_app_le (pre : list bdrecord) (r : bdrecord) (post : list bdrecord) (r' : bdrecord) :
  StronglySorted Z.lt (map ptr (pre ++ r :: post)) ->
  r' ∈ r :: post -> ptr r <= ptr r'.
Proof.
  induction pre as [|p pre IH]; simpl; intros Hs Hin.
  - inversion Hs as [|? ? _ Hall]; subst.
    apply elem_of_cons in Hin. destruct Hin as [->|Hin]; [lia|].
    rewrite List.Forall_forall in Hall.
    assert (ptr r < ptr r'); [|lia].
    apply Hall. apply in_map. apply list_elem_of_In. exact Hin.
  - inversion Hs; subst. apply IH; assumption.
Qed.

(** C4, as stated, fails on a reference made of the same block twice: the
    chain lists offset 0 before offset 16, both records match the target over
    16 bytes, and the walk selects offset 0, not the later 16. *)
Lemma later_position_not_first :
  let R := Examples.blk_a ++ Examples.blk_a in
  let T := Examples.blk_a in
  let bdf := delta_prepare Zlib.adler32 R in
  let chain := bucket (fphash bdf) 2 in
  map ptr chain = [0; 16]
  /\ Forall (fun r => run_at R T r = 16) chain
  /\ find_match Zlib.adler32 bdf R T 0 = (16, 0)
  /\ ~ (forall r, r ∈ chain -> run_at R T r = 16 ->
          ptr r <= snd (find_match Zlib.adler32 bdf R T 0)).
Proof.
  assert (Hc : bucket (fphash (delta_prepare Zlib.adler32 (Examples.blk_a ++ Examples.blk_a))) 2
               = [ {| fp := 5439494; ptr := 0 |}; {| fp := 5439494; ptr := 16 |} ])
    by (vm_compute; reflexivity).
  cbv zeta. rewrite Hc.
  split; [reflexivity|]. split; [|split].
  - repeat constructor.
  - vm_compute. reflexivity.
  - intros H. specialize (H {| fp := 5439494; ptr := 16 |}).
    assert (Hf : find_match Zlib.adler32 (delta_prepare Zlib.adler32 (Examples.blk_a ++ Examples.blk_a))
              (Examples.blk_a ++ Examples.blk_a) Examples.blk_a 0 = (16, 0))
      by (vm_compute; reflexivity).
    rewrite Hf in H. simpl in H.
    assert (16 <= 0); [|lia].
    apply H; [|vm_compute; reflexivity].
    apply elem_of_cons. right. apply elem_of_cons. left. reflexivity.
Qed.

(** The chains rise in position, and the walk selects the first record that
    reaches the greatest capped length. *)
Lemma walk_selects (adler32 : Z -> list byte -> Z)
    (R T : list byte) (moff0 msize moff : Z) :
  len R < 2 ^ 32 ->
  find_match adler32 (delta_prepare adler32 R) R T moff0 = (msize, moff) ->
  0 < msize ->
  let bdf := delta_prepare adler32 R in
  let tfp := u32 (adler32 0 (take (Z.to_nat (Z.min (len T) BLK_SIZE)) T)) in
  let chain := bucket (fphash bdf) (HASH tfp (fphbits bdf)) in
  Forall (fun c => StronglySorted Z.lt (map ptr c)) (fphash bdf)
  /\ (exists r, r ∈ chain /\ fp r = tfp /\ ptr r = moff
               /\ capped_run R T r = msize)
  /\ (forall r, r ∈ chain -> fp r = tfp -> capped_run R T r <= msize)
  /\ (forall r, r ∈ chain -> fp r = tfp -> capped_run R T r = msize ->
        moff <= ptr r).
Proof.
  intros Hr Hf Hpos bdf tfp chain.
  pose proof (delta_prepare_ok adler32 R) as Hok. fold bdf in Hok.
  pose proof (delta_prepare_bucket_ok adler32 R (HASH tfp (fphbits bdf))) as Hb.
  fold bdf chain in Hb. destruct Hb as [Hs Hrange].
  unfold find_match in Hf. fold bdf tfp chain in Hf.
  destruct (walk_chain_spec R T tfp chain 0 moff0 msize moff Hf ltac:(lia))
    as (H1 & H2 & H3).
  destruct H3 as [[E _]|(_ & pre & r & post & Ec & Efp & Er & Em & Hpre)]; [lia|].
  assert (Hin : r ∈ chain).
  { rewrite Ec. apply elem_of_app. right. apply elem_of_cons. left. reflexivity. }
  assert (Hp : 0 <= ptr r < len R).
  { rewrite Forall_forall in Hrange. apply Hrange, Hin. }
  assert (Emoff : moff = ptr r) by (rewrite Em; apply u32_small; lia).
  split; [|split; [|split]].
  - eapply Forall_impl; [exact Hok|]. intros c [Hc _]. exact Hc.
  - exists r. repeat split; auto.
  - exact H2.
  - intros r' Hr' Hfp' Hrun'. rewrite Emoff.
    apply (sorted_app_le pre r post r'); [rewrite <- Ec; exact Hs|].
    rewrite Ec in Hr'. apply elem_of_app in Hr'. destruct Hr' as [Hr'|Hr']; [|exact Hr'].
    specialize (Hpre r' Hr' Hfp'). lia.
Qed.

(** C4, amended: in the index of [delta_prepare] the records of a chain
    stand in rising order of position, earlier positions first; the walk
    selects the greatest capped match length, and among the records that
    reach it the one at the earliest reference offset. *)
Theorem earlier_position_first (adler32 : Z -> list byte -> Z)
    (R T : list byte) (moff0 msize moff : Z) :
  len R < 2 ^ 32 ->
  find_match adler32 (delta_prepare adler32 R) R T moff0 = (msize, moff) ->
  0 < msize ->
  let bdf := delta_prepare adler32 R in
  let tfp := u32 (adler32 0 (take (Z.to_nat (Z.min (len T) BLK_SIZE)) T)) in
  let chain := bucket (fphash bdf) (HASH tfp (fphbits bdf)) in
  Forall (fun c => StronglySorted Z.lt (map ptr c)) (fphash bdf)
  /\ (exists r, r ∈ chain /\ fp r = tfp /\ ptr r = moff
               /\ capped_run R T r = msize)
  /\ (forall r, r ∈ chain -> fp r = tfp -> capped_run R T r <= msize)
  /\ (forall r, r ∈ chain -> fp r = tfp -> capped_run R T r = msize ->
        moff <= ptr r).
Proof. exact (walk_selects adler32 R T moff0 msize moff). Qed.

Lemma earlier_position_first_witness :
  let R := Examples.blk_a ++ Examples.blk_a in
  let T := Examples.blk_a in
  let bdf := delta_prepare Zlib.adler32 R in
  let tfp := u32 (Zlib.adler32 0 (take (Z.to_nat (Z.min (len T) BLK_SIZE)) T)) in
  let chain := bucket (fphash bdf) (HASH tfp (fphbits bdf)) in
  Forall (fun c => StronglySorted Z.lt (map ptr c)) (fphash bdf)
  /\ (exists r, r ∈ chain /\ fp r = tfp /\ ptr r = 0
               /\ capped_run R T r = 16)
  /\ (forall r, r ∈ chain -> fp r = tfp -> capped_run R T r <= 16)
  /\ (forall r, r ∈ chain -> fp r = tfp -> capped_run R T r = 16 ->
        0 <= ptr r).
Proof.
  apply (earlier_position_first Zlib.adler32
           (Examples.blk_a ++ Examples.blk_a) Examples.blk_a 0 16 0).
  - vm_compute. reflexivity.
  - vm_compute. reflexivity.
  - lia.
Defined.

(** ** Stores into the output buffer *)

Lemma bind_Done {A B} (f : A -> run B) (a : A) : (Done a ≫= f) = f a.
Proof. reflexivity. Qed.

Lemma bind_OutOfBounds {A B} (f : A -> run B) (i c : Z) :
  (OutOfBounds i c ≫= f) = OutOfBounds i c.
Proof. reflexivity. Qed.

Lemma ret_Done {A} (a : A) : (mret a : run A) = Done a.
Proof. reflexivity. Qed.

Lemma len_nonneg {A} (l : list A) : 0 <= len l.
Proof. unfold len. lia. Qed.

Lemma len_app {A} (l k : list A) : len (l ++ k) = len l + len k.
Proof. unfold len. rewrite length_app. lia. Qed.

Lemma len_cons {A} (x : A) (l : list A) : len (x :: l) = 1 + len l.
Proof. unfold len. simpl. lia. Qed.

Lemma len_nil {A} : len (@nil A) = 0.
Proof. reflexivity. Qed.

Lemma len_take {A} (l : list A) (n : Z) :
  0 <= n <= len l -> len (take (Z.to_nat n) l) = n.
Proof. unfold len. intros H. rewrite length_take. lia. Qed.

Lemma len_drop {A} (l : list A) (n : Z) :
  0 <= n <= len l -> len (drop (Z.to_nat n) l) = len l - n.
Proof. unfold len. intros H. rewrite length_drop. lia. Qed.

Lemma store_inv (out : list byte) (idx : Z) (v : byte) (out' : list byte) :
  store out idx v = Done out' ->
  0 <= idx < len out /\ out' = <[Z.to_nat idx := v]> out /\ len out' = len out.
Proof.
  unfold store. intros H.
  destruct (Z.leb_spec 0 idx); simpl in H; [|discriminate].
  destruct (Z.ltb_spec idx (len out)); simpl in H; [|discriminate].
  inversion H; subst. split; [lia|]. split; [reflexivity|].
  unfold len. rewrite length_insert. reflexivity.
Qed.

Lemma store_in_bounds (out : list byte) (idx : Z) (v : byte) :
  0 <= idx < len out -> store out idx v = Done (<[Z.to_nat idx := v]> out).
Proof.
  intros [H1 H2]. unfold store.
  destruct (Z.leb_spec 0 idx); [|lia].
  destruct (Z.ltb_spec idx (len out)); [|lia]. reflexivity.
Qed.

(** The outcomes of a store: done inside the buffer, out of bounds outside. *)
Lemma store_cases (out : list byte) (idx : Z) (v : byte) :
  (0 <= idx < len out /\ store out idx v = Done (<[Z.to_nat idx := v]> out))
  \/ (~ 0 <= idx < len out /\ store out idx v = OutOfBounds idx (len out)).
Proof.
  unfold store.
  destruct (Z.leb_spec 0 idx); simpl.
  - destruct (Z.ltb_spec idx (len out)); simpl.
    + left. split; [lia|reflexivity].
    + right. split; [lia|reflexivity].
  - right. split; [lia|reflexivity].
Qed.

(** A store at the end of the written part appends. *)
Lemma take_insert_end (out : list byte) (n : Z) (v : byte) :
  0 <= n < len out ->
  take (Z.to_nat (n + 1)) (<[Z.to_nat n := v]> out)
  = take (Z.to_nat n) out ++ [v].
Proof.
  unfold len. intros H.
  replace (Z.to_nat (n + 1)) with (S (Z.to_nat n)) by lia.
  rewrite (take_S_r _ _ v) by (apply list_lookup_insert_eq; lia).
  rewrite take_insert_ge by lia. reflexivity.
Qed.

(** Skipping a cell leaves whatever it holds in the written part. *)
Lemma take_skip (out : list byte) (n : Z) :
  0 <= n < len out ->
  exists x, take (Z.to_nat (n + 1)) out = take (Z.to_nat n) out ++ [x].
Proof.
  unfold len. intros H.
  destruct (lookup_lt_is_Some_2 out (Z.to_nat n)) as [x Hx]; [lia|].
  exists x. replace (Z.to_nat (n + 1)) with (S (Z.to_nat n)) by lia.
  apply take_S_r, Hx.
Qed.

(** A store into the written part replaces one cell of it. *)
Lemma take_insert_inside (out : list byte) (n : Z) (P Q : list byte)
    (x v : byte) :
  take (Z.to_nat n) out = P ++ x :: Q ->
  take (Z.to_nat n) (<[Z.to_nat (len P) := v]> out) = P ++ v :: Q.
Proof.
  intros H.
  assert (Hl : (length P < Z.to_nat n)%nat).
  { apply (f_equal length) in H. rewrite length_take, length_app in H.
    simpl in H. lia. }
  unfold len. rewrite Nat2Z.id.
  rewrite take_insert_lt by exact Hl. rewrite H.
  rewrite insert_app_r_alt by lia.
  replace (length P - length P)%nat with 0%nat by lia. reflexivity.
Qed.

Lemma take_resize_keep (out : list byte) (n m : Z) :
  0 <= n <= m ->
  take (Z.to_nat n) (resize (Z.to_nat m) x00 out) = take (Z.to_nat n) out
  \/ len out < n.
Proof.
  intros H. destruct (Z.lt_ge_cases (len out) n) as [Hlt|Hge]; [right; exact Hlt|].
  left. rewrite take_resize_le by lia.
  apply resize_le. unfold len in Hge. lia.
Qed.

Lemma len_resize (out : list byte) (m : Z) :
  0 <= m -> len (resize (Z.to_nat m) x00 out) = m.
Proof. intros H. unfold len. rewrite length_resize. lia. Qed.

(** ** The size header: what [put_size] writes and how it reads back *)

Lemma load_last (out : list byte) (p : Z) (P : list byte) (x : byte) :
  take (Z.to_nat p) out = P ++ [x] -> p = len P + 1 -> p <= len out ->
  len out < 2 ^ 32 ->
  load out (u32 (p - 1)) = Done x.
Proof.
  intros Ht Hp Hle Hcap.
  pose proof (len_nonneg P) as HP.
  rewrite u32_small by lia. unfold load.
  destruct (Z.leb_spec 0 (p - 1)); [|lia].
  destruct (Z.ltb_spec (p - 1) (len out)); [|lia]. simpl.
  assert (Hx : out !! Z.to_nat (p - 1) = Some x).
  { rewrite <- (lookup_take_lt out (Z.to_nat p)) by lia.
    rewrite Ht. replace (Z.to_nat (p - 1)) with (length P) by (unfold len in *; lia).
    apply list_lookup_middle. reflexivity. }
  rewrite Hx. reflexivity.
Qed.

Lemma size_bytes_loop_S (fuel : nat) (size : Z) :
  size_bytes_loop (S fuel) size
  = if Z.shiftr size 7 =? 0 then [u8 size]
    else u8 (Z.lor (byte_val (u8 size)) 0x80)
           :: size_bytes_loop fuel (Z.shiftr size 7).
Proof. reflexivity. Qed.

Lemma size_bytes_loop_nonempty (fuel : nat) (size : Z) :
  1 <= len (size_bytes_loop (S fuel) size).
Proof.
  simpl. destruct (Z.shiftr size 7 =? 0); rewrite len_cons;
    pose proof (len_nonneg (size_bytes_loop fuel (Z.shiftr size 7)));
    rewrite ?len_nil; lia.
Qed.

(** The loop of [put_size], entered with the byte of [prev] just written. *)
Lemma put_size_loop_spec (fuel : nat) :
  forall (prev : Z) (out : list byte) (p : Z) (P : list byte),
    0 <= prev ->
    take (Z.to_nat p) out = P ++ [u8 prev] -> p = len P + 1 -> p <= len out ->
    len out < 2 ^ 32 ->
    match put_size_loop fuel (Z.shiftr prev 7) out p with
    | Done (out', p') =>
        take (Z.to_nat p') out' = P ++ size_bytes_loop (S fuel) prev
        /\ len out' = len out
        /\ p' = len P + len (size_bytes_loop (S fuel) prev)
        /\ p' <= len out
    | ReturnNull => False
    | OutOfBounds _ _ => len out < len P + len (size_bytes_loop (S fuel) prev)
    | OutOfFuel => 2 ^ (7 * Z.of_nat fuel) <= Z.shiftr prev 7
    end.
Proof.
  induction fuel as [|fuel IH]; intros prev out p P Hprev Ht Hp Hle Hcap.
  - simpl. destruct (Z.eqb_spec (Z.shiftr prev 7) 0) as [E|E].
    + simpl. rewrite len_cons, len_nil. repeat split; try assumption; lia.
    + pose proof (Z.shiftr_nonneg prev 7). simpl. lia.
  - rewrite (size_bytes_loop_S (S fuel)). cbn [put_size_loop].
    destruct (Z.eqb_spec (Z.shiftr prev 7) 0) as [E|E].
    + rewrite ret_Done, len_cons, len_nil. repeat split; try assumption; lia.
    + set (s := Z.shiftr prev 7) in *.
      assert (Hs : 0 < s) by (pose proof (Z.shiftr_nonneg prev 7); unfold s; lia).
      rewrite (load_last out p P (u8 prev) Ht Hp Hle Hcap), bind_Done.
      pose proof (len_nonneg P) as HP.
      rewrite (u32_small (p - 1)) by lia.
      rewrite store_in_bounds, bind_Done by lia.
      set (b' := u8 (Z.lor (byte_val (u8 prev)) 128)).
      set (out1 := <[Z.to_nat (p - 1) := b']> out).
      assert (Hl1 : len out1 = len out)
        by (unfold out1, len; rewrite length_insert; reflexivity).
      assert (Ht1 : take (Z.to_nat p) out1 = P ++ [b']).
      { unfold out1. replace (p - 1) with (len P) by lia.
        apply (take_insert_inside out p P [] (u8 prev) b'). exact Ht. }
      rewrite len_cons.
      destruct (store_cases out1 p (u8 s)) as [[Hin Hst]|[Hout Hst]]; rewrite Hst.
      * rewrite bind_Done, u32_small by lia.
        set (out2 := <[Z.to_nat p := u8 s]> out1).
        assert (Hl2 : len out2 = len out)
          by (unfold out2, len; rewrite length_insert; exact Hl1).
        assert (Ht2 : take (Z.to_nat (p + 1)) out2 = (P ++ [b']) ++ [u8 s]).
        { unfold out2. rewrite take_insert_end by lia. rewrite Ht1. reflexivity. }
        specialize (IH s out2 (p + 1) (P ++ [b']) ltac:(lia) Ht2).
        rewrite len_app, len_cons, len_nil in IH.
        specialize (IH ltac:(lia) ltac:(lia) ltac:(lia)).
        fold s in IH.
        destruct (put_size_loop fuel (Z.shiftr s 7) out2 (p + 1)) as [[out' p']| |i c|].
        -- destruct IH as (I1 & I2 & I3 & I4).
           rewrite <- app_assoc in I1. cbn [app] in I1.
           repeat split; try assumption; lia.
        -- exact IH.
        -- lia.
        -- unfold s in IH |- *.
           replace (7 * Z.of_nat (S fuel)) with (7 * Z.of_nat fuel + 7) by lia.
           rewrite Z.pow_add_r by lia.
           rewrite (Z.shiftr_div_pow2 (Z.shiftr prev 7) 7) in IH by lia.
           assert (H128 : 0 < 2 ^ 7) by lia.
           pose proof (Z.mul_div_le (Z.shiftr prev 7) (2 ^ 7) H128).
           nia.
      * rewrite bind_OutOfBounds. pose proof (size_bytes_loop_nonempty fuel s). lia.
Qed.

Lemma put_size_spec (size : Z) (out : list byte) (p : Z) (P : list byte) :
  0 <= size ->
  take (Z.to_nat p) out = P -> p = len P -> p <= len out ->
  len out < 2 ^ 32 ->
  match put_size size out p with
  | Done (out', p') =>
      take (Z.to_nat p') out' = P ++ size_bytes size
      /\ len out' = len out
      /\ p' = len P + len (size_bytes size)
      /\ p' <= len out
  | ReturnNull => False
  | OutOfBounds _ _ => len out < len P + len (size_bytes size)
  | OutOfFuel => 2 ^ 70 <= Z.shiftr size 7
  end.
Proof.
  intros Hsize Ht Hp Hle Hcap. unfold put_size, size_bytes.
  pose proof (len_nonneg P) as HP.
  destruct (store_cases out p (u8 size)) as [[Hin Hst]|[Hout Hst]]; rewrite Hst.
  - rewrite bind_Done, u32_small by lia.
    set (out1 := <[Z.to_nat p := u8 size]> out).
    assert (Hl1 : len out1 = len out)
      by (unfold out1, len; rewrite length_insert; reflexivity).
    assert (Ht1 : take (Z.to_nat (p + 1)) out1 = P ++ [u8 size]).
    { unfold out1. rewrite take_insert_end by lia. rewrite Ht. reflexivity. }
    pose proof (put_size_loop_spec 10 size out1 (p + 1) P Hsize Ht1
                  ltac:(lia) ltac:(lia) ltac:(lia)) as H.
    destruct (put_size_loop 10 (Z.shiftr size 7) out1 (p + 1)) as [[out' p']| |i c|].
    + destruct H as (I1 & I2 & I3 & I4). repeat split; try assumption; lia.
    + exact H.
    + lia.
    + exact H.
  - rewrite bind_OutOfBounds. pose proof (size_bytes_loop_nonempty 10 size). lia.
Qed.

Lemma shiftr7_range (size : Z) (fuel : nat) :
  0 <= size < 2 ^ (7 * Z.of_nat (S fuel)) ->
  0 <= Z.shiftr size 7 < 2 ^ (7 * Z.of_nat fuel).
Proof.
  intros Hs. rewrite Z.shiftr_div_pow2 by lia.
  split; [apply Z.div_pos; lia|].
  apply Z.div_lt_upper_bound; [lia|].
  rewrite <- Z.pow_add_r by lia.
  replace (7 + 7 * Z.of_nat fuel) with (7 * Z.of_nat (S fuel)) by lia.
  lia.
Qed.

(** The length of a size in the header. *)
Lemma size_bytes_loop_len (fuel : nat) :
  forall size, 0 <= size < 2 ^ (7 * Z.of_nat fuel) ->
    len (size_bytes_loop fuel size) <= Z.of_nat fuel.
Proof.
  induction fuel as [|fuel IH]; intros size Hs.
  - simpl. rewrite len_nil. lia.
  - cbn [size_bytes_loop]. destruct (Z.eqb_spec (Z.shiftr size 7) 0).
    + rewrite len_cons, len_nil. lia.
    + rewrite len_cons.
      specialize (IH (Z.shiftr size 7) (shiftr7_range size fuel Hs)). lia.
Qed.

Lemma size_bytes_loop_more (fuel : nat) :
  forall size, 0 <= size < 2 ^ (7 * Z.of_nat (S fuel)) ->
    size_bytes_loop (S (S fuel)) size = size_bytes_loop (S fuel) size.
Proof.
  induction fuel as [|fuel IH]; intros size Hs.
  - pose proof (shiftr7_range size 0 Hs) as Hq. simpl in Hq.
    assert (E : Z.shiftr size 7 = 0) by lia.
    cbn [size_bytes_loop]. rewrite E. reflexivity.
  - rewrite (size_bytes_loop_S (S (S fuel)) size), (size_bytes_loop_S (S fuel) size).
    destruct (Z.eqb_spec (Z.shiftr size 7) 0); [reflexivity|].
    f_equal. apply IH, shiftr7_range, Hs.
Qed.

(** Sizes below [2 ^ 35] take at most five bytes. *)
Lemma size_bytes_len (size : Z) :
  0 <= size < 2 ^ 35 -> 1 <= len (size_bytes size) <= 5.
Proof.
  intros Hs. split; [apply size_bytes_loop_nonempty|].
  unfold size_bytes.
  assert (H5 : forall k, (4 <= k)%nat ->
            size_bytes_loop (S (S k)) size = size_bytes_loop (S k) size).
  { intros k Hk. apply size_bytes_loop_more.
    split; [lia|]. apply Z.lt_le_trans with (2 ^ 35); [lia|].
    apply Z.pow_le_mono_r; lia. }
  rewrite (H5 9%nat), (H5 8%nat), (H5 7%nat), (H5 6%nat), (H5 5%nat), (H5 4%nat) by lia.
  apply (size_bytes_loop_len 5). simpl. lia.
Qed.

(** *** Reading a size back *)

Lemma byte_continued (b : byte) :
  let c := byte_val (u8 (Z.lor (byte_val b) 0x80)) in
  Z.testbit c 7 = true /\ Z.land c 0x7f = byte_val b mod 128.
Proof. destruct b; split; reflexivity. Qed.

Lemma byte_final (b : byte) :
  byte_val b < 128 ->
  Z.testbit (byte_val b) 7 = false /\ Z.land (byte_val b) 0x7f = byte_val b.
Proof.
  destruct b; intros H; try (split; reflexivity); vm_compute in H; discriminate.
Qed.

Lemma get_size_bytes (fuel : nat) :
  forall (size : Z) (rest : list byte) (shift acc : Z),
    0 <= size < 2 ^ (7 * Z.of_nat (S fuel)) -> 0 <= shift ->
    Applier.get_size (size_bytes_loop (S fuel) size ++ rest) shift acc
    = Some (acc + size * 2 ^ shift, rest).
Proof.
  induction fuel as [|fuel IH]; intros size rest shift acc Hs Hsh.
  - simpl in Hs. assert (E : Z.shiftr size 7 = 0).
    { rewrite Z.shiftr_div_pow2 by lia. apply Z.div_small. lia. }
    rewrite size_bytes_loop_S, E. cbn [Z.eqb app Applier.get_size].
    assert (Hb : byte_val (u8 size) = size).
    { rewrite byte_val_u8. apply Z.mod_small. lia. }
    destruct (byte_final (u8 size)) as [H1 H2]; [rewrite Hb; lia|].
    rewrite H1, H2, Hb. reflexivity.
  - rewrite (size_bytes_loop_S (S fuel) size).
    pose proof (shiftr7_range size (S fuel) Hs) as Hq.
    rewrite Z.shiftr_div_pow2 in Hq |- * by lia.
    destruct (Z.eqb_spec (size / 2 ^ 7) 0) as [E|E].
    + assert (Hlt : size < 128).
      { destruct (Z.lt_ge_cases size 128) as [Hl|Hg]; [exact Hl|].
        assert (1 <= size / 2 ^ 7) by (apply Z.div_le_lower_bound; lia). lia. }
      cbn [app Applier.get_size].
      assert (Hb : byte_val (u8 size) = size).
      { rewrite byte_val_u8. apply Z.mod_small. lia. }
      destruct (byte_final (u8 size)) as [H1 H2]; [rewrite Hb; lia|].
      rewrite H1, H2, Hb. reflexivity.
    + cbn [app Applier.get_size].
      destruct (byte_continued (u8 size)) as [H1 H2].
      cbv zeta in H1, H2. rewrite H1, H2.
      rewrite IH by (try assumption; lia).
      rewrite byte_val_u8.
      f_equal. f_equal.
      rewrite Z.pow_add_r by lia.
      assert (Hm : size mod 256 mod 128 = size mod 128).
      { change 256 with (2 * 128). rewrite Z.mul_comm.
        rewrite Z.rem_mul_r by lia.
        rewrite Z.mul_comm, Z.mod_add by lia. apply Z.mod_mod. lia. }
      rewrite Hm.
      pose proof (Z.div_mod size 128 ltac:(lia)) as Hd.
      change (2 ^ 7) with 128. nia.
Qed.

Lemma get_size_header (size : Z) (rest : list byte) :
  0 <= size < 2 ^ 64 ->
  Applier.get_size (size_bytes size ++ rest) 0 0 = Some (size, rest).
Proof.
  intros Hs. unfold size_bytes.
  rewrite get_size_bytes; [|simpl; lia|lia].
  f_equal. f_equal. simpl. lia.
Qed.

(** ** The match search *)

Lemma match_run_prefix (csize : Z) (p1 p2 : list byte) :
  0 <= csize ->
  let n := match_run csize p1 p2 in
  0 <= n <= csize /\ n <= len p1 /\ n <= len p2
  /\ take (Z.to_nat n) p1 = take (Z.to_nat n) p2.
Proof.
  cbv zeta. revert csize p2.
  induction p1 as [|a p1 IH]; intros csize p2 Hc.
  - cbn [match_run]. pose proof (len_nonneg p2). change (len (@nil byte)) with 0.
    repeat split; try lia; reflexivity.
  - pose proof (len_nonneg p1). destruct p2 as [|b p2].
    + cbn [match_run]. change (len (@nil byte)) with 0. rewrite len_cons.
      repeat split; try lia.
    + pose proof (len_nonneg p2). cbn [match_run]. rewrite !len_cons.
      destruct (Z.eqb_spec csize 0) as [E|E]; cbn [negb andb].
      * repeat split; try lia.
      * destruct (Byte.eqb a b) eqn:Eab.
        -- apply Byte.byte_dec_bl in Eab. subst b.
           destruct (IH (csize - 1) p2 ltac:(lia)) as (H1 & H2 & H3 & H4).
           repeat split; try lia.
           replace (Z.to_nat (1 + match_run (csize - 1) p1 p2))
             with (S (Z.to_nat (match_run (csize - 1) p1 p2))) by lia.
           cbn [take]. rewrite H4. reflexivity.
        -- repeat split; try lia.
Qed.

Lemma run_at_bounds (ref_buf data : list byte) (r : bdrecord) :
  0 <= run_at ref_buf data r <= len data.
Proof.
  unfold run_at.
  set (c0 := u32 (len ref_buf - ptr r)).
  assert (H0 : 0 <= c0) by apply u32_range.
  pose proof (len_nonneg data) as Hd.
  destruct (Z.gtb_spec c0 (len data)).
  - destruct (match_run_prefix (len data) (drop (Z.to_nat (ptr r)) ref_buf) data)
      as (M1 & _); lia.
  - destruct (match_run_prefix c0 (drop (Z.to_nat (ptr r)) ref_buf) data)
      as (M1 & _); lia.
Qed.

Lemma run_at_sound (ref_buf data : list byte) (r : bdrecord) :
  0 <= ptr r < len ref_buf -> len ref_buf < 2 ^ 32 ->
  let n := run_at ref_buf data r in
  ptr r + n <= len ref_buf
  /\ take (Z.to_nat n) (drop (Z.to_nat (ptr r)) ref_buf)
     = take (Z.to_nat n) data.
Proof.
  intros Hp Hr. unfold run_at.
  rewrite u32_small by lia.
  pose proof (len_nonneg data) as Hd.
  destruct (Z.gtb_spec (len ref_buf - ptr r) (len data)).
  - destruct (match_run_prefix (len data) (drop (Z.to_nat (ptr r)) ref_buf) data)
      as (M1 & M2 & M3 & M4); [lia|].
    split; [lia | exact M4].
  - destruct (match_run_prefix (len ref_buf - ptr r) (drop (Z.to_nat (ptr r)) ref_buf) data)
      as (M1 & M2 & M3 & M4); [lia|].
    split; [lia | exact M4].
Qed.

Section MatchSearch.
Variable adler32 : Z -> list byte -> Z.

(** Whatever the index holds, a match is no longer than [0x10000] bytes nor
    than what is left of the target. *)
Lemma find_match_size (bdf : bdfile) (ref_buf data : list byte)
    (moff0 msize moff : Z) :
  find_match adler32 bdf ref_buf data moff0 = (msize, moff) ->
  0 <= msize <= 0x10000 /\ msize <= len data.
Proof.
  unfold find_match. intros Hf.
  destruct (walk_chain_spec _ _ _ _ _ _ _ _ Hf ltac:(lia)) as (H1 & H2 & H3).
  split; [lia|].
  destruct H3 as [[E _]|(_ & pre & r & post & _ & _ & Er & _)].
  - pose proof (len_nonneg data). lia.
  - pose proof (run_at_bounds ref_buf data r). unfold capped_run in Er. lia.
Qed.

(** With the index of the reference, a match names bytes of the reference
    that equal the next bytes of the target. *)
Lemma find_match_sound (ref_buf data : list byte) (moff0 msize moff : Z) :
  len ref_buf < 2 ^ 32 ->
  find_match adler32 (delta_prepare adler32 ref_buf) ref_buf data moff0
    = (msize, moff) ->
  0 < msize ->
  0 <= moff /\ moff + msize <= len ref_buf
  /\ take (Z.to_nat msize) (drop (Z.to_nat moff) ref_buf)
     = take (Z.to_nat msize) data.
Proof.
  intros Hr Hf Hpos.
  pose proof (walk_selects adler32 ref_buf data moff0 msize moff Hr Hf Hpos)
    as (_ & (r & Hin & _ & Hptr & Hrun) & _).
  cbv zeta in Hin.
  pose proof (delta_prepare_bucket_ok adler32 ref_buf
               (HASH (u32 (adler32 0 (take (Z.to_nat (Z.min (len data) BLK_SIZE)) data)))
                     (fphbits (delta_prepare adler32 ref_buf)))) as [_ Hrange].
  rewrite Forall_forall in Hrange. specialize (Hrange r Hin).
  destruct (run_at_sound ref_buf data r ltac:(lia) Hr) as [H1 H2].
  cbv zeta in H1, H2. unfold capped_run in Hrun.
  rewrite <- Hptr. split; [lia|]. split; [lia|].
  assert (Hle : (Z.to_nat msize <= Z.to_nat (run_at ref_buf data r))%nat) by lia.
  rewrite <- (Nat.min_l _ _ Hle), <- !take_take, H2. reflexivity.
Qed.

End MatchSearch.

(** ** Opcodes read back *)

Lemma bind_Some {A B} (f : A -> option B) (a : A) : (Some a ≫= f) = f a.
Proof. reflexivity. Qed.

Lemma copy_cmd_bits (off size : Z) :
  let c := byte_val (u8 (copy_cmd off size)) in
  Z.testbit c 7 = true
  /\ Z.testbit c 0 = negb (Z.land off 0xff =? 0)
  /\ Z.testbit c 1 = negb (Z.land (Z.shiftr off 8) 0xff =? 0)
  /\ Z.testbit c 2 = negb (Z.land (Z.shiftr (Z.shiftr off 8) 8) 0xff =? 0)
  /\ Z.testbit c 3
     = negb (Z.land (Z.shiftr (Z.shiftr (Z.shiftr off 8) 8) 8) 0xff =? 0)
  /\ Z.testbit c 4 = negb (Z.land size 0xff =? 0)
  /\ Z.testbit c 5 = negb (Z.land (Z.shiftr size 8) 0xff =? 0).
Proof.
  unfold copy_cmd, opt_flag.
  destruct (Z.land off 0xff =? 0);
  destruct (Z.land (Z.shiftr off 8) 0xff =? 0);
  destruct (Z.land (Z.shiftr (Z.shiftr off 8) 8) 0xff =? 0);
  destruct (Z.land (Z.shiftr (Z.shiftr (Z.shiftr off 8) 8) 8) 0xff =? 0);
  destruct (Z.land size 0xff =? 0);
  destruct (Z.land (Z.shiftr size 8) 0xff =? 0);
  vm_compute; repeat split; reflexivity.
Qed.

Lemma get_field_opt (cmd bit v : Z) (rest : list byte) :
  Z.testbit cmd bit = negb (Z.land v 0xff =? 0) ->
  Applier.get_field cmd bit (opt_byte v ++ rest) = Some (v mod 256, rest).
Proof.
  intros Hb. unfold Applier.get_field, opt_byte. rewrite Hb.
  rewrite land_ff. destruct (Z.eqb_spec (v mod 256) 0) as [E|E]; simpl.
  - rewrite E. reflexivity.
  - rewrite byte_val_u8. reflexivity.
Qed.

Lemma get_copy_fields (off size : Z) (rest : list byte) :
  0 <= off < 2 ^ 32 -> 1 <= size <= 0x10000 ->
  Applier.get_copy (byte_val (u8 (copy_cmd off size)))
    (copy_fields off size ++ rest)
  = Some (off, size, rest).
Proof.
  intros Hoff Hsize.
  destruct (copy_cmd_bits off size) as (_ & B0 & B1 & B2 & B3 & B4 & B5).
  cbv zeta in B0, B1, B2, B3, B4, B5.
  unfold Applier.get_copy, copy_fields. rewrite <- !app_assoc.
  rewrite (get_field_opt _ 0 _ _ B0), bind_Some. cbv beta iota.
  rewrite (get_field_opt _ 1 _ _ B1), bind_Some. cbv beta iota.
  rewrite (get_field_opt _ 2 _ _ B2), bind_Some. cbv beta iota.
  rewrite (get_field_opt _ 3 _ _ B3), bind_Some. cbv beta iota.
  rewrite (get_field_opt _ 4 _ _ B4), bind_Some. cbv beta iota.
  rewrite (get_field_opt _ 5 _ _ B5), bind_Some. cbv beta iota zeta.
  rewrite !Z.shiftr_div_pow2 by lia.
  change (2 ^ 8) with 256. change (2 ^ 16) with 65536. change (2 ^ 24) with 16777216.
  assert (Eoff : off mod 256 + off / 256 mod 256 * 256
                 + off / 256 / 256 mod 256 * 65536
                 + off / 256 / 256 / 256 mod 256 * 16777216 = off).
  { change (2 ^ 32) with 4294967296 in Hoff. Z.div_mod_to_equations. lia. }
  rewrite Eoff.
  destruct (Z.eq_dec size 0x10000) as [->|Hne].
  - reflexivity.
  - assert (Esize : size mod 256 + size / 256 mod 256 * 256 = size).
    { Z.div_mod_to_equations. lia. }
    rewrite Esize. destruct (Z.eqb_spec size 0); [lia|reflexivity].
Qed.

Lemma ser_op_nonempty (o : op) : (1 <= length (ser_op o))%nat.
Proof. destruct o; simpl; lia. Qed.

Lemma ser_ops_cons (o : op) (ops : list op) :
  ser_ops (o :: ops) = ser_op o ++ ser_ops ops.
Proof. reflexivity. Qed.

Lemma ser_ops_app (ops1 ops2 : list op) :
  ser_ops (ops1 ++ ops2) = ser_ops ops1 ++ ser_ops ops2.
Proof. unfold ser_ops. rewrite map_app, concat_app. reflexivity. Qed.

Lemma ser_ops_length (ops : list op) : (length ops <= length (ser_ops ops))%nat.
Proof.
  induction ops as [|o ops IH]; simpl; [lia|].
  rewrite ser_ops_cons, length_app. pose proof (ser_op_nonempty o). lia.
Qed.

Lemma parse_ser_ops (ref_buf : list byte) (ops : list op) :
  len ref_buf < 2 ^ 32 -> Forall (op_ok ref_buf) ops ->
  forall fuel, (length ops <= fuel)%nat ->
    Applier.parse_ops fuel (ser_ops ops) = Some ops.
Proof.
  intros Hr. induction 1 as [|o ops Ho Hops IH]; intros fuel Hfuel.
  - destruct fuel; reflexivity.
  - destruct fuel as [|fuel]; [simpl in Hfuel; lia|].
    simpl in Hfuel. rewrite ser_ops_cons.
    destruct o as [lits|off size]; simpl in Ho.
    + cbn [ser_op app Applier.parse_ops].
      assert (Hb : byte_val (u8 (len lits)) = len lits).
      { rewrite byte_val_u8. apply Z.mod_small. lia. }
      destruct (byte_final (u8 (len lits))) as [H7 _]; [rewrite Hb; lia|].
      cbv zeta. rewrite H7, Hb.
      destruct (Z.eqb_spec (len lits) 0); [lia|].
      rewrite len_app. pose proof (len_nonneg (ser_ops ops)).
      destruct (Z.leb_spec (len lits) (len lits + len (ser_ops ops))); [|lia].
      unfold len at 1 2. rewrite Nat2Z.id.
      rewrite drop_app_length, take_app_length.
      rewrite IH by lia. reflexivity.
    + cbn [ser_op app Applier.parse_ops]. cbv zeta.
      destruct (copy_cmd_bits off size) as (B7 & _). cbv zeta in B7. rewrite B7.
      pose proof (len_nonneg ref_buf).
      rewrite get_copy_fields by lia. rewrite bind_Some. cbv beta iota.
      rewrite IH by lia. reflexivity.
Qed.

Lemma apply_ops_app (ref_buf : list byte) (ops1 ops2 : list op) (a b : list byte) :
  Applier.apply_ops ref_buf ops1 = Some a ->
  Applier.apply_ops ref_buf ops2 = Some b ->
  Applier.apply_ops ref_buf (ops1 ++ ops2) = Some (a ++ b).
Proof.
  revert a. induction ops1 as [|o ops1 IH]; intros a H1 H2; simpl in *.
  - inversion H1; subst. exact H2.
  - destruct (Applier.apply_op ref_buf o) as [x|]; [|discriminate].
    rewrite bind_Some in H1 |- *.
    destruct (Applier.apply_ops ref_buf ops1) as [y|]; [|discriminate].
    rewrite bind_Some in H1. inversion H1; subst.
    rewrite (IH y eq_refl H2), bind_Some, app_assoc. reflexivity.
Qed.

Lemma nil_short : len (@nil byte) < 0x7f.
Proof. reflexivity. Qed.

Lemma flush_ok (ref_buf lits : list byte) :
  len lits < 0x7f ->
  Forall (op_ok ref_buf) (flush lits)
  /\ Applier.apply_ops ref_buf (flush lits) = Some lits.
Proof.
  intros Hl. destruct lits as [|l lits]; simpl.
  - split; [constructor | reflexivity].
  - split.
    + constructor; [|constructor]. simpl. rewrite len_cons in *.
      pose proof (len_nonneg lits). lia.
    + rewrite app_nil_r. reflexivity.
Qed.

(** ** The opcodes of the encoder rebuild the target *)

Section OpsSound.
Variable adler32 : Z -> list byte -> Z.
Variable ref_buf : list byte.
Hypothesis ref_range : len ref_buf < 2 ^ 32.

Lemma insert_path_false (msize moff : Z) :
  insert_path msize moff = false ->
  msize <> 0 /\ COPYOP_SIZE moff msize <= msize.
Proof.
  unfold insert_path. intros H. apply orb_false_iff in H. destruct H as [H1 H2].
  apply Z.eqb_neq in H1. apply Z.ltb_ge in H2. split; assumption.
Qed.

Lemma ops_loop_sound (fuel : nat) :
  forall (moff : Z) (lits data : list byte),
    (length data <= fuel)%nat -> len lits < 0x7f ->
    let ops := ops_loop adler32 fuel (delta_prepare adler32 ref_buf) ref_buf
                 moff lits data in
    Forall (op_ok ref_buf) ops
    /\ Applier.apply_ops ref_buf ops = Some (lits ++ data).
Proof.
  induction fuel as [|fuel IH]; intros moff lits data Hfuel Hl.
  - destruct data; [|simpl in Hfuel; lia]. simpl.
    rewrite app_nil_r. apply flush_ok, Hl.
  - destruct data as [|b rest].
    + simpl. rewrite app_nil_r. apply flush_ok, Hl.
    + cbn [ops_loop]. cbv zeta.
      destruct (find_match adler32 (delta_prepare adler32 ref_buf) ref_buf
                  (b :: rest) moff) as [msize moff'] eqn:Hf.
      simpl in Hfuel.
      destruct (insert_path msize moff') eqn:Hpath.
      * destruct (Z.eqb_spec (len (lits ++ [b])) 0x7f) as [E|E].
        -- destruct (IH moff' [] rest ltac:(lia) nil_short)
             as [I1 I2].
           split.
           ++ constructor; [simpl; lia | exact I1].
           ++ cbn [Applier.apply_ops Applier.apply_op]. rewrite bind_Some.
              cbv zeta in I2. rewrite I2, bind_Some. simpl.
              rewrite <- app_assoc. reflexivity.
        -- assert (Hl' : len (lits ++ [b]) < 0x7f).
           { rewrite len_app, len_cons in *. change (len (@nil byte)) with 0 in *. lia. }
           destruct (IH moff' (lits ++ [b]) rest ltac:(lia) Hl') as [I1 I2].
           split; [exact I1|]. cbv zeta in I2. rewrite I2.
           rewrite <- app_assoc. reflexivity.
      * destruct (insert_path_false _ _ Hpath) as [Hnz Hcost].
        destruct (find_match_size adler32 _ _ _ _ _ _ Hf) as [Hms Hmd].
        destruct (find_match_sound adler32 _ _ _ _ _ ref_range Hf ltac:(lia))
          as (Hm0 & Hm1 & Hm2).
        destruct (flush_ok ref_buf lits Hl) as [F1 F2].
        assert (Hdrop : (length (drop (Z.to_nat msize) (b :: rest)) <= fuel)%nat).
        { rewrite length_drop. simpl. lia. }
        destruct (IH (moff_after moff') [] (drop (Z.to_nat msize) (b :: rest))
                    Hdrop nil_short) as [I1 I2].
        split.
        -- apply Forall_app. split; [exact F1|].
           constructor; [simpl; lia | exact I1].
        -- apply (apply_ops_app ref_buf _ _ lits _ F2).
           cbn [Applier.apply_ops Applier.apply_op].
           destruct (Z.leb_spec 0 moff'); [|lia].
           destruct (Z.leb_spec (moff' + msize) (len ref_buf)); [|lia].
           cbn [andb]. rewrite bind_Some. cbv zeta in I2. rewrite I2, bind_Some.
           rewrite Hm2. simpl app at 2. rewrite take_drop. reflexivity.
Qed.

Lemma delta_ops_sound (to_buf : list byte) :
  Forall (op_ok ref_buf) (delta_ops adler32 ref_buf to_buf)
  /\ Applier.apply_ops ref_buf (delta_ops adler32 ref_buf to_buf) = Some to_buf.
Proof.
  unfold delta_ops.
  apply (ops_loop_sound (length to_buf) 0 [] to_buf); [lia | exact nil_short].
Qed.

(** The applier on the header and the opcodes of the encoder. *)
Lemma patch_delta_ops (to_buf : list byte) :
  len to_buf < 2 ^ 64 ->
  Applier.patch_delta ref_buf
    (header ref_buf to_buf ++ ser_ops (delta_ops adler32 ref_buf to_buf))
  = Some to_buf.
Proof.
  intros Ht. destruct (delta_ops_sound to_buf) as [H1 H2].
  pose proof (len_nonneg ref_buf). pose proof (len_nonneg to_buf).
  unfold Applier.patch_delta, header. rewrite <- !app_assoc.
  rewrite get_size_header by lia. rewrite bind_Some. cbv beta iota.
  rewrite get_size_header by lia. rewrite bind_Some. cbv beta iota.
  rewrite Z.eqb_refl.
  rewrite (parse_ser_ops ref_buf _ ref_range H1) by apply ser_ops_length.
  rewrite bind_Some, H2, bind_Some, Z.eqb_refl. reflexivity.
Qed.

End OpsSound.

(** ** The written part of the buffer *)

Lemma written_store (P out : list byte) (pos : Z) (v : byte) :
  written P out pos ->
  match store out pos v with
  | Done out' => written (P ++ [v]) out' (pos + 1) /\ len out' = len out
  | OutOfBounds _ _ => len out <= len P
  | _ => False
  end.
Proof.
  intros (Ht & Hp & Hle). pose proof (len_nonneg P) as HP.
  destruct (store_cases out pos v) as [[Hin Hst]|[Hout Hst]]; rewrite Hst.
  - assert (Hl : len (<[Z.to_nat pos := v]> out) = len out)
      by (unfold len; rewrite length_insert; reflexivity).
    split; [|exact Hl]. split; [|split].
    + rewrite take_insert_end by lia. rewrite Ht. reflexivity.
    + rewrite len_app, len_cons. change (len (@nil byte)) with 0. lia.
    + lia.
  - lia.
Qed.

Lemma written_skip (P out : list byte) (pos : Z) :
  written P out pos -> pos < len out ->
  exists x, written (P ++ [x]) out (pos + 1).
Proof.
  intros (Ht & Hp & Hle) Hlt. pose proof (len_nonneg P) as HP.
  destruct (take_skip out pos ltac:(lia)) as [x Hx].
  exists x. split; [|split].
  - rewrite Hx, Ht. reflexivity.
  - rewrite len_app, len_cons. change (len (@nil byte)) with 0. lia.
  - lia.
Qed.

Lemma written_backfill (P Q out : list byte) (pos : Z) (x v : byte) :
  written (P ++ x :: Q) out pos ->
  written (P ++ v :: Q) (<[Z.to_nat (len P) := v]> out) pos.
Proof.
  intros (Ht & Hp & Hle). split; [|split].
  - apply (take_insert_inside out pos P Q x v Ht).
  - rewrite Hp. rewrite !len_app, !len_cons. reflexivity.
  - unfold len in *. rewrite length_insert. exact Hle.
Qed.

Lemma written_resize (P out : list byte) (pos m : Z) :
  written P out pos -> pos <= m ->
  written P (resize (Z.to_nat m) x00 out) pos.
Proof.
  intros (Ht & Hp & Hle) Hm. pose proof (len_nonneg P) as HP.
  split; [|split].
  - destruct (take_resize_keep out pos m ltac:(lia)) as [E|E]; [|lia].
    rewrite E. exact Ht.
  - exact Hp.
  - rewrite len_resize by lia. exact Hm.
Qed.

Lemma written_len (P out : list byte) (pos : Z) :
  written P out pos -> pos = len P /\ 0 <= pos <= len out.
Proof. intros (Ht & Hp & Hle). pose proof (len_nonneg P). lia. Qed.

Lemma take_written (P out : list byte) (pos : Z) :
  0 <= pos <= len out -> take (Z.to_nat pos) out = P -> written P out pos.
Proof.
  intros Hr Ht. split; [exact Ht|]. split; [|lia].
  rewrite <- Ht. rewrite len_take by lia. reflexivity.
Qed.

Lemma len_opt_byte (v : Z) : len (opt_byte v) = nz (Z.land v 0xff).
Proof. unfold opt_byte, nz. destruct (Z.land v 0xff =? 0); reflexivity. Qed.

Ltac len_norm_in H :=
  rewrite ?len_app, ?len_cons, ?len_opt_byte in H;
  change (len (@nil byte)) with 0 in H.

Lemma put_if_spec (v flag : Z) (out : list byte) (pos i lo : Z)
    (P : list byte) :
  written_from lo P out pos -> len out < 2 ^ 32 -> 0 <= lo ->
  match put_if v flag (out, pos, i) with
  | Done (out', pos', i') =>
      written_from lo (P ++ opt_byte v) out' pos' /\ len out' = len out
      /\ i' = Z.lor i (opt_flag v flag)
  | OutOfBounds _ _ => len out <= len P
  | _ => False
  end.
Proof.
  intros (Hp & Hlo & Hmax & Ht) Hcap Hlo0. unfold put_if, opt_byte, opt_flag.
  destruct (Z.land v 0xff =? 0).
  - rewrite ret_Done, app_nil_r, Z.lor_0_r. repeat split; assumption.
  - destruct (store_cases out pos (u8 v)) as [[Hin Hst]|[Hout Hst]]; rewrite Hst.
    + rewrite bind_Done, ret_Done. rewrite u32_small by lia.
      assert (Hl : len (<[Z.to_nat pos := u8 v]> out) = len out)
        by (unfold len; rewrite length_insert; reflexivity).
      split; [|split; [exact Hl | reflexivity]].
      split; [|split; [|split]].
      * rewrite len_app, len_cons. change (len (@nil byte)) with 0. lia.
      * lia.
      * rewrite Hl. lia.
      * intros _. rewrite take_insert_end by lia. rewrite Ht by lia. reflexivity.
    + rewrite bind_OutOfBounds. lia.
Qed.

Lemma COPYOP_SIZE_fields (off size : Z) :
  COPYOP_SIZE off size = 1 + len (copy_fields off size).
Proof.
  unfold COPYOP_SIZE, copy_fields. rewrite !len_app, !len_opt_byte.
  change 0xff00 with (Z.shiftl 0xff 8).
  change 0xff0000 with (Z.shiftl 0xff 16).
  change 0xff000000 with (Z.shiftl 0xff 24).
  rewrite !nz_mask by lia. rewrite !Z.shiftr_shiftr by lia.
  change (8 + 8) with 16. change (16 + 8) with 24. lia.
Qed.

Lemma copy_at_least_2 (moff msize : Z) :
  1 <= msize -> COPYOP_SIZE moff msize <= msize -> 2 <= msize.
Proof.
  intros H1 Hc. destruct (Z.eq_dec msize 1) as [->|]; [|lia].
  exfalso. unfold COPYOP_SIZE in Hc.
  pose proof (nz_range (Z.land moff 0xff)). pose proof (nz_range (Z.land moff 0xff00)).
  pose proof (nz_range (Z.land moff 0xff0000)).
  pose proof (nz_range (Z.land moff 0xff000000)).
  change (nz (Z.land 1 0xff)) with 1 in Hc. change (nz (Z.land 1 0xff00)) with 0 in Hc.
  lia.
Qed.

(** ** The literal path *)

Section Refinement.
Variable adler32 : Z -> list byte -> Z.
Variables (max_size h n : Z).
Hypothesis max_size_nonneg : 0 <= max_size.
Hypothesis h_range : 0 <= h <= 20.
Hypothesis n_range : 0 <= n <= 2 ^ 29.

Lemma rep_written (st : enc_state) (C lits : list byte) :
  Rep max_size h n st C lits ->
  exists x, written (C ++ pending x lits) (out st) (outpos st).
Proof.
  intros HR. destruct (rep_out _ _ _ _ _ _ HR) as [x Hx]. exists x.
  apply take_written; [|exact Hx].
  rewrite (rep_len _ _ _ _ _ _ HR). apply (rep_pos _ _ _ _ _ _ HR).
Qed.

Lemma emit_insert_spec (st : enc_state) (C lits : list byte) (moff' : Z)
    (b : byte) (rest : list byte) :
  Rep max_size h n st C lits -> data st = b :: rest ->
  match emit_insert st moff' b rest with
  | Done st' =>
      (if len (lits ++ [b]) =? 0x7f
       then Rep max_size h n st' (C ++ ser_op (Insert (lits ++ [b]))) []
       else Rep max_size h n st' C (lits ++ [b]))
      /\ moff st' = moff' /\ data st' = rest
  | OutOfBounds _ _ => ~ Safe st
  | _ => False
  end.
Proof.
  intros HR Hd. destruct (rep_written st C lits HR) as [x Hw].
  destruct HR as [Hlen Hcap Hmax Hmin Hpos [Hins Hshort] _ Hdata Hsize].
  rewrite Hd, len_cons in Hdata, Hsize. pose proof (len_nonneg rest) as Hrest.
  unfold emit_insert, Safe.
  destruct lits as [|l ls].
  - (* a new run: the length byte is reserved first *)
    change (len (@nil byte)) with 0 in Hins. rewrite Hins in Hsize |- *.
    cbn [Z.eqb pending] in *. rewrite app_nil_r in Hw.
    rewrite (u32_small (outpos st + 1)) by lia.
    destruct (store_cases (out st) (outpos st + 1) b) as [[Hin Hst]|[Hout Hst]];
      rewrite Hst; [|rewrite bind_OutOfBounds; lia].
    rewrite bind_Done. rewrite (u32_small (outpos st + 1 + 1)) by lia.
    change (u32 (0 + 1)) with 1. change (1 =? 127) with false. cbv iota.
    rewrite ret_Done. cbn [app]. change (len [b] =? 127) with false. cbv iota.
    destruct (written_skip C (out st) (outpos st) Hw ltac:(lia)) as [x' Hw'].
    split; [|split; reflexivity].
    constructor; cbn [out outsize outpos inscnt moff data]; try assumption.
    + unfold len. rewrite length_insert. exact Hlen.
    + lia.
    + change (len [b]) with 1. split; [reflexivity|lia].
    + exists x'. cbn [pending].
      destruct Hw' as (Ht' & _ & _).
      replace (outpos st + 1 + 1) with ((outpos st + 1) + 1) by lia.
      rewrite take_insert_end by lia. rewrite Ht', <- app_assoc. reflexivity.
    + lia.
    + change (1 =? 0) with false. cbv iota. lia.
  - (* the run goes on *)
    assert (Hk : 1 <= inscnt st).
    { rewrite Hins, len_cons. pose proof (len_nonneg ls). lia. }
    destruct (Z.eqb_spec (inscnt st) 0) as [E|_]; [lia|].
    cbn [pending] in Hw.
    pose proof (written_store _ _ _ b Hw) as Hs.
    destruct (written_len _ _ _ Hw) as [Hwl _].
    rewrite len_app, len_cons in Hwl. rewrite <- Hins in Hwl.
    destruct (store (out st) (outpos st) b) as [out1| |? ?|];
      [|exact Hs|rewrite bind_OutOfBounds; rewrite len_app, len_cons, <- Hins in Hs; lia
       |exact Hs].
    destruct Hs as [Hw1 Hl1]. rewrite bind_Done.
    destruct (written_len _ _ _ Hw1) as [_ Hr1].
    rewrite (u32_small (outpos st + 1)) by lia.
    rewrite (u32_small (inscnt st + 1)) by lia.
    assert (Hlits : len ((l :: ls) ++ [b]) = inscnt st + 1).
    { rewrite len_app, <- Hins, len_cons. change (len (@nil byte)) with 0. lia. }
    rewrite Hlits.
    destruct (Z.eqb_spec (inscnt st + 1) 127) as [E|E].
    + (* the run is full: its length byte is filled in *)
      replace (outpos st + 1 - (inscnt st + 1) - 1) with (len C) by lia.
      pose proof (len_nonneg C) as HC.
      rewrite u32_small by lia.
      rewrite <- app_assoc in Hw1. cbn [app] in Hw1.
      pose proof (written_backfill C _ out1 _ x (u8 (inscnt st + 1)) Hw1) as Hw2.
      rewrite store_in_bounds by lia. rewrite bind_Done, ret_Done.
      split; [|split; reflexivity].
      constructor; cbn [out outsize outpos inscnt moff data]; try assumption.
      * unfold len in *. rewrite length_insert. lia.
      * lia.
      * split; [reflexivity | exact nil_short].
      * exists x. cbn [pending ser_op]. rewrite app_nil_r.
        rewrite Hlits. cbn [app]. apply Hw2.
      * lia.
      * change (0 =? 0) with true. cbv iota. lia.
    + rewrite ret_Done. split; [|split; reflexivity].
      constructor; cbn [out outsize outpos inscnt moff data]; try assumption.
      * lia.
      * lia.
      * split; [symmetry; exact Hlits | rewrite Hlits; lia].
      * exists x. cbn [app pending]. rewrite <- app_assoc in Hw1. apply Hw1.
      * lia.
      * destruct (Z.eqb_spec (inscnt st + 1) 0); [lia|]. lia.
Qed.

(** *** The pending length byte *)

Lemma close_insert_spec (st : enc_state) (C lits : list byte) :
  Rep max_size h n st C lits ->
  exists out0,
    close_insert st = Done out0
    /\ written (C ++ ser_ops (flush lits)) out0 (outpos st)
    /\ len out0 = len (out st).
Proof.
  intros HR. destruct (rep_written st C lits HR) as [x Hw].
  destruct HR as [Hlen Hcap Hmax Hmin Hpos [Hins Hshort] _ Hdata Hsize].
  unfold close_insert. destruct lits as [|l ls].
  - change (len (@nil byte)) with 0 in Hins. rewrite Hins.
    exists (out st). split; [reflexivity|]. split; [|reflexivity].
    cbn [pending flush ser_ops map concat] in *. exact Hw.
  - assert (Hk : 1 <= inscnt st).
    { rewrite Hins, len_cons. pose proof (len_nonneg ls). lia. }
    destruct (Z.eqb_spec (inscnt st) 0) as [E|_]; [lia|].
    cbn [pending] in Hw.
    destruct (written_len _ _ _ Hw) as [Hwl Hwr].
    rewrite len_app, !len_cons in Hwl.
    pose proof Hins as Hins0.
    rewrite len_cons in Hins. pose proof (len_nonneg C) as HC.
    replace (outpos st - inscnt st - 1) with (len C) by lia.
    rewrite u32_small by lia. rewrite store_in_bounds by lia.
    eexists. split; [reflexivity|]. split.
    + cbn [flush ser_ops map concat ser_op]. rewrite app_nil_r.
      rewrite Hins0.
      apply (written_backfill C (l :: ls) (out st) (outpos st) x). exact Hw.
    + unfold len. rewrite length_insert. reflexivity.
Qed.

(** ** The copy path *)

Lemma emit_copy_spec (st : enc_state) (C lits : list byte) (msize moff' : Z) :
  Rep max_size h n st C lits ->
  1 <= msize <= 0x10000 -> msize <= len (data st) ->
  COPYOP_SIZE moff' msize <= msize ->
  match emit_copy st msize moff' with
  | Done st' =>
      Rep max_size h n st' (C ++ ser_ops (flush lits ++ [Copy moff' msize])) []
      /\ moff st' = moff_after moff'
      /\ data st' = drop (Z.to_nat msize) (data st)
  | OutOfBounds _ _ => ~ Safe st
  | _ => False
  end.
Proof.
  intros HR Hms Hmd Hcost.
  destruct (close_insert_spec st C lits HR) as (out0 & Hclose & Hw0 & Hl0).
  destruct HR as [Hlen Hcap Hmax Hmin Hpos [Hins Hshort] _ Hdata Hsize].
  destruct (written_len _ _ _ Hw0) as [Hp0 Hr0].
  set (P0 := C ++ ser_ops (flush lits)) in *.
  assert (Hcap0 : len out0 < 2 ^ 32) by lia.
  (* the cell of the command byte is skipped *)
  assert (Hskip : exists x1,
            written_from (outpos st + 1) (P0 ++ [x1]) out0 (outpos st + 1)).
  { destruct (Z.lt_ge_cases (outpos st) (len out0)) as [Hlt|Hge].
    - destruct (written_skip P0 out0 (outpos st) Hw0 Hlt) as [x1 (Ht & Hp & Hle)].
      exists x1. repeat split; try lia. intros _. exact Ht.
    - exists x00. split; [|split; [|split]]; try lia.
      rewrite len_app, len_cons. change (len (@nil byte)) with 0. lia. }
  destruct Hskip as [x1 Hw1].
  pose proof (nz_range (Z.land moff' 0xff)) as N1.
  pose proof (nz_range (Z.land (Z.shiftr moff' 8) 0xff)) as N2.
  pose proof (nz_range (Z.land (Z.shiftr (Z.shiftr moff' 8) 8) 0xff)) as N3.
  pose proof (nz_range (Z.land (Z.shiftr (Z.shiftr (Z.shiftr moff' 8) 8) 8) 0xff)) as N4.
  pose proof (nz_range (Z.land msize 0xff)) as N5.
  pose proof (nz_range (Z.land (Z.shiftr msize 8) 0xff)) as N6.
  assert (Hlo : 0 <= outpos st + 1) by lia.
  unfold emit_copy, Safe. rewrite Hclose, bind_Done.
  rewrite (u32_small (outpos st + 1)) by lia.
  pose proof (put_if_spec moff' 1 out0 (outpos st + 1) 128 _ _ Hw1 Hcap0 Hlo) as S1.
  destruct (put_if moff' 1 (out0, outpos st + 1, 128)) as [[[o1 p1] i1]| |? ?|];
    [|exact S1|rewrite bind_OutOfBounds; len_norm_in S1; lia|exact S1].
  destruct S1 as (W1 & L1 & I1). rewrite bind_Done.
  pose proof (put_if_spec (Z.shiftr moff' 8) 2 o1 p1 i1 _ _ W1 ltac:(lia) Hlo) as S2.
  destruct (put_if (Z.shiftr moff' 8) 2 (o1, p1, i1)) as [[[o2 p2] i2]| |? ?|];
    [|exact S2|rewrite bind_OutOfBounds; len_norm_in S2; lia|exact S2].
  destruct S2 as (W2 & L2 & I2). rewrite bind_Done.
  pose proof (put_if_spec (Z.shiftr (Z.shiftr moff' 8) 8) 4 o2 p2 i2 _ _ W2 ltac:(lia) Hlo) as S3.
  destruct (put_if (Z.shiftr (Z.shiftr moff' 8) 8) 4 (o2, p2, i2)) as [[[o3 p3] i3]| |? ?|];
    [|exact S3|rewrite bind_OutOfBounds; len_norm_in S3; lia|exact S3].
  destruct S3 as (W3 & L3 & I3). rewrite bind_Done.
  pose proof (put_if_spec (Z.shiftr (Z.shiftr (Z.shiftr moff' 8) 8) 8) 8 o3 p3 i3 _ _ W3 ltac:(lia) Hlo) as S4.
  destruct (put_if (Z.shiftr (Z.shiftr (Z.shiftr moff' 8) 8) 8) 8 (o3, p3, i3)) as [[[o4 p4] i4]| |? ?|];
    [|exact S4|rewrite bind_OutOfBounds; len_norm_in S4; lia|exact S4].
  destruct S4 as (W4 & L4 & I4). rewrite bind_Done.
  pose proof (put_if_spec msize 16 o4 p4 i4 _ _ W4 ltac:(lia) Hlo) as S5.
  destruct (put_if msize 16 (o4, p4, i4)) as [[[o5 p5] i5]| |? ?|];
    [|exact S5|rewrite bind_OutOfBounds; len_norm_in S5; lia|exact S5].
  destruct S5 as (W5 & L5 & I5). rewrite bind_Done.
  pose proof (put_if_spec (Z.shiftr msize 8) 32 o5 p5 i5 _ _ W5 ltac:(lia) Hlo) as S6.
  destruct (put_if (Z.shiftr msize 8) 32 (o5, p5, i5)) as [[[o6 p6] i6]| |? ?|];
    [|exact S6|rewrite bind_OutOfBounds; len_norm_in S6; lia|exact S6].
  destruct S6 as (W6 & L6 & I6). rewrite bind_Done.
  (* the command byte *)
  destruct (store_cases o6 (outpos st) (u8 i6)) as [[Hin Hst]|[Hout Hst]];
    rewrite Hst; [|rewrite bind_OutOfBounds; lia].
  rewrite bind_Done, ret_Done.
  destruct W6 as (Hp6 & _ & Hmax6 & Ht6).
  assert (Hle6 : p6 <= len o6) by lia.
  specialize (Ht6 Hle6).
  rewrite <- !app_assoc in Ht6, Hp6. cbn [app] in Ht6, Hp6.
  fold (copy_fields moff' msize) in Ht6, Hp6.
  assert (Ecmd : i6 = copy_cmd moff' msize).
  { unfold copy_cmd. subst i6 i5 i4 i3 i2 i1. reflexivity. }
  assert (Hw6 : written (P0 ++ x1 :: copy_fields moff' msize) o6 p6).
  { split; [exact Ht6|]. split; [exact Hp6 | exact Hle6]. }
  pose proof (written_backfill P0 _ o6 p6 x1 (u8 i6) Hw6) as Hw7.
  replace (len P0) with (outpos st) in Hw7 by lia.
  rewrite len_app, len_cons in Hp6.
  pose proof (COPYOP_SIZE_fields moff' msize) as Hsz.
  pose proof (len_nonneg (copy_fields moff' msize)) as Hfl.
  split; [|split; reflexivity].
  constructor; cbn [out outsize outpos inscnt moff data]; try assumption.
  - unfold len in *. rewrite length_insert. lia.
  - lia.
  - split; [reflexivity | exact nil_short].
  - exists x00. cbn [pending]. rewrite app_nil_r.
    rewrite ser_ops_app. unfold ser_ops at 2. cbn [map concat ser_op].
    rewrite app_nil_r, app_assoc. fold P0. rewrite <- Ecmd. apply Hw7.
  - rewrite len_drop by (pose proof (len_nonneg (data st)); lia). lia.
  - rewrite len_drop by (pose proof (len_nonneg (data st)); lia).
    change (0 =? 0) with true. cbv iota.
    destruct (Z.eqb_spec (inscnt st) 0) as [E|E].
    + lia.
    + assert (0 <= inscnt st) by (rewrite Hins; apply len_nonneg).
      pose proof (copy_at_least_2 moff' msize ltac:(lia) Hcost). lia.
Qed.

(** ** The capacity check *)

Lemma grow_spec (st : enc_state) (C lits : list byte) :
  Rep max_size h n st C lits ->
  match grow max_size st with
  | Done st' =>
      Rep max_size h n st' C lits /\ Checked max_size st'
      /\ moff st' = moff st /\ data st' = data st
  | ReturnNull => max_size <> 0 /\ max_size < outpos st
  | _ => False
  end.
Proof.
  intros HR. destruct (rep_written st C lits HR) as [x Hw].
  pose proof HR as HR0.
  destruct HR as [Hlen Hcap Hmax Hmin Hpos [Hins Hshort] _ Hdata Hsize].
  assert (Hi : 0 <= inscnt st) by (rewrite Hins; apply len_nonneg).
  assert (Hd : 0 <= len (data st)) by apply len_nonneg.
  assert (Hb : 3 * outpos st <= 3 * h + 4 * n + 3)
    by (destruct (inscnt st =? 0); lia).
  unfold grow, Checked, Safe. change MAX_OP_SIZE with 7.
  rewrite (u32_small (outsize st - 7)) by lia.
  rewrite (u32_small (outsize st * 3)) by lia.
  destruct (Z.geb_spec (outpos st) (outsize st - 7)) as [Htrig|Hno].
  - set (o1 := outsize st * 3 / 2).
    assert (Ho1 : outsize st * 3 - 1 <= 2 * o1 <= outsize st * 3).
    { unfold o1. Z.div_mod_to_equations. lia. }
    change (2 ^ 29) with 536870912 in n_range.
    change (2 ^ 32) with 4294967296 in *.
    destruct (Z.eqb_spec max_size 0) as [Em|Em]; cbn [negb andb].
    + (* no cap *)
      rewrite ret_Done. split; [|split; [|split; reflexivity]].
      * constructor; cbn [out outsize outpos inscnt moff data]; try assumption.
        -- apply len_resize. lia.
        -- lia.
        -- intros Hne. contradiction.
        -- right. lia.
        -- lia.
        -- split; assumption.
        -- exists x. apply (written_resize _ _ _ o1 Hw). lia.
      * cbn [outsize outpos]. split; [lia|]. intros Hne. contradiction.
    + destruct (Z.gtb_spec (outpos st) max_size) as [Hover|Hfit].
      * destruct (Z.geb_spec o1 max_size); split; try assumption; lia.
      * assert (Hrep' : forall o2, 9 <= o2 -> o2 * 3 < 4294967296 ->
                  o2 <= max_size + 8 -> (o2 = max_size + 8 \/ 8192 <= o2) ->
                  outpos st <= o2 ->
                  Rep max_size h n
                    {| out := resize (Z.to_nat o2) x00 (out st); outsize := o2;
                       outpos := outpos st; inscnt := inscnt st;
                       moff := moff st; data := data st |} C lits).
        { intros o2 A1 A2 A3 A4 A5.
          constructor; cbn [out outsize outpos inscnt moff data]; try assumption.
          - apply len_resize. lia.
          - change (2 ^ 32) with 4294967296. lia.
          - intros _. exact A3.
          - lia.
          - split; assumption.
          - exists x. apply (written_resize _ _ _ o2 Hw). lia. }
        destruct (Z.geb_spec o1 max_size) as [Hclamp|Hfree].
        -- rewrite (u32_small (max_size + 7 + 1)) by lia. rewrite ret_Done.
           split; [|split; [|split; reflexivity]].
           ++ apply Hrep'; lia.
           ++ cbn [outsize outpos]. split; [lia|]. intros _. lia.
        -- rewrite ret_Done.
           assert (Hbig : 8192 <= outsize st) by (destruct Hmin; lia).
           split; [|split; [|split; reflexivity]].
           ++ apply Hrep'; lia.
           ++ cbn [outsize outpos]. split; [lia|]. intros _. lia.
  - rewrite ret_Done. split; [exact HR0|].
    split; [|split; reflexivity].
    split; [lia|]. intros Hne. specialize (Hmax Hne). lia.
Qed.

(** The opcodes still to come cover at least the open literal run. *)
Lemma flush_len (x : byte) (lits : list byte) :
  len (ser_ops (flush lits)) = len (pending x lits).
Proof.
  destruct lits as [|l ls]; [reflexivity|].
  cbn [flush pending ser_ops map concat ser_op]. rewrite app_nil_r, !len_cons.
  reflexivity.
Qed.

Lemma ops_loop_covers_pending (bdf : bdfile) (ref_buf : list byte) (x : byte)
    (fuel : nat) :
  forall (moff0 : Z) (lits data0 : list byte),
    (length data0 <= fuel)%nat ->
    len (pending x lits)
    <= len (ser_ops (ops_loop adler32 fuel bdf ref_buf moff0 lits data0)).
Proof.
  induction fuel as [|fuel IH]; intros moff0 lits data0 Hfuel.
  - destruct data0; [|simpl in Hfuel; lia].
    cbn [ops_loop]. rewrite (flush_len x). lia.
  - destruct data0 as [|b rest].
    + cbn [ops_loop]. rewrite (flush_len x). lia.
    + simpl in Hfuel. cbn [ops_loop].
      destruct (find_match adler32 bdf ref_buf (b :: rest) moff0) as [msize moff'].
      assert (Hp : len (pending x lits) <= len (pending x (lits ++ [b]))).
      { destruct lits as [|l ls]; cbn [pending app].
        - change (len (@nil byte)) with 0. rewrite !len_cons. pose proof (len_nonneg (@nil byte)). lia.
        - rewrite !len_cons, len_app, len_cons. pose proof (len_nonneg (@nil byte)). lia. }
      destruct (insert_path msize moff').
      * destruct (len (lits ++ [b]) =? 127).
        -- rewrite ser_ops_cons, len_app. cbn [ser_op].
           pose proof (len_nonneg (ser_ops (ops_loop adler32 fuel bdf ref_buf moff' [] rest))).
           assert (len (pending x (lits ++ [b])) <= len (u8 (len (lits ++ [b])) :: lits ++ [b])).
           { destruct (lits ++ [b]); cbn [pending]; rewrite ?len_cons;
               change (len (@nil byte)) with 0; lia. }
           lia.
        -- specialize (IH moff' (lits ++ [b]) rest ltac:(lia)). lia.
      * rewrite ser_ops_app, len_app, (flush_len x).
        pose proof (len_nonneg (ser_ops (Copy moff' msize
          :: ops_loop adler32 fuel bdf ref_buf (moff_after moff') []
               (drop (Z.to_nat msize) (b :: rest))))).
        lia.
Qed.

(** The capacity check, with what a null return means for the opcodes. *)
Lemma grow_continue (bdf : bdfile) (ref_buf : list byte) (st : enc_state)
    (C lits : list byte) (fuel : nat) :
  Rep max_size h n st C lits ->
  match grow max_size st with
  | Done st' =>
      Rep max_size h n st' C lits /\ Checked max_size st'
      /\ moff st' = moff st /\ data st' = data st
  | ReturnNull =>
      max_size <> 0
      /\ ((length (data st) <= fuel)%nat ->
          max_size < len (C ++ ser_ops (ops_loop adler32 fuel bdf ref_buf
                                          (moff st) lits (data st))))
  | _ => False
  end.
Proof.
  intros HR. pose proof (grow_spec st C lits HR) as Hg.
  destruct (grow max_size st) as [st'| |? ?|]; try exact Hg.
  destruct Hg as [Hne Hlt]. split; [exact Hne|]. intros Hfuel.
  destruct (rep_written st C lits HR) as [x Hw].
  destruct (written_len _ _ _ Hw) as [Hp _]. rewrite len_app in Hp.
  pose proof (ops_loop_covers_pending bdf ref_buf x fuel (moff st) lits (data st) Hfuel).
  rewrite len_app. lia.
Qed.

(** ** One iteration *)

Lemma iteration_spec (bdf : bdfile) (ref_buf : list byte) (st : enc_state)
    (C lits : list byte) (b : byte) (rest : list byte) (fuel : nat) :
  Rep max_size h n st C lits -> data st = b :: rest ->
  match iteration adler32 bdf ref_buf max_size st with
  | Done st' =>
      exists C' lits',
        Rep max_size h n st' C' lits' /\ Checked max_size st'
        /\ (length (data st') < length (data st))%nat
        /\ C ++ ser_ops (ops_loop adler32 (S fuel) bdf ref_buf (moff st) lits
                           (data st))
           = C' ++ ser_ops (ops_loop adler32 fuel bdf ref_buf (moff st') lits'
                              (data st'))
  | ReturnNull =>
      max_size <> 0
      /\ ((length rest <= fuel)%nat ->
          max_size < len (C ++ ser_ops (ops_loop adler32 (S fuel) bdf ref_buf
                                          (moff st) lits (data st))))
  | OutOfBounds _ _ => ~ Safe st
  | OutOfFuel => False
  end.
Proof.
  intros HR Hd. unfold iteration. rewrite Hd. cbn [ops_loop].
  destruct (find_match adler32 bdf ref_buf (b :: rest) (moff st))
    as [msize moff'] eqn:Hf.
  (* the state after the opcode, and the opcodes that remain *)
  assert (Hbody :
    match (if insert_path msize moff'
           then emit_insert st moff' b rest else emit_copy st msize moff') with
    | Done st1 =>
        exists C1 lits1,
          Rep max_size h n st1 C1 lits1
          /\ (length (data st1) <= length rest)%nat
          /\ C ++ ser_ops
                 (if insert_path msize moff'
                  then if len (lits ++ [b]) =? 127
                       then Insert (lits ++ [b])
                            :: ops_loop adler32 fuel bdf ref_buf moff' [] rest
                       else ops_loop adler32 fuel bdf ref_buf moff' (lits ++ [b]) rest
                  else flush lits
                       ++ Copy moff' msize
                          :: ops_loop adler32 fuel bdf ref_buf (moff_after moff') []
                               (drop (Z.to_nat msize) (b :: rest)))
             = C1 ++ ser_ops (ops_loop adler32 fuel bdf ref_buf (moff st1) lits1
                                (data st1))
    | OutOfBounds _ _ => ~ Safe st
    | _ => False
    end).
  { destruct (insert_path msize moff') eqn:Hpath.
    - pose proof (emit_insert_spec st C lits moff' b rest HR Hd) as Hs.
      destruct (emit_insert st moff' b rest) as [st1| |? ?|]; try exact Hs.
      destruct Hs as (HR1 & Hm1 & Hd1). rewrite Hm1, Hd1.
      destruct (len (lits ++ [b]) =? 127).
      + eexists _, _. split; [exact HR1|]. split; [lia|].
        rewrite ser_ops_cons, app_assoc. reflexivity.
      + eexists _, _. split; [exact HR1|]. split; [lia|]. reflexivity.
    - destruct (insert_path_false _ _ Hpath) as [Hnz Hcost].
      destruct (find_match_size adler32 _ _ _ _ _ _ Hf) as [Hms Hmd].
      rewrite <- Hd in Hmd.
      pose proof (emit_copy_spec st C lits msize moff' HR ltac:(lia) Hmd Hcost) as Hs.
      destruct (emit_copy st msize moff') as [st1| |? ?|]; try exact Hs.
      destruct Hs as (HR1 & Hm1 & Hd1). rewrite Hm1, Hd1, Hd.
      eexists _, _. split; [exact HR1|]. split.
      + rewrite length_drop. simpl. lia.
      + change (flush lits ++ Copy moff' msize
                 :: ops_loop adler32 fuel bdf ref_buf (moff_after moff') []
                      (drop (Z.to_nat msize) (b :: rest)))
          with (flush lits ++ [Copy moff' msize]
                 ++ ops_loop adler32 fuel bdf ref_buf (moff_after moff') []
                      (drop (Z.to_nat msize) (b :: rest))).
        rewrite (app_assoc (flush lits)), ser_ops_app, app_assoc. reflexivity. }
  destruct (if insert_path msize moff'
            then emit_insert st moff' b rest else emit_copy st msize moff')
    as [st1| |? ?|]; [|destruct Hbody|exact Hbody|destruct Hbody].
  destruct Hbody as (C1 & lits1 & HR1 & Hlen1 & Heq). rewrite bind_Done.
  pose proof (grow_continue bdf ref_buf st1 C1 lits1 fuel HR1) as Hg.
  destruct (grow max_size st1) as [st'| |? ?|]; [| |destruct Hg|destruct Hg].
  - destruct Hg as (HR' & Hc' & Hm' & Hd').
    exists C1, lits1. split; [exact HR'|]. split; [exact Hc'|].
    rewrite Hm', Hd'. split; [simpl; lia | exact Heq].
  - destruct Hg as [Hne Hg]. split; [exact Hne|]. intros Hfuel.
    rewrite Heq. apply Hg. lia.
Qed.

(** ** The loop *)

Lemma encode_loop_spec (bdf : bdfile) (ref_buf : list byte) (fuel : nat) :
  forall (st : enc_state) (C lits : list byte),
    Rep max_size h n st C lits ->
    (length (data st) <= fuel)%nat ->
    (data st = [] -> Checked max_size st) ->
    match encode_loop adler32 fuel bdf ref_buf max_size st with
    | Done d =>
        d = C ++ ser_ops (ops_loop adler32 fuel bdf ref_buf (moff st) lits
                            (data st))
        /\ 3 * (len d - h) <= 4 * n + 2
        /\ (max_size <> 0 -> len d <= max_size)
    | ReturnNull =>
        max_size <> 0
        /\ max_size < len (C ++ ser_ops (ops_loop adler32 fuel bdf ref_buf
                                           (moff st) lits (data st)))
    | OutOfBounds _ _ => ~ Safe st
    | OutOfFuel => False
    end.
Proof.
  assert (Hend : forall fuel' st C lits,
            Rep max_size h n st C lits -> data st = [] ->
            Checked max_size st ->
            match encode_loop adler32 fuel' bdf ref_buf max_size st with
            | Done d =>
                d = C ++ ser_ops (ops_loop adler32 fuel' bdf ref_buf (moff st)
                                    lits (data st))
                /\ 3 * (len d - h) <= 4 * n + 2
                /\ (max_size <> 0 -> len d <= max_size)
            | ReturnNull =>
                max_size <> 0
                /\ max_size < len (C ++ ser_ops (ops_loop adler32 fuel' bdf ref_buf
                                                   (moff st) lits (data st)))
            | OutOfBounds _ _ => ~ Safe st
            | OutOfFuel => False
            end).
  { intros fuel' st C lits HR Hd [_ Hchk].
    destruct (close_insert_spec st C lits HR) as (out0 & Hclose & Hw0 & Hl0).
    destruct HR as [Hlen Hcap Hmax Hmin Hpos [Hins Hshort] _ Hdata Hsize].
    assert (Hi : 0 <= inscnt st) by (rewrite Hins; apply len_nonneg).
    rewrite Hd in Hsize. change (len (@nil byte)) with 0 in Hsize.
    assert (E : encode_loop adler32 fuel' bdf ref_buf max_size st
                = Done (take (Z.to_nat (outpos st)) out0)).
    { destruct fuel'; cbn [encode_loop]; rewrite Hd, Hclose; reflexivity. }
    rewrite E. destruct Hw0 as (Ht & Hp & Hle).
    assert (El : len (take (Z.to_nat (outpos st)) out0) = outpos st)
      by (apply len_take; lia).
    rewrite El. split; [|split].
    - rewrite Ht, Hd. destruct fuel'; reflexivity.
    - destruct (Z.eqb_spec (inscnt st) 0); lia.
    - exact Hchk. }
  assert (Hcases : forall st : enc_state,
            data st = [] \/ exists b rest, data st = b :: rest).
  { intros st. destruct (data st) as [|b rest]; [left|right]; eauto. }
  induction fuel as [|fuel IH]; intros st C lits HR Hfuel Hchk.
  - destruct (Hcases st) as [Hd|(b & rest & Hd)].
    + apply Hend; auto.
    + rewrite Hd in Hfuel. simpl in Hfuel. lia.
  - destruct (Hcases st) as [Hd|(b & rest & Hd)].
    + apply Hend; auto.
    + cbn [encode_loop]. rewrite Hd.
      pose proof (iteration_spec bdf ref_buf st C lits b rest fuel HR Hd) as Hs.
      rewrite Hd in Hfuel. simpl in Hfuel.
      destruct (iteration adler32 bdf ref_buf max_size st) as [st'| |? ?|].
      * destruct Hs as (C' & lits' & HR' & Hc' & Hlt & Heq).
        rewrite bind_Done. rewrite Hd in Hlt, Heq. simpl in Hlt.
        specialize (IH st' C' lits' HR' ltac:(lia) (fun _ => Hc')).
        destruct (encode_loop adler32 fuel bdf ref_buf max_size st') as [d| |? ?|].
        -- destruct IH as (I1 & I2 & I3). split; [|split; assumption].
           rewrite I1. symmetry. exact Heq.
        -- destruct IH as [I1 I2]. split; [exact I1|]. rewrite Heq. exact I2.
        -- exfalso. apply IH. apply Hc'.
        -- exact IH.
      * destruct Hs as [Hne Hs]. split; [exact Hne|].
        rewrite Hd in Hs. apply Hs. lia.
      * exact Hs.
      * exact Hs.
Qed.

End Refinement.

(** ** diff_delta as a whole *)

Section Whole.
Variable adler32 : Z -> list byte -> Z.

Lemma nonempty_len {A} (l : list A) : l <> [] -> 1 <= len l.
Proof. destruct l; [congruence|]. intros _. rewrite len_cons. pose proof (len_nonneg l). lia. Qed.

Lemma header_size_range (R T : list byte) :
  len R < 2 ^ 31 -> len T <= 2 ^ 29 ->
  2 <= header_size R T <= 10.
Proof.
  intros HR HT. unfold header_size, header. rewrite len_app.
  pose proof (len_nonneg R). pose proof (len_nonneg T).
  pose proof (size_bytes_len (len R) ltac:(lia)).
  pose proof (size_bytes_len (len T) ltac:(lia)). lia.
Qed.

(** Every outcome of [diff_delta] on non-empty buffers of sizes an [int]
    holds: a delta made of the header and the opcodes of [delta_ops], null
    under a cap, or a store outside the buffer when the header does not fit
    the cap. *)
Lemma diff_delta_spec (R T : list byte) (max_size : Z) :
  R <> [] -> T <> [] -> len R < 2 ^ 31 -> len T <= 2 ^ 29 -> 0 <= max_size ->
  match diff_delta adler32 R T max_size with
  | Done d =>
      d = header R T ++ ser_ops (delta_ops adler32 R T)
      /\ 3 * (len d - header_size R T) <= 4 * len T + 2
      /\ (max_size <> 0 -> len d <= max_size)
  | ReturnNull =>
      max_size <> 0
      /\ max_size < len (header R T ++ ser_ops (delta_ops adler32 R T))
  | OutOfBounds _ _ => max_size <> 0 /\ max_size + 1 < header_size R T
  | OutOfFuel => False
  end.
Proof.
  intros HRne HTne HR HT Hm.
  pose proof (nonempty_len R HRne) as HR1. pose proof (nonempty_len T HTne) as HT1.
  pose proof (header_size_range R T HR HT) as Hh.
  pose proof (size_bytes_len (len R) ltac:(lia)) as HsR.
  pose proof (size_bytes_len (len T) ltac:(lia)) as HsT.
  unfold header_size, header in Hh |- *. rewrite len_app in Hh |- *.
  unfold diff_delta.
  destruct (Z.eqb_spec (len R) 0) as [E|_]; [lia|].
  destruct (Z.eqb_spec (len T) 0) as [E|_]; [lia|]. cbn [orb].
  change MAX_OP_SIZE with 7.
  set (cap := if negb (max_size =? 0) && (8192 >=? max_size)
              then u32 (max_size + 7 + 1) else 8192).
  assert (Hcap : (max_size <> 0 /\ max_size <= 8192 /\ cap = max_size + 8)
                 \/ ((max_size = 0 \/ 8192 < max_size) /\ cap = 8192)).
  { unfold cap. destruct (Z.eqb_spec max_size 0) as [E|E]; cbn [negb andb].
    - right. split; [left; exact E | reflexivity].
    - destruct (Z.geb_spec 8192 max_size).
      + left. rewrite u32_small by lia. repeat split; try assumption; lia.
      + right. split; [right; lia | reflexivity]. }
  assert (Hc9 : 9 <= cap <= 8200) by lia.
  clearbody cap.
  set (out0 := replicate (Z.to_nat cap) x00).
  assert (Hl0 : len out0 = cap).
  { unfold out0, len. rewrite length_replicate. lia. }
  clearbody out0.
  pose proof (put_size_spec (len R) out0 0 [] ltac:(lia) (take_0 _) eq_refl
                ltac:(lia) ltac:(lia)) as S1.
  destruct (put_size (len R) out0 0) as [[out1 p1]| |? ?|]; [|destruct S1| |].
  2: { change (len (@nil byte)) with 0 in S1. lia. }
  2: { exfalso. rewrite Z.shiftr_div_pow2 in S1 by lia.
       assert (len R / 2 ^ 7 <= len R) by (apply Z.div_le_upper_bound; lia).
       lia. }
  destruct S1 as (T1 & L1 & P1 & B1). rewrite bind_Done.
  change (len (@nil byte)) with 0 in P1. cbn [app] in T1.
  pose proof (put_size_spec (len T) out1 p1 (size_bytes (len R)) ltac:(lia) T1
                ltac:(lia) ltac:(lia) ltac:(lia)) as S2.
  destruct (put_size (len T) out1 p1) as [[out2 p2]| |? ?|]; [|destruct S2| |].
  2: { rewrite bind_OutOfBounds. lia. }
  2: { exfalso. rewrite Z.shiftr_div_pow2 in S2 by lia.
       assert (len T / 2 ^ 7 <= len T) by (apply Z.div_le_upper_bound; lia).
       lia. }
  destruct S2 as (T2 & L2 & P2 & B2). rewrite bind_Done.
  set (hs := len (size_bytes (len R)) + len (size_bytes (len T))) in *.
  change (2 ^ 32) with 4294967296 in *. change (2 ^ 29) with 536870912 in *.
  change (2 ^ 31) with 2147483648 in *.
  set (st0 := {| out := out2; outsize := cap; outpos := p2; inscnt := 0;
                 moff := 0; data := T |}).
  assert (HRep : Rep max_size hs (len T) st0
                   (size_bytes (len R) ++ size_bytes (len T)) []).
  { constructor; unfold st0; cbn [out outsize outpos inscnt moff data].
    - lia.
    - lia.
    - intros Hne. lia.
    - lia.
    - lia.
    - split; [reflexivity | exact nil_short].
    - exists x00. cbn [pending]. rewrite app_nil_r. exact T2.
    - lia.
    - change (0 =? 0) with true. cbv iota. lia. }
  pose proof (encode_loop_spec adler32 max_size hs (len T) Hm ltac:(lia) ltac:(lia)
                (delta_prepare adler32 R) R (length T) st0 _ _ HRep
                ltac:(unfold st0; cbn [data]; lia)
                ltac:(unfold st0; cbn [data]; intros E; contradiction)) as Hloop.
  destruct (encode_loop adler32 (length T) (delta_prepare adler32 R) R max_size st0)
    as [d| | |].
  - exact Hloop.
  - exact Hloop.
  - unfold Safe, st0 in Hloop. cbn [outpos outsize] in Hloop. lia.
  - exact Hloop.
Qed.

(** Without a cap [diff_delta] returns a delta. *)
Lemma diff_delta_total (R T : list byte) :
  R <> [] -> T <> [] -> len R < 2 ^ 31 -> len T <= 2 ^ 29 ->
  diff_delta adler32 R T 0
  = Done (header R T ++ ser_ops (delta_ops adler32 R T)).
Proof.
  intros HRne HTne HR HT.
  pose proof (diff_delta_spec R T 0 HRne HTne HR HT ltac:(lia)) as H.
  destruct (diff_delta adler32 R T 0) as [d| | |].
  - destruct H as [-> _]. reflexivity.
  - destruct H as [H _]. contradiction.
  - destruct H as [H _]. contradiction.
  - contradiction.
Qed.

End Whole.

(** ** C1: the round trip *)

Section Claims.
Variable adler32 : Z -> list byte -> Z.


Lemma op_ok_copy_inside (R : list byte) (o : op) : op_ok R o -> copy_inside R o.
Proof. destruct o; simpl; [trivial|]. lia. Qed.

(** ** C8: the length of the delta *)

(** C8, amended: without a cap the delta is at most
    [|T| + ceil (|T| / 3) + header_size] bytes long. *)
Theorem overhead_bound (R T : list byte) :
  R <> [] -> T <> [] -> len R < 2 ^ 31 -> len T <= 2 ^ 29 ->
  exists d,
    diff_delta adler32 R T 0 = Done d
    /\ len d <= len T + cdiv (len T) 3 + header_size R T.
Proof.
  intros HRne HTne HR HT.
  pose proof (diff_delta_spec adler32 R T 0 HRne HTne HR HT ltac:(lia)) as H.
  destruct (diff_delta adler32 R T 0) as [d| |i c|].
  - exists d. split; [reflexivity|]. destruct H as (_ & H & _).
    unfold cdiv. Z.div_mod_to_equations. lia.
  - destruct H as [H _]. contradiction.
  - destruct H as [H _]. contradiction.
  - contradiction.
Qed.

End Claims.


(** C8, as stated (the delta is at most [|T| + ceil (|T| / 127) +
    header_size] bytes long), fails: for a target whose second block has the
    checksum of the reference block and its first two bytes, the delta is a
    literal, a copy of two bytes and fourteen literals, 21 bytes against a
    bound of 20. *)
Lemma delta_longer_than_bound :
  let R := Examples.blk_a in
  let T := u8 9 :: Examples.blk_b in
  exists d,
    diff_delta Zlib.adler32 R T 0 = Done d
    /\ len T + cdiv (len T) 127 + header_size R T < len d.
Proof.
  eexists. split; [vm_compute; reflexivity|]. vm_compute. reflexivity.
Qed.

Lemma overhead_bound_witness :
  exists d,
    diff_delta Zlib.adler32 Examples.blk_a (u8 9 :: Examples.blk_b) 0 = Done d
    /\ len d <= len (u8 9 :: Examples.blk_b)
                + cdiv (len (u8 9 :: Examples.blk_b)) 3
                + header_size Examples.blk_a (u8 9 :: Examples.blk_b).
Proof.
  apply (overhead_bound Zlib.adler32 Examples.blk_a (u8 9 :: Examples.blk_b)).
  - discriminate.
  - discriminate.
  - vm_compute. reflexivity.
  - vm_compute. discriminate.
Defined.

(** ** C10: stores outside the output buffer *)

(** C10 fails on the code: with [max_size = 1] the buffer has
    [1 + MAX_OP_SIZE + 1 = 9] bytes; for the 1024-byte reference [ramp] and
    the 16384-byte target [ramp_tail] the header takes five of them and the
    first opcode, a copy of 272 bytes from offset 272, five more: its last
    byte is stored at index 9, before any capacity check has run. *)
Theorem store_past_capacity :
  diff_delta Zlib.adler32 Examples.ramp Examples.ramp_tail 1 = OutOfBounds 9 9.
Proof. vm_compute. reflexivity. Qed.

(** * Further properties of the encoder *)

(** ** hashbits on every 32-bit size *)

(** X1: for every size an [unsigned int] holds, [hashbits size] is the
    smallest [k >= 1] with [2 ^ k >= size], and it is at most 32; above
    [2 ^ 31] the shifted [val] wraps to zero and the guard [bits < 32] ends
    the loop. *)
Theorem hashbits_spec (size : Z) :
  0 <= size < 2 ^ 32 ->
  smallest_bits size (hashbits size) /\ hashbits size <= 32.
Proof.
  intros Hs. unfold hashbits.
  destruct (hashbits_loop_spec size 32 1 0) as (H1 & H2 & H3);
    [lia | lia | reflexivity |].
  set (k := hashbits_loop 32 size 1 0) in *.
  destruct (Z.eqb_spec k 0) as [E|E].
  - split; [|lia]. split; [lia|]. split.
    + specialize (H2 ltac:(lia)). rewrite E in H2. simpl in H2. simpl. lia.
    + intros j Hj _. exact Hj.
  - split; [|lia]. split; [lia|]. split.
    + destruct (Z.eq_dec k 32) as [E32|E32]; [rewrite E32; lia|].
      apply H2. lia.
    + intros j Hj Hle.
      assert (Hlt : 2 ^ (k - 1) < 2 ^ j) by (specialize (H3 ltac:(lia)); lia).
      apply Z.pow_lt_mono_r_iff in Hlt; lia.
Qed.

Lemma hashbits_spec_witness :
  smallest_bits (2 ^ 31 + 1) (hashbits (2 ^ 31 + 1))
  /\ hashbits (2 ^ 31 + 1) <= 32.
Proof. apply (hashbits_spec (2 ^ 31 + 1)). vm_compute. split; [discriminate | reflexivity]. Defined.

(** ** The bucket index stays inside the table *)

Lemma HASH_range (v b : Z) : 0 <= b <= 32 -> 0 <= HASH v b < 2 ^ b.
Proof.
  intros Hb. unfold HASH.
  pose proof (u32_range (u32 v * GR_PRIME)) as Hu.
  rewrite Z.shiftr_div_pow2 by lia.
  assert (Hp : 0 < 2 ^ (32 - b)) by (apply Z.pow_pos_nonneg; lia).
  split; [apply Z.div_pos; lia|].
  apply Z.div_lt_upper_bound; [exact Hp|].
  rewrite <- Z.pow_add_r by lia. replace (32 - b + b) with 32 by lia. lia.
Qed.

Section IndexMore.
Variable adler32 : Z -> list byte -> Z.

Lemma fphbits_range (R : list byte) :
  len R < 2 ^ 31 -> 1 <= fphbits (delta_prepare adler32 R) <= 27.
Proof.
  intros HR. destruct (delta_prepare_hsize adler32 R HR) as [(H1 & H2 & H3) _].
  split; [exact H1|]. apply H3; [lia|].
  pose proof (len_nonneg R). unfold BLK_SIZE.
  assert (len R / 16 < 2 ^ 27) by (apply Z.div_lt_upper_bound; lia). lia.
Qed.

Lemma hash_in_table (R : list byte) (v : Z) :
  len R < 2 ^ 31 ->
  0 <= HASH v (fphbits (delta_prepare adler32 R))
    < len (fphash (delta_prepare adler32 R)).
Proof.
  intros HR. destruct (delta_prepare_hsize adler32 R HR) as [_ Hl].
  rewrite Hl. apply HASH_range.
  pose proof (fphbits_range R HR). lia.
Qed.

(** X2: whatever value is hashed, [HASH(v, fphbits)] is an index inside the
    table [delta_prepare] allocated: the accesses [fphash[i]] of
    [delta_prepare] and of the main loop of [diff_delta] stay inside it, and
    the table has at most [2 ^ 27] buckets. *)
Theorem bucket_index_in_table (R : list byte) (v : Z) :
  len R < 2 ^ 31 ->
  let bdf := delta_prepare adler32 R in
  0 <= HASH v (fphbits bdf) < len (fphash bdf)
  /\ len (fphash bdf) <= 2 ^ 27.
Proof.
  intros HR bdf. split; [apply hash_in_table, HR|].
  destruct (delta_prepare_hsize adler32 R HR) as [_ Hl]. unfold bdf. rewrite Hl.
  apply Z.pow_le_mono_r; [lia|]. apply fphbits_range, HR.
Qed.

(** ** The index holds every block once *)

Lemma bucket_insert_eq (fphash : list (list bdrecord)) (i : Z)
    (c : list bdrecord) :
  0 <= i < len fphash -> bucket (<[Z.to_nat i := c]> fphash) i = c.
Proof.
  intros H. unfold bucket. rewrite list_lookup_insert_eq; [reflexivity|].
  unfold len in H. lia.
Qed.

Lemma bucket_insert_ne (fphash : list (list bdrecord)) (i j : Z)
    (c : list bdrecord) :
  0 <= i -> 0 <= j -> i <> j ->
  bucket (<[Z.to_nat i := c]> fphash) j = bucket fphash j.
Proof.
  intros Hi Hj Hne. unfold bucket. rewrite list_lookup_insert_ne; [reflexivity|].
  lia.
Qed.

Lemma prepare_loop_indexed (buf : list byte) (bits : Z) (fuel : nat) :
  forall data fphash,
    data mod BLK_SIZE = 0 -> - BLK_SIZE <= data -> data < len buf ->
    data < BLK_SIZE * Z.of_nat fuel ->
    (forall v, 0 <= HASH v bits < len fphash) ->
    indexed adler32 buf bits data fphash ->
    indexed adler32 buf bits (- BLK_SIZE)
      (prepare_loop adler32 fuel buf bits data fphash).
Proof.
  unfold BLK_SIZE.
  induction fuel as [|fuel IH]; intros data fphash Hm Hlo Hd Hf Hh Hi.
  - simpl. assert (data = -16) by (Z.div_mod_to_equations; lia). subst data.
    exact Hi.
  - cbn [prepare_loop]. destruct (Z.ltb_spec data 0) as [Hneg|Hpos].
    + assert (data = -16) by (Z.div_mod_to_equations; lia). subst data.
      exact Hi.
    + fold (block_record adler32 buf data).
      set (brec := block_record adler32 buf data).
      set (i0 := HASH (fp brec) bits).
      assert (Hi0 : 0 <= i0 < len fphash) by apply Hh.
      apply IH.
      * unfold BLK_SIZE. Z.div_mod_to_equations; lia.
      * unfold BLK_SIZE. lia.
      * unfold BLK_SIZE. lia.
      * unfold BLK_SIZE. lia.
      * intros v. unfold len. rewrite length_insert. apply Hh.
      * intros i r Hir. unfold len in Hir. rewrite length_insert in Hir.
        fold (len fphash) in Hir.
        destruct (Z.eq_dec i i0) as [->|Hne].
        -- rewrite bucket_insert_eq by exact Hi0.
           rewrite elem_of_cons, (Hi i0 r Hi0). split.
           ++ intros [->|(p & Hp & Hpm & -> & Hh0)].
              ** exists data. unfold BLK_SIZE.
                 repeat split; try lia; try assumption.
              ** exists p. unfold BLK_SIZE in *. repeat split; try lia; assumption.
           ++ intros (p & Hp & Hpm & -> & Hh0).
              destruct (Z.eq_dec p data) as [->|Hpd]; [left; reflexivity|].
              right. exists p. unfold BLK_SIZE in *.
              repeat split; try assumption; try lia.
              Z.div_mod_to_equations; lia.
        -- rewrite bucket_insert_ne by lia.
           rewrite (Hi i r Hir). split.
           ++ intros (p & Hp & Hpm & -> & Hh0).
              exists p. unfold BLK_SIZE in *. repeat split; try lia; assumption.
           ++ intros (p & Hp & Hpm & -> & Hh0).
              exists p. unfold BLK_SIZE in *.
              assert (p <> data).
              { intros ->. apply Hne. exact Hh0. }
              repeat split; try assumption; try lia.
              Z.div_mod_to_equations; lia.
Qed.

Lemma bucket_replicate (n : nat) (i : Z) :
  bucket (replicate n (@nil bdrecord)) i = [].
Proof.
  unfold bucket. destruct (replicate n [] !! Z.to_nat i) as [c|] eqn:E; [|reflexivity].
  apply lookup_replicate in E. destruct E as [-> _]. reflexivity.
Qed.

Lemma delta_prepare_indexed (R : list byte) :
  len R < 2 ^ 31 ->
  indexed adler32 R (fphbits (delta_prepare adler32 R)) (- BLK_SIZE)
    (fphash (delta_prepare adler32 R)).
Proof.
  intros HR.
  assert (Hh : forall v, 0 <= HASH v (fphbits (delta_prepare adler32 R))
                         < len (fphash (delta_prepare adler32 R)))
    by (intros v; apply hash_in_table, HR).
  unfold delta_prepare in *. cbn [fphbits fphash] in *.
  pose proof (len_nonneg R) as Hn.
  set (bits := hashbits (u32 (len R / BLK_SIZE + 1))) in *.
  set (d0 := len R / BLK_SIZE * BLK_SIZE) in *.
  set (d := if d0 =? len R then d0 - BLK_SIZE else d0) in *.
  assert (Hq : 0 <= len R / BLK_SIZE) by (unfold BLK_SIZE; apply Z.div_pos; lia).
  assert (Hd0 : d0 mod BLK_SIZE = 0 /\ d0 <= len R /\ len R < d0 + BLK_SIZE /\ 0 <= d0).
  { unfold d0, BLK_SIZE in *. Z.div_mod_to_equations. lia. }
  assert (Hd : d mod BLK_SIZE = 0 /\ - BLK_SIZE <= d /\ d < len R
               /\ len R <= d + BLK_SIZE /\ d <= d0).
  { unfold d. destruct (Z.eqb_spec d0 (len R)); unfold BLK_SIZE in *;
      Z.div_mod_to_equations; lia. }
  apply prepare_loop_indexed.
  - apply Hd.
  - apply Hd.
  - apply Hd.
  - rewrite Z2Nat.id by lia. unfold d0, BLK_SIZE in *. lia.
  - intros v. specialize (Hh v). unfold len in Hh.
    rewrite prepare_loop_length in Hh. exact Hh.
  - intros i r _. rewrite bucket_replicate. split.
    + intros H. inversion H.
    + intros (p & Hp & Hpm & _). exfalso. unfold BLK_SIZE in *.
      Z.div_mod_to_equations. lia.
Qed.

Lemma sorted_lt_NoDup (l : list Z) : StronglySorted Z.lt l -> NoDup l.
Proof.
  induction 1 as [|a l Hs IH Hall]; constructor; [|exact IH].
  intros Hin. rewrite List.Forall_forall in Hall.
  apply list_elem_of_In in Hin. specialize (Hall a Hin). lia.
Qed.

Lemma block_in_chain (R : list byte) (p : Z) :
  len R < 2 ^ 31 -> 0 <= p < len R -> p mod BLK_SIZE = 0 ->
  block_record adler32 R p
  ∈ bucket (fphash (delta_prepare adler32 R))
      (HASH (fp (block_record adler32 R p)) (fphbits (delta_prepare adler32 R))).
Proof.
  intros HR Hp Hm.
  apply (delta_prepare_indexed R HR); [apply hash_in_table, HR|].
  exists p. unfold BLK_SIZE. repeat split; try lia. exact Hm.
Qed.

(** X3: the index [delta_prepare] builds holds one record for every block
    of the reference and nothing else: bucket [i] holds exactly the records
    [(adler32 of the block at 16 j, 16 j)], [16 j < |R|], whose checksum
    hashes to [i], the last block being the shorter one when [|R|] is not a
    multiple of 16; no bucket holds a record twice. *)
Theorem index_holds_every_block (R : list byte) (i : Z) (r : bdrecord) :
  len R < 2 ^ 31 ->
  let bdf := delta_prepare adler32 R in
  0 <= i < len (fphash bdf) ->
  (r ∈ bucket (fphash bdf) i <->
   exists j, 0 <= j /\ BLK_SIZE * j < len R
             /\ r = block_record adler32 R (BLK_SIZE * j)
             /\ i = HASH (fp r) (fphbits bdf))
  /\ NoDup (bucket (fphash bdf) i).
Proof.
  intros HR bdf Hi. subst bdf. split.
  - rewrite (delta_prepare_indexed R HR i r Hi). unfold BLK_SIZE. split.
    + intros (p & Hp & Hpm & Hr & Hh). exists (p / 16).
      assert (16 * (p / 16) = p) by (Z.div_mod_to_equations; lia).
      rewrite H. repeat split; try assumption; try lia.
    + intros (j & Hj & Hlt & Hr & Hh). exists (16 * j).
      repeat split; try assumption; try lia.
      rewrite Z.mul_comm. apply Z.mod_mul. lia.
  - destruct (delta_prepare_bucket_ok adler32 R i) as [Hs _].
    apply sorted_lt_NoDup in Hs. exact (NoDup_fmap_1 ptr _ Hs).
Qed.

(** ** A block of the reference is found again *)

Lemma match_run_agree (p1 : list byte) :
  forall (k csize : Z) (p2 : list byte),
    0 <= k <= csize -> k <= len p1 -> k <= len p2 ->
    take (Z.to_nat k) p1 = take (Z.to_nat k) p2 ->
    k <= match_run csize p1 p2.
Proof.
  induction p1 as [|a p1 IH]; intros k csize p2 Hk H1 H2 Ht.
  - change (len (@nil byte)) with 0 in H1.
    pose proof (match_run_range csize [] p2 ltac:(lia)). lia.
  - destruct (Z.eq_dec k 0) as [->|Hk0].
    { pose proof (match_run_range csize (a :: p1) p2 ltac:(lia)). lia. }
    destruct p2 as [|b p2].
    { change (len (@nil byte)) with 0 in H2. lia. }
    rewrite len_cons in H1, H2.
    replace (Z.to_nat k) with (S (Z.to_nat (k - 1))) in Ht by lia.
    cbn [take] in Ht. inversion Ht as [[Hab Ht']]. subst b.
    cbn [match_run].
    destruct (Z.eqb_spec csize 0) as [E|E]; [lia|]. cbn [negb andb].
    assert (Eaa : Byte.eqb a a = true) by (apply Byte.byte_dec_lb; reflexivity).
    rewrite Eaa.
    specialize (IH (k - 1) (csize - 1) p2 ltac:(lia) ltac:(lia) ltac:(lia) Ht').
    lia.
Qed.

Lemma run_at_agree (R data : list byte) (r : bdrecord) (k : Z) :
  len R < 2 ^ 32 -> 0 <= ptr r < len R ->
  0 <= k -> k <= len R - ptr r -> k <= len data ->
  take (Z.to_nat k) (drop (Z.to_nat (ptr r)) R) = take (Z.to_nat k) data ->
  k <= run_at R data r.
Proof.
  intros HR Hp Hk H1 H2 Ht. unfold run_at. rewrite u32_small by lia.
  assert (Hl : len (drop (Z.to_nat (ptr r)) R) = len R - ptr r)
    by (apply len_drop; lia).
  destruct (Z.gtb_spec (len R - ptr r) (len data));
    apply match_run_agree; try assumption; lia.
Qed.

Lemma block_found (R data : list byte) (p moff0 msize moff : Z) :
  len R < 2 ^ 31 -> 0 <= p < len R -> p mod BLK_SIZE = 0 ->
  Z.min BLK_SIZE (len R - p) = Z.min (len data) BLK_SIZE ->
  take (Z.to_nat (Z.min (len data) BLK_SIZE)) (drop (Z.to_nat p) R)
  = take (Z.to_nat (Z.min (len data) BLK_SIZE)) data ->
  find_match adler32 (delta_prepare adler32 R) R data moff0 = (msize, moff) ->
  capped_run R data (block_record adler32 R p) <= msize
  /\ Z.min (len data) BLK_SIZE <= run_at R data (block_record adler32 R p).
Proof.
  intros HR Hp Hm Hmin Ht Hf.
  pose proof (len_nonneg data) as Hd.
  set (r := block_record adler32 R p).
  assert (Hfp : fp r = u32 (adler32 0 (take (Z.to_nat (Z.min (len data) BLK_SIZE)) data))).
  { unfold r, block_record. cbn [fp]. rewrite Hmin, Ht. reflexivity. }
  pose proof (block_in_chain R p HR Hp Hm) as Hin. fold r in Hin.
  unfold find_match in Hf. rewrite Hfp in Hin.
  destruct (walk_chain_spec R data _ _ 0 moff0 msize moff Hf ltac:(lia))
    as (_ & H2 & _).
  split; [apply H2; [exact Hin | exact Hfp]|].
  apply run_at_agree; try assumption; unfold r, block_record; cbn [ptr];
    unfold BLK_SIZE in *; lia.
Qed.

(** X4: a block of the reference is found again.  When the bytes at the
    head of the target - a full block, or all that is left of the target -
    are a block of the reference of the same length, the search returns a
    match at least as long, the match is real (the [msize] bytes at [moff]
    of the reference are the next [msize] bytes of the target, inside the
    reference), and for a full block the encoder takes the copy path. *)
Theorem aligned_block_found (R data : list byte) (p moff0 msize moff : Z) :
  len R < 2 ^ 31 -> data <> [] ->
  0 <= p < len R -> p mod BLK_SIZE = 0 ->
  Z.min BLK_SIZE (len R - p) = Z.min (len data) BLK_SIZE ->
  take (Z.to_nat (Z.min (len data) BLK_SIZE)) (drop (Z.to_nat p) R)
  = take (Z.to_nat (Z.min (len data) BLK_SIZE)) data ->
  find_match adler32 (delta_prepare adler32 R) R data moff0 = (msize, moff) ->
  Z.min (len data) BLK_SIZE <= msize
  /\ 0 <= moff /\ moff + msize <= len R
  /\ take (Z.to_nat msize) (drop (Z.to_nat moff) R) = take (Z.to_nat msize) data
  /\ (BLK_SIZE <= len data -> insert_path msize moff = false).
Proof.
  intros HR Hne Hp Hm Hmin Ht Hf.
  destruct (block_found R data p moff0 msize moff HR Hp Hm Hmin Ht Hf) as [Hc Hrun].
  pose proof (nonempty_len data Hne) as Hd.
  assert (Hms : Z.min (len data) BLK_SIZE <= msize).
  { unfold capped_run, BLK_SIZE in *. lia. }
  destruct (find_match_sound adler32 R data moff0 msize moff ltac:(lia) Hf)
    as (S1 & S2 & S3); [unfold BLK_SIZE in *; lia|].
  repeat split; try assumption.
  intros Hfull. unfold insert_path.
  pose proof (COPYOP_SIZE_range moff msize).
  destruct (Z.eqb_spec msize 0); [unfold BLK_SIZE in *; lia|].
  destruct (Z.ltb_spec msize (COPYOP_SIZE moff msize)); [unfold BLK_SIZE in *; lia|].
  reflexivity.
Qed.

End IndexMore.

(** ** A buffer against itself *)

Lemma COPYOP_SIZE_zero_offset (s : Z) : 2 <= s -> COPYOP_SIZE 0 s <= s.
Proof.
  intros Hs. unfold COPYOP_SIZE. rewrite !Z.land_0_l. change (nz 0) with 0.
  pose proof (nz_range (Z.land s 0xff)). pose proof (nz_range (Z.land s 0xff00)).
  destruct (Z.eq_dec s 2) as [->|]; [vm_compute; discriminate|]. lia.
Qed.

Section Identity.
Variable adler32 : Z -> list byte -> Z.

Lemma find_match_self (X : list byte) (moff0 : Z) :
  1 <= len X <= 0x10000 ->
  find_match adler32 (delta_prepare adler32 X) X X moff0 = (len X, 0).
Proof.
  intros HX.
  destruct (find_match adler32 (delta_prepare adler32 X) X X moff0)
    as [msize moff] eqn:Hf.
  assert (HR : len X < 2 ^ 31) by lia.
  destruct (block_found adler32 X X 0 moff0 msize moff HR) as [Hc _];
    [lia | reflexivity | rewrite Z.sub_0_r; lia | reflexivity | exact Hf |].
  assert (Hrun : len X <= run_at X X (block_record adler32 X 0)).
  { apply run_at_agree; cbn [block_record ptr]; try lia. reflexivity. }
  destruct (find_match_size adler32 _ X X moff0 msize moff Hf) as [Hs1 Hs2].
  assert (Hms : msize = len X) by (unfold capped_run in Hc; lia).
  pose proof (walk_selects adler32 X X moff0 msize moff ltac:(lia) Hf ltac:(lia)) as W.
  cbv zeta in W. destruct W as (_ & (r & Hin & _ & Hptr & Hcap) & _).
  destruct (delta_prepare_bucket_ok adler32 X
              (HASH (u32 (adler32 0 (take (Z.to_nat (Z.min (len X) BLK_SIZE)) X)))
                 (fphbits (delta_prepare adler32 X)))) as [_ Hrange].
  rewrite Forall_forall in Hrange. specialize (Hrange r Hin). cbv beta in Hrange.
  destruct (run_at_sound X X r ltac:(lia) ltac:(lia)) as [Hb _].
  unfold capped_run in Hcap.
  assert (Hz : moff = 0) by lia. rewrite Hms, Hz. reflexivity.
Qed.

Lemma delta_ops_self (X : list byte) :
  1 <= len X <= 0x10000 ->
  delta_ops adler32 X X
  = [if len X =? 1 then Insert X else Copy 0 (len X)].
Proof.
  intros HX. unfold delta_ops.
  destruct X as [|b rest]; [change (len (@nil byte)) with 0 in HX; lia|].
  cbn [length ops_loop]. rewrite (find_match_self (b :: rest) 0 HX).
  destruct rest as [|c rest].
  - reflexivity.
  - assert (H2 : 2 <= len (b :: c :: rest)).
    { rewrite !len_cons. pose proof (len_nonneg rest). lia. }
    set (X := b :: c :: rest) in *.
    assert (Hip : insert_path (len X) 0 = false).
    { unfold insert_path. pose proof (COPYOP_SIZE_zero_offset (len X) H2).
      destruct (Z.eqb_spec (len X) 0); [lia|].
      destruct (Z.ltb_spec (len X) (COPYOP_SIZE 0 (len X))); [lia | reflexivity]. }
    rewrite Hip. destruct (Z.eqb_spec (len X) 1); [lia|].
    replace (drop (Z.to_nat (len X)) X) with (@nil byte).
    + reflexivity.
    + unfold len. rewrite Nat2Z.id. symmetry. apply drop_all.
Qed.

(** X5: a buffer against itself.  For a buffer [X] of 1 to [0x10000] bytes
    [diff_delta X X 0] returns the header followed by a single opcode: one
    copy of all of [X] from offset 0, or, when [X] is a single byte, that
    byte as a literal (a copy would take two bytes). *)
Theorem identity_delta (X : list byte) :
  1 <= len X <= 0x10000 ->
  diff_delta adler32 X X 0
  = Done (header X X
          ++ ser_op (if len X =? 1 then Insert X else Copy 0 (len X))).
Proof.
  intros HX.
  assert (Hne : X <> []) by (intros ->; change (len (@nil byte)) with 0 in HX; lia).
  rewrite (diff_delta_total adler32 X X Hne Hne ltac:(lia) ltac:(lia)).
  rewrite (delta_ops_self X HX). unfold ser_ops. cbn [map concat].
  rewrite app_nil_r. reflexivity.
Qed.

(** ** An aligned slice of the reference *)

Lemma delta_ops_slice (R : list byte) (p n : Z) :
  len R < 2 ^ 31 -> 0 <= p -> p mod BLK_SIZE = 0 ->
  BLK_SIZE <= n <= 0x10000 -> p + n <= len R ->
  let T := take (Z.to_nat n) (drop (Z.to_nat p) R) in
  len T = n
  /\ exists off,
       0 <= off /\ off + n <= len R
       /\ take (Z.to_nat n) (drop (Z.to_nat off) R) = T
       /\ delta_ops adler32 R T = [Copy off n].
Proof.
  intros HR Hp Hm Hn Hfit T. unfold BLK_SIZE in Hn.
  assert (HT : len T = n).
  { unfold T. apply len_take. rewrite len_drop by lia. lia. }
  split; [exact HT|].
  assert (HTT : take (Z.to_nat n) T = T).
  { apply take_ge. unfold len in HT. lia. }
  destruct (find_match adler32 (delta_prepare adler32 R) R T 0)
    as [msize moff] eqn:Hf.
  assert (Hmin : Z.min (len T) BLK_SIZE = 16) by (unfold BLK_SIZE; lia).
  destruct (block_found adler32 R T p 0 msize moff HR) as [Hc _];
    [lia | exact Hm | unfold BLK_SIZE in *; lia | | exact Hf |].
  { rewrite Hmin. unfold T. rewrite take_take.
    replace (Z.to_nat 16 `min` Z.to_nat n)%nat with (Z.to_nat 16) by lia.
    reflexivity. }
  assert (Hrun : n <= run_at R T (block_record adler32 R p)).
  { apply run_at_agree; cbn [block_record ptr]; try lia.
    rewrite HTT. reflexivity. }
  destruct (find_match_size adler32 _ R T 0 msize moff Hf) as [Hs1 Hs2].
  assert (Hms : msize = n) by (unfold capped_run in Hc; lia). subst msize.
  destruct (find_match_sound adler32 R T 0 n moff ltac:(lia) Hf ltac:(lia))
    as (S1 & S2 & S3).
  exists moff. split; [exact S1|]. split; [exact S2|].
  split; [rewrite S3; exact HTT|].
  unfold delta_ops.
  destruct T as [|b rest] eqn:ET; [change (len (@nil byte)) with 0 in HT; lia|].
  cbn [length ops_loop]. rewrite Hf.
  assert (Hip : insert_path n moff = false).
  { unfold insert_path. pose proof (COPYOP_SIZE_range moff n).
    destruct (Z.eqb_spec n 0); [lia|].
    destruct (Z.ltb_spec n (COPYOP_SIZE moff n)); [lia | reflexivity]. }
  rewrite Hip.
  replace (drop (Z.to_nat n) (b :: rest)) with (@nil byte).
  - destruct (length rest); reflexivity.
  - symmetry. apply drop_ge. unfold len in HT. lia.
Qed.

(** X6: an aligned slice of the reference is one copy.  When the target
    is the [n] bytes of the reference from a multiple of 16 on,
    [16 <= n <= 0x10000], [diff_delta] returns the header followed by a
    single COPY of [n] bytes, from an offset of the reference where these
    bytes stand. *)
Theorem aligned_slice_one_copy (R : list byte) (p n : Z) :
  len R < 2 ^ 31 -> 0 <= p -> p mod BLK_SIZE = 0 ->
  BLK_SIZE <= n <= 0x10000 -> p + n <= len R ->
  let T := take (Z.to_nat n) (drop (Z.to_nat p) R) in
  exists off,
    0 <= off /\ off + n <= len R
    /\ take (Z.to_nat n) (drop (Z.to_nat off) R) = T
    /\ diff_delta adler32 R T 0 = Done (header R T ++ ser_op (Copy off n)).
Proof.
  intros HR Hp Hm Hn Hfit T.
  destruct (delta_ops_slice R p n HR Hp Hm Hn Hfit) as (HT & off & H1 & H2 & H3 & H4).
  fold T in HT, H3, H4.
  exists off. split; [exact H1|]. split; [exact H2|]. split; [exact H3|].
  unfold BLK_SIZE in *.
  assert (HTne : T <> []) by (intros E; rewrite E in HT; change (len (@nil byte)) with 0 in HT; lia).
  assert (HRne : R <> []).
  { intros E. rewrite E in Hfit. change (len (@nil byte)) with 0 in Hfit. lia. }
  rewrite (diff_delta_total adler32 R T HRne HTne HR ltac:(lia)).
  rewrite H4. unfold ser_ops. cbn [map concat]. rewrite app_nil_r. reflexivity.
Qed.

End Identity.

Lemma bucket_index_in_table_witness :
  let bdf := delta_prepare Zlib.adler32 Examples.seventeen in
  0 <= HASH 0xdeadbeef (fphbits bdf) < len (fphash bdf)
  /\ len (fphash bdf) <= 2 ^ 27.
Proof.
  apply (bucket_index_in_table Zlib.adler32 Examples.seventeen 0xdeadbeef).
  vm_compute. reflexivity.
Defined.

Lemma index_holds_every_block_witness :
  let R := Examples.blk_a ++ Examples.blk_a in
  let bdf := delta_prepare Zlib.adler32 R in
  let r := {| fp := 5439494; ptr := 16 |} in
  (r ∈ bucket (fphash bdf) 2 <->
   exists j, 0 <= j /\ BLK_SIZE * j < len R
             /\ r = block_record Zlib.adler32 R (BLK_SIZE * j)
             /\ 2 = HASH (fp r) (fphbits bdf))
  /\ NoDup (bucket (fphash bdf) 2).
Proof.
  apply (index_holds_every_block Zlib.adler32
           (Examples.blk_a ++ Examples.blk_a) 2 {| fp := 5439494; ptr := 16 |}).
  - vm_compute. reflexivity.
  - vm_compute. split; [discriminate | reflexivity].
Defined.

Lemma aligned_block_found_witness :
  let R := Examples.blk_a ++ Examples.blk_a in
  let data := Examples.blk_a ++ [x07] in
  Z.min (len data) BLK_SIZE <= 16
  /\ 0 <= 0 /\ 0 + 16 <= len R
  /\ take (Z.to_nat 16) (drop (Z.to_nat 0) R) = take (Z.to_nat 16) data
  /\ (BLK_SIZE <= len data -> insert_path 16 0 = false).
Proof.
  apply (aligned_block_found Zlib.adler32 (Examples.blk_a ++ Examples.blk_a)
           (Examples.blk_a ++ [x07]) 16 0 16 0).
  - vm_compute. reflexivity.
  - discriminate.
  - vm_compute. split; [discriminate | reflexivity].
  - reflexivity.
  - reflexivity.
  - reflexivity.
  - vm_compute. reflexivity.
Defined.

Lemma identity_delta_witness :
  diff_delta Zlib.adler32 Examples.hello Examples.hello 0
  = Done (header Examples.hello Examples.hello
          ++ ser_op (if len Examples.hello =? 1 then Insert Examples.hello
                     else Copy 0 (len Examples.hello))).
Proof.
  apply (identity_delta Zlib.adler32 Examples.hello).
  vm_compute. split; discriminate.
Defined.

Lemma aligned_slice_one_copy_witness :
  let T := take (Z.to_nat 32) (drop (Z.to_nat 16) Examples.ramp) in
  exists off,
    0 <= off /\ off + 32 <= len Examples.ramp
    /\ take (Z.to_nat 32) (drop (Z.to_nat off) Examples.ramp) = T
    /\ diff_delta Zlib.adler32 Examples.ramp T 0
       = Done (header Examples.ramp T ++ ser_op (Copy off 32)).
Proof.
  apply (aligned_slice_one_copy Zlib.adler32 Examples.ramp 16 32).
  - vm_compute. reflexivity.
  - lia.
  - reflexivity.
  - vm_compute. split; discriminate.
  - vm_compute. discriminate.
Defined.

(** ** The opcodes account for the target *)

Lemma apply_ops_size (R : list byte) (ops : list op) :
  Forall (op_ok R) ops ->
  forall t, Applier.apply_ops R ops = Some t -> target_bytes ops = len t.
Proof.
  induction 1 as [|o ops Ho Hall IH]; intros t Ht.
  - inversion Ht. reflexivity.
  - cbn [Applier.apply_ops] in Ht.
    destruct (Applier.apply_op R o) as [a|] eqn:Ea; [|discriminate].
    rewrite bind_Some in Ht.
    destruct (Applier.apply_ops R ops) as [b|] eqn:Eb; [|discriminate].
    rewrite bind_Some in Ht. inversion Ht; subst t.
    unfold target_bytes. cbn [map foldr]. fold (target_bytes ops).
    rewrite (IH b eq_refl), len_app. f_equal.
    destruct o as [lits|off size]; cbn [op_size Applier.apply_op] in *.
    + inversion Ea. reflexivity.
    + destruct Ho as (H1 & H2 & H3).
      destruct ((0 <=? off) && (off + size <=? len R)); [|discriminate].
      inversion Ea. symmetry. apply len_take.
      rewrite len_drop by lia. lia.
Qed.

(** X7: the opcodes account for the target byte by byte: the lengths of the
    literal runs and the sizes of the copies that [diff_delta] decides on
    add up to [|T|]. *)
Theorem opcodes_cover_target (adler32 : Z -> list byte -> Z) (R T : list byte) :
  len R < 2 ^ 32 -> target_bytes (delta_ops adler32 R T) = len T.
Proof.
  intros HR. destruct (delta_ops_sound adler32 R HR T) as [Hok Happ].
  exact (apply_ops_size R _ Hok T Happ).
Qed.

Lemma opcodes_cover_target_witness :
  target_bytes (delta_ops Zlib.adler32 Examples.blk_a (u8 9 :: Examples.blk_b))
  = len (u8 9 :: Examples.blk_b).
Proof.
  apply (opcodes_cover_target Zlib.adler32 Examples.blk_a (u8 9 :: Examples.blk_b)).
  vm_compute. reflexivity.
Defined.

(** ** The framing of literal runs and the price of a copy *)

Section Framing.
Variable adler32 : Z -> list byte -> Z.

Lemma ops_loop_framed (bdf : bdfile) (ref_buf : list byte) (fuel : nat) :
  forall (moff : Z) (lits data : list byte),
    len lits < 0x7f ->
    let ops := ops_loop adler32 fuel bdf ref_buf moff lits data in
    Forall copy_pays ops /\ runs_merged ops
    /\ Forall (fun o => match o with
                        | Insert l => 1 <= len l <= 0x7f
                        | Copy _ _ => True
                        end) ops.
Proof.
  induction fuel as [|fuel IH]; intros moff lits data Hl; cbv zeta.
  - destruct data as [|b rest]; cbn [ops_loop].
    + destruct lits as [|c lits]; cbn [flush].
      * repeat split; constructor.
      * rewrite len_cons in Hl. pose proof (len_nonneg lits).
        repeat split; repeat constructor; rewrite ?len_cons; try lia; exact I.
    + repeat split; constructor.
  - destruct data as [|b rest]; cbn [ops_loop].
    + destruct lits as [|c lits]; cbn [flush].
      * repeat split; constructor.
      * rewrite len_cons in Hl. pose proof (len_nonneg lits).
        repeat split; repeat constructor; rewrite ?len_cons; try lia; exact I.
    + destruct (find_match adler32 bdf ref_buf (b :: rest) moff) as [msize moff'].
      destruct (insert_path msize moff') eqn:Hip.
      * pose proof (len_nonneg lits) as Hl0.
        assert (Hl' : len (lits ++ [b]) = len lits + 1)
          by (rewrite len_app, len_cons; reflexivity).
        destruct (Z.eqb_spec (len (lits ++ [b])) 0x7f) as [E|E].
        -- destruct (IH moff' [] rest nil_short) as (I1 & I2 & I3).
           split; [constructor; [exact I|exact I1]|].
           split; [|constructor; [lia|exact I3]].
           cbn [runs_merged]. split; [|exact I2].
           destruct (ops_loop adler32 fuel bdf ref_buf moff' [] rest) as [|[l|o s] tl];
             [exact I | exact E | exact I].
        -- apply IH. lia.
      * destruct (insert_path_false msize moff' Hip) as [Hz Hc].
        destruct (IH (moff_after moff') [] (drop (Z.to_nat msize) (b :: rest)) nil_short)
          as (I1 & I2 & I3).
        assert (Hpay : copy_pays (Copy moff' msize)).
        { unfold copy_pays, ser_op. rewrite len_cons.
          rewrite COPYOP_SIZE_fields in Hc. exact Hc. }
        destruct lits as [|c lits]; cbn [flush app].
        -- split; [constructor; [exact Hpay|exact I1]|].
           split; [|constructor; [exact I|exact I3]].
           cbn [runs_merged]. split; [exact I|exact I2].
        -- rewrite len_cons in Hl. pose proof (len_nonneg lits).
           split; [constructor; [exact I|constructor; [exact Hpay|exact I1]]|].
           split; [|constructor; [rewrite len_cons; lia|constructor; [exact I|exact I3]]].
           cbn [runs_merged]. split; [exact I|]. split; [exact I|exact I2].
Qed.

Lemma runs_merged_at (ops pre : list op) (l1 l2 : list byte) (post : list op) :
  runs_merged ops -> ops = pre ++ Insert l1 :: Insert l2 :: post ->
  len l1 = 0x7f.
Proof.
  revert ops. induction pre as [|o pre IH]; intros ops Hm ->.
  - cbn [app runs_merged] in Hm. apply Hm.
  - cbn [app runs_merged] in Hm. apply (IH _ (proj2 Hm) eq_refl).
Qed.

(** X8: the framing of literals.  Whatever the reference and the target,
    every literal run [diff_delta] decides on holds 1 to 127 bytes - its
    length byte is never the reserved [0x00] nor has the high bit that marks
    a copy - and a run is followed by another run only when it is full:
    [k] literal bytes in a row cost [k + ceil (k / 127)] bytes. *)
Theorem literal_runs_full (R T : list byte) :
  Forall (fun o => match o with
                   | Insert l => 1 <= len l <= 0x7f
                   | Copy _ _ => True
                   end) (delta_ops adler32 R T)
  /\ forall pre l1 l2 post,
       delta_ops adler32 R T = pre ++ Insert l1 :: Insert l2 :: post ->
       len l1 = 0x7f.
Proof.
  destruct (ops_loop_framed (delta_prepare adler32 R) R (length T) 0 [] T nil_short)
    as (_ & H2 & H3).
  split; [exact H3|].
  intros pre l1 l2 post E. exact (runs_merged_at _ pre l1 l2 post H2 E).
Qed.

(** X9: a copy pays for itself.  Every copy [diff_delta] decides on takes
    no more bytes on the wire than the bytes of the target it stands for;
    its wire length is [COPYOP_SIZE], between 1 and 7. *)
Theorem copies_pay (R T : list byte) :
  Forall copy_pays (delta_ops adler32 R T)
  /\ forall off size,
       len (ser_op (Copy off size)) = COPYOP_SIZE off size
       /\ 1 <= COPYOP_SIZE off size <= 7.
Proof.
  destruct (ops_loop_framed (delta_prepare adler32 R) R (length T) 0 [] T nil_short)
    as (H1 & _).
  split; [exact H1|]. intros off size. split.
  - unfold ser_op. rewrite len_cons, COPYOP_SIZE_fields. reflexivity.
  - apply COPYOP_SIZE_range.
Qed.

End Framing.

(** ** A target that shares no byte with the reference *)

Lemma match_run_disjoint (csize : Z) (p1 p2 : list byte) :
  (forall b, b ∈ p2 -> b ∉ p1) -> match_run csize p1 p2 = 0.
Proof.
  intros H. destruct p1 as [|a p1], p2 as [|b p2]; cbn [match_run]; try reflexivity.
  destruct (Byte.eqb a b) eqn:E; [|rewrite andb_false_r; reflexivity].
  apply Byte.byte_dec_bl in E. subst b. exfalso.
  apply (H a); apply elem_of_cons; left; reflexivity.
Qed.

Section Disjoint.
Variable adler32 : Z -> list byte -> Z.
Variables R : list byte.

Lemma walk_chain_disjoint (data : list byte) (tfp : Z) (chain : list bdrecord) :
  (forall b, b ∈ data -> b ∉ R) ->
  forall msize0 moff0, 0 <= msize0 ->
    walk_chain R data tfp chain msize0 moff0 = (msize0, moff0).
Proof.
  intros H. induction chain as [|r next IH]; intros msize0 moff0 H0;
    cbn [walk_chain]; [reflexivity|].
  destruct (fp r =? tfp); [|apply IH, H0].
  rewrite match_run_disjoint.
  - destruct (Z.gtb_spec 0 msize0); [lia|]. apply IH, H0.
  - intros b Hb Hin. apply (H b Hb). exact (subseteq_drop _ _ _ Hin).
Qed.

Lemma ops_loop_literal (bdf : bdfile) (fuel : nat) :
  forall (moff : Z) (lits data : list byte),
    (forall b, b ∈ data -> b ∉ R) ->
    (length data <= fuel)%nat -> len lits < 0x7f ->
    let ops := ops_loop adler32 fuel bdf R moff lits data in
    Forall is_insert ops
    /\ len (ser_ops ops)
       = len lits + len data + cdiv (len lits + len data) 0x7f.
Proof.
  unfold cdiv.
  induction fuel as [|fuel IH]; intros moff lits data Hd Hf Hl; cbv zeta;
    pose proof (len_nonneg lits) as Hl0.
  - destruct data as [|b rest]; [|cbn [length] in Hf; lia].
    cbn [ops_loop]. change (len (@nil byte)) with 0.
    destruct lits as [|c lits]; cbn [flush].
    + split; [constructor|]. reflexivity.
    + split; [repeat constructor|].
      unfold ser_ops. cbn [map concat ser_op]. rewrite app_nil_r.
      rewrite !len_cons in *. pose proof (len_nonneg lits).
      Z.div_mod_to_equations. lia.
  - destruct data as [|b rest].
    + cbn [ops_loop]. change (len (@nil byte)) with 0.
      destruct lits as [|c lits]; cbn [flush].
      * split; [constructor|]. reflexivity.
      * split; [repeat constructor|].
        unfold ser_ops. cbn [map concat ser_op]. rewrite app_nil_r.
        rewrite !len_cons in *. pose proof (len_nonneg lits).
        Z.div_mod_to_equations. lia.
    + cbn [ops_loop]. unfold find_match.
      rewrite (walk_chain_disjoint (b :: rest) _ _ Hd 0 moff ltac:(lia)).
      change (insert_path 0 moff) with true. cbv iota.
      assert (Hd' : forall x, x ∈ rest -> x ∉ R).
      { intros x Hx. apply Hd. apply elem_of_cons. right. exact Hx. }
      assert (Hf' : (length rest <= fuel)%nat) by (cbn [length] in Hf; lia).
      assert (Hl' : len (lits ++ [b]) = len lits + 1)
        by (rewrite len_app, len_cons; reflexivity).
      pose proof (len_nonneg rest) as Hr0.
      rewrite (len_cons b rest).
      destruct (Z.eqb_spec (len (lits ++ [b])) 0x7f) as [E|E].
      * destruct (IH moff [] rest Hd' Hf' nil_short) as [I1 I2].
        split; [constructor; [exact I|exact I1]|].
        rewrite ser_ops_cons, len_app, I2. cbn [ser_op]. rewrite len_cons, Hl'.
        change (len (@nil byte)) with 0.
        Z.div_mod_to_equations. lia.
      * destruct (IH moff (lits ++ [b]) rest Hd' Hf' ltac:(lia)) as [I1 I2].
        split; [exact I1|]. rewrite I2, Hl'.
        replace (len lits + 1 + len rest) with (len lits + (1 + len rest)) by lia.
        reflexivity.
Qed.

(** X10: a target that shares no byte with the reference is sent as
    literals only, in runs of 127 bytes and a last shorter one: the delta is
    the header and [|T| + ceil (|T| / 127)] bytes. *)
Theorem disjoint_target_all_literals (T : list byte) :
  R <> [] -> T <> [] -> len R < 2 ^ 31 -> len T <= 2 ^ 29 ->
  (forall b, b ∈ T -> b ∉ R) ->
  Forall is_insert (delta_ops adler32 R T)
  /\ exists d,
       diff_delta adler32 R T 0 = Done d
       /\ len d = header_size R T + len T + cdiv (len T) 0x7f.
Proof.
  intros HRne HTne HR HT Hd.
  destruct (ops_loop_literal (delta_prepare adler32 R) (length T) 0 [] T Hd
              (Nat.le_refl _) nil_short) as [H1 H2].
  split; [exact H1|].
  exists (header R T ++ ser_ops (delta_ops adler32 R T)).
  split; [apply diff_delta_total; assumption|].
  rewrite len_app. unfold delta_ops. rewrite H2.
  change (len (@nil byte)) with 0. unfold header_size. rewrite !Z.add_0_l. lia.
Qed.

End Disjoint.

Lemma disjoint_target_all_literals_witness :
  Forall is_insert (delta_ops Zlib.adler32 [x05; x06] [x07; x08; x07])
  /\ exists d,
       diff_delta Zlib.adler32 [x05; x06] [x07; x08; x07] 0 = Done d
       /\ len d = header_size [x05; x06] [x07; x08; x07]
                  + len [x07; x08; x07] + cdiv (len [x07; x08; x07]) 0x7f.
Proof.
  apply (disjoint_target_all_literals Zlib.adler32 [x05; x06] [x07; x08; x07]).
  - discriminate.
  - discriminate.
  - vm_compute. reflexivity.
  - vm_compute. discriminate.
  - intros b Hb Hin.
    repeat (apply elem_of_cons in Hb; destruct Hb as [->|Hb]);
      try (inversion Hb; fail);
      repeat (apply elem_of_cons in Hin; destruct Hin as [Hin|Hin];
              [discriminate Hin|]); inversion Hin.
Defined.

(** ** The copy path writes [COPYOP_SIZE] bytes *)

Lemma bind_Done_inv {A B} (m : run A) (f : A -> run B) (b : B) :
  m ≫= f = Done b -> exists a, m = Done a /\ f a = Done b.
Proof.
  destruct m as [a| | |]; intros H; try discriminate H.
  exists a. split; [reflexivity | exact H].
Qed.

Lemma put_if_inv (v flag : Z) (o : list byte) (p i : Z) (o' : list byte)
    (p' i' : Z) :
  put_if v flag (o, p, i) = Done (o', p', i') ->
  len o < 2 ^ 32 -> 0 <= p ->
  len o' = len o /\ p' = p + nz (Z.land v 0xff)
  /\ (p' = p \/ p' <= len o).
Proof.
  unfold put_if, nz. intros H Ho Hp.
  destruct (Z.land v 0xff =? 0).
  - rewrite ret_Done in H. inversion H; subst. repeat split; try lia.
  - apply bind_Done_inv in H. destruct H as (o1 & Hs & H).
    rewrite ret_Done in H. inversion H; subst.
    apply store_inv in Hs. destruct Hs as (Hb & _ & Hl).
    rewrite u32_small by lia. repeat split; try lia.
Qed.

Lemma close_insert_inv (st : enc_state) (out0 : list byte) :
  close_insert st = Done out0 -> len out0 = len (out st).
Proof.
  unfold close_insert. destruct (inscnt st =? 0).
  - rewrite ret_Done. intros H. inversion H. reflexivity.
  - intros H. apply store_inv in H. apply H.
Qed.

Lemma emit_copy_inv (st : enc_state) (msize moff' : Z) (st' : enc_state) :
  emit_copy st msize moff' = Done st' ->
  len (out st) < 2 ^ 32 -> 0 <= outpos st ->
  outpos st' = outpos st + COPYOP_SIZE moff' msize
  /\ outpos st' <= len (out st')
  /\ len (out st') = len (out st) /\ outsize st' = outsize st
  /\ inscnt st' = 0 /\ moff st' = moff_after moff'
  /\ data st' = drop (Z.to_nat msize) (data st).
Proof.
  unfold emit_copy. intros H Ho Hp.
  apply bind_Done_inv in H. destruct H as (out0 & H0 & H).
  apply close_insert_inv in H0.
  apply bind_Done_inv in H. destruct H as ([[o1 p1] i1] & H1 & H).
  apply bind_Done_inv in H. destruct H as ([[o2 p2] i2] & H2 & H).
  apply bind_Done_inv in H. destruct H as ([[o3 p3] i3] & H3 & H).
  apply bind_Done_inv in H. destruct H as ([[o4 p4] i4] & H4 & H).
  apply bind_Done_inv in H. destruct H as ([[o5 p5] i5] & H5 & H).
  apply bind_Done_inv in H. destruct H as ([[o6 p6] i6] & H6 & H).
  apply bind_Done_inv in H. destruct H as (out2 & Hs & H).
  rewrite ret_Done in H. inversion H; subst st'; clear H.
  cbn [out outsize outpos inscnt moff data].
  pose proof (u32_range (outpos st + 1)) as Hu.
  pose proof (nz_range (Z.land moff' 0xff)).
  pose proof (nz_range (Z.land (Z.shiftr moff' 8) 0xff)).
  pose proof (nz_range (Z.land (Z.shiftr (Z.shiftr moff' 8) 8) 0xff)).
  pose proof (nz_range (Z.land (Z.shiftr (Z.shiftr (Z.shiftr moff' 8) 8) 8) 0xff)).
  pose proof (nz_range (Z.land msize 0xff)).
  pose proof (nz_range (Z.land (Z.shiftr msize 8) 0xff)).
  apply put_if_inv in H1; [|lia|lia]. destruct H1 as (L1 & P1 & B1).
  apply put_if_inv in H2; [|lia|lia]. destruct H2 as (L2 & P2 & B2).
  apply put_if_inv in H3; [|lia|lia]. destruct H3 as (L3 & P3 & B3).
  apply put_if_inv in H4; [|lia|lia]. destruct H4 as (L4 & P4 & B4).
  apply put_if_inv in H5; [|lia|lia]. destruct H5 as (L5 & P5 & B5).
  apply put_if_inv in H6; [|lia|lia]. destruct H6 as (L6 & P6 & B6).
  apply store_inv in Hs. destruct Hs as (Hb & _ & Hl).
  rewrite u32_small in * by lia.
  rewrite COPYOP_SIZE_fields. unfold copy_fields.
  rewrite !len_app, !len_opt_byte.
  repeat split; try reflexivity; lia.
Qed.

(** X11: [COPYOP_SIZE] is the size of the copy opcode, as its comment says.
    Whenever the copy path runs to its end inside the buffer, it has
    advanced [outpos] by exactly [COPYOP_SIZE(moff, msize)], over the
    command byte and the offset and size bytes that are not zero; the new
    [outpos] is still inside the buffer, the open literal run is closed and
    the target has advanced by [msize]. *)
Theorem copy_opcode_size (st : enc_state) (msize moff' : Z) (st' : enc_state) :
  emit_copy st msize moff' = Done st' ->
  len (out st) < 2 ^ 32 -> 0 <= outpos st ->
  outpos st' = outpos st + COPYOP_SIZE moff' msize
  /\ outpos st' <= len (out st')
  /\ inscnt st' = 0
  /\ data st' = drop (Z.to_nat msize) (data st).
Proof.
  intros H Ho Hp.
  destruct (emit_copy_inv st msize moff' st' H Ho Hp) as (H1 & H2 & _ & _ & H5 & _ & H7).
  repeat split; assumption.
Qed.

Lemma copy_opcode_size_witness :
  exists st',
    emit_copy hello_state 11 0 = Done st'
    /\ outpos st' = outpos hello_state + COPYOP_SIZE 0 11
    /\ outpos st' <= len (out st')
    /\ inscnt st' = 0
    /\ data st' = drop (Z.to_nat 11) (data hello_state).
Proof.
  eexists. split; [vm_compute; reflexivity|].
  apply (copy_opcode_size hello_state 11 0).
  - vm_compute. reflexivity.
  - vm_compute. reflexivity.
  - vm_compute. discriminate.
Defined.

(** ** Every pass of the main loop advances *)

Lemma emit_insert_inv (st : enc_state) (moff' : Z) (b : byte)
    (rest : list byte) (st' : enc_state) :
  emit_insert st moff' b rest = Done st' ->
  data st' = rest /\ moff st' = moff' /\ outsize st' = outsize st.
Proof.
  unfold emit_insert. intros H.
  apply bind_Done_inv in H. destruct H as (out1 & _ & H).
  destruct (u32 (inscnt st + 1) =? 0x7f).
  - apply bind_Done_inv in H. destruct H as (out2 & _ & H).
    rewrite ret_Done in H. inversion H. repeat split.
  - rewrite ret_Done in H. inversion H. repeat split.
Qed.

Lemma grow_inv (max_size : Z) (st st' : enc_state) :
  grow max_size st = Done st' ->
  data st' = data st /\ moff st' = moff st /\ outpos st' = outpos st
  /\ inscnt st' = inscnt st.
Proof.
  unfold grow. intros H.
  destruct (outpos st >=? u32 (outsize st - MAX_OP_SIZE)).
  - destruct (negb (max_size =? 0) && (outpos st >? max_size)); [discriminate|].
    rewrite ret_Done in H. inversion H. repeat split.
  - rewrite ret_Done in H. inversion H. repeat split.
Qed.

Section Progress.
Variable adler32 : Z -> list byte -> Z.

(** X12: every pass of the main loop advances.  Whatever the index, the
    state and the cap, an iteration that completes has consumed at least one
    byte of the target and at most [0x10000], so the loop
    [while (data < top)] ends after at most [|T|] passes. *)
Theorem iteration_advances (bdf : bdfile) (R : list byte) (max_size : Z)
    (st st' : enc_state) :
  data st <> [] ->
  iteration adler32 bdf R max_size st = Done st' ->
  exists k, 1 <= k <= 0x10000 /\ k <= len (data st)
            /\ data st' = drop (Z.to_nat k) (data st).
Proof.
  intros Hne H. unfold iteration in H.
  destruct (data st) as [|b rest] eqn:Ed; [contradiction|].
  destruct (find_match adler32 bdf R (b :: rest) (moff st)) as [msize moff'] eqn:Hf.
  apply bind_Done_inv in H. destruct H as (st1 & H1 & Hg).
  apply grow_inv in Hg. destruct Hg as (Hd & _).
  destruct (find_match_size adler32 bdf R (b :: rest) (moff st) msize moff' Hf)
    as [Hs1 Hs2].
  destruct (insert_path msize moff') eqn:Hip.
  - apply emit_insert_inv in H1. destruct H1 as (H1 & _).
    exists 1. rewrite len_cons. pose proof (len_nonneg rest).
    repeat split; try lia. rewrite Hd, H1. reflexivity.
  - destruct (insert_path_false msize moff' Hip) as [Hz _].
    exists msize. repeat split; try lia.
    rewrite Hd. unfold emit_copy in H1.
    apply bind_Done_inv in H1. destruct H1 as (out0 & _ & H1).
    apply bind_Done_inv in H1. destruct H1 as ([[o1 p1] i1] & _ & H1).
    apply bind_Done_inv in H1. destruct H1 as ([[o2 p2] i2] & _ & H1).
    apply bind_Done_inv in H1. destruct H1 as ([[o3 p3] i3] & _ & H1).
    apply bind_Done_inv in H1. destruct H1 as ([[o4 p4] i4] & _ & H1).
    apply bind_Done_inv in H1. destruct H1 as ([[o5 p5] i5] & _ & H1).
    apply bind_Done_inv in H1. destruct H1 as ([[o6 p6] i6] & _ & H1).
    apply bind_Done_inv in H1. destruct H1 as (out2 & _ & H1).
    rewrite ret_Done in H1. inversion H1. cbn [data]. rewrite Ed. reflexivity.
Qed.

End Progress.

Lemma iteration_advances_witness :
  exists st' k,
    iteration Zlib.adler32 (delta_prepare Zlib.adler32 Examples.hello)
      Examples.hello 0 hello_state = Done st'
    /\ 1 <= k <= 0x10000 /\ k <= len (data hello_state)
    /\ data st' = drop (Z.to_nat k) (data hello_state).
Proof.
  destruct (iteration Zlib.adler32 (delta_prepare Zlib.adler32 Examples.hello)
              Examples.hello 0 hello_state) as [st'| | |] eqn:E;
    try (vm_compute in E; discriminate E).
  exists st'.
  destruct (iteration_advances Zlib.adler32
              (delta_prepare Zlib.adler32 Examples.hello) Examples.hello 0
              hello_state st') as (k & Hk).
  - discriminate.
  - exact E.
  - exists k. split; [reflexivity | exact Hk].
Defined.

(** ** Stores stay inside the buffer; the cap *)

Section Safety.
Variable adler32 : Z -> list byte -> Z.

(** X13: no store outside the output buffer without a cap, nor under a cap
    of nine bytes or more.  For such a [max_size] every store of
    [diff_delta] lands inside the buffer allocated for it, the loop ends,
    and the call returns a delta or null. *)
Theorem stores_inside_buffer (R T : list byte) (max_size : Z) :
  R <> [] -> T <> [] -> len R < 2 ^ 31 -> len T <= 2 ^ 29 ->
  max_size = 0 \/ 9 <= max_size ->
  (exists d, diff_delta adler32 R T max_size = Done d)
  \/ diff_delta adler32 R T max_size = ReturnNull.
Proof.
  intros HRne HTne HR HT Hm.
  pose proof (diff_delta_spec adler32 R T max_size HRne HTne HR HT ltac:(lia)) as H.
  pose proof (header_size_range R T HR HT) as Hh.
  destruct (diff_delta adler32 R T max_size) as [d| |i c|].
  - left. exists d. reflexivity.
  - right. reflexivity.
  - lia.
  - destruct H.
Qed.

(** X14: raising the cap never loses a delta.  A delta returned under a
    cap [m > 0] is returned, byte for byte, under every larger cap. *)
Theorem cap_monotone (R T : list byte) (m m' : Z) (d : list byte) :
  R <> [] -> T <> [] -> len R < 2 ^ 31 -> len T <= 2 ^ 29 ->
  0 < m <= m' ->
  diff_delta adler32 R T m = Done d ->
  diff_delta adler32 R T m' = Done d.
Proof.
  intros HRne HTne HR HT Hm Hd.
  pose proof (diff_delta_spec adler32 R T m HRne HTne HR HT ltac:(lia)) as H.
  rewrite Hd in H. destruct H as (Ed & _ & Hlen). specialize (Hlen ltac:(lia)).
  pose proof (diff_delta_spec adler32 R T m' HRne HTne HR HT ltac:(lia)) as H'.
  assert (Hh : header_size R T <= len d).
  { rewrite Ed, len_app. unfold header_size.
    pose proof (len_nonneg (ser_ops (delta_ops adler32 R T))). lia. }
  destruct (diff_delta adler32 R T m') as [d'| |i c|].
  - destruct H' as (-> & _). rewrite Ed. reflexivity.
  - rewrite <- Ed in H'. lia.
  - lia.
  - destruct H'.
Qed.

(** X15: the cap, exactly.  Under a cap [m] of nine bytes or more the call
    returns the delta it would return without a cap when that delta is at
    most [m] bytes long, a delta of exactly [m] bytes included, and null
    when it is longer. *)
Theorem cap_exact (R T : list byte) (m : Z) :
  R <> [] -> T <> [] -> len R < 2 ^ 31 -> len T <= 2 ^ 29 -> 9 <= m ->
  let d0 := header R T ++ ser_ops (delta_ops adler32 R T) in
  diff_delta adler32 R T 0 = Done d0
  /\ diff_delta adler32 R T m = if len d0 <=? m then Done d0 else ReturnNull.
Proof.
  intros HRne HTne HR HT Hm d0.
  split; [apply diff_delta_total; assumption|].
  pose proof (diff_delta_spec adler32 R T m HRne HTne HR HT ltac:(lia)) as H.
  pose proof (header_size_range R T HR HT) as Hh.
  fold d0 in H.
  destruct (diff_delta adler32 R T m) as [d| |i c|].
  - destruct H as (-> & _ & Hlen). specialize (Hlen ltac:(lia)).
    destruct (Z.leb_spec (len d0) m); [reflexivity | lia].
  - destruct H as [_ H]. destruct (Z.leb_spec (len d0) m); [lia | reflexivity].
  - lia.
  - destruct H.
Qed.

(** X16: every delta that is returned rebuilds the target.  Whatever the
    cap, a delta that [diff_delta] returns for a non-empty reference and a
    non-empty target is rebuilt into the target by the applier of section 6,
    and it announces the two sizes in its header. *)
Theorem returned_delta_round_trips (R T : list byte) (max_size : Z)
    (d : list byte) :
  R <> [] -> T <> [] -> len R < 2 ^ 31 -> len T <= 2 ^ 29 -> 0 <= max_size ->
  diff_delta adler32 R T max_size = Done d ->
  Applier.patch_delta R d = Some T
  /\ exists body, d = size_bytes (len R) ++ size_bytes (len T) ++ body.
Proof.
  intros HRne HTne HR HT Hm Hd.
  pose proof (diff_delta_spec adler32 R T max_size HRne HTne HR HT Hm) as H.
  rewrite Hd in H. destruct H as (-> & _).
  split; [apply patch_delta_ops; lia|].
  exists (ser_ops (delta_ops adler32 R T)). unfold header.
  rewrite <- app_assoc. reflexivity.
Qed.

End Safety.

Lemma returned_delta_round_trips_witness :
  Applier.patch_delta Examples.hello (map u8 [11; 11; 144; 11])
  = Some Examples.hello
  /\ exists body,
       map u8 [11; 11; 144; 11]
       = size_bytes (len Examples.hello) ++ size_bytes (len Examples.hello)
         ++ body.
Proof.
  apply (returned_delta_round_trips Zlib.adler32 Examples.hello Examples.hello 4).
  - discriminate.
  - discriminate.
  - vm_compute. reflexivity.
  - vm_compute. discriminate.
  - lia.
  - vm_compute. reflexivity.
Defined.

Lemma cap_exact_witness :
  let d0 := header Examples.blk_a (u8 9 :: Examples.blk_b)
            ++ ser_ops (delta_ops Zlib.adler32 Examples.blk_a
                          (u8 9 :: Examples.blk_b)) in
  diff_delta Zlib.adler32 Examples.blk_a (u8 9 :: Examples.blk_b) 0 = Done d0
  /\ diff_delta Zlib.adler32 Examples.blk_a (u8 9 :: Examples.blk_b) 21
     = if len d0 <=? 21 then Done d0 else ReturnNull.
Proof.
  apply (cap_exact Zlib.adler32 Examples.blk_a (u8 9 :: Examples.blk_b) 21).
  - discriminate.
  - discriminate.
  - vm_compute. reflexivity.
  - vm_compute. discriminate.
  - lia.
Defined.

Lemma stores_inside_buffer_witness :
  (exists d, diff_delta Zlib.adler32 Examples.ramp Examples.ramp_tail 9 = Done d)
  \/ diff_delta Zlib.adler32 Examples.ramp Examples.ramp_tail 9 = ReturnNull.
Proof.
  apply (stores_inside_buffer Zlib.adler32 Examples.ramp Examples.ramp_tail 9).
  - discriminate.
  - discriminate.
  - vm_compute. reflexivity.
  - vm_compute. discriminate.
  - right. lia.
Defined.

Lemma cap_monotone_witness :
  diff_delta Zlib.adler32 Examples.hello Examples.hello 100
  = Done (map u8 [11; 11; 144; 11]).
Proof.
  apply (cap_monotone Zlib.adler32 Examples.hello Examples.hello 4 100).
  - discriminate.
  - discriminate.
  - vm_compute. reflexivity.
  - vm_compute. discriminate.
  - lia.
  - vm_compute. reflexivity.
Defined.

(** ** The heap *)

Lemma mem_bind_unfold {A B} (m : mem A) (f : A -> mem B) (h : heap) :
  (m ≫= f) h
  = match m h with
    | Ret a h' => f a h'
    | Undefined => Undefined
    | Unfinished => Unfinished
    end.
Proof. reflexivity. Qed.

Lemma mem_ret_unfold {A} (a : A) (h : heap) : (mret a : mem A) h = Ret a h.
Proof. reflexivity. Qed.

Lemma mem_bind_Ret {A B} (m : mem A) (f : A -> mem B) (h h' : heap) (a : A) :
  m h = Ret a h' -> (m ≫= f) h = f a h'.
Proof. intros E. rewrite mem_bind_unfold, E. reflexivity. Qed.

Lemma owns_refl (h : heap) : heap_ok h -> owns h h [].
Proof.
  intros Hok. split; auto.
  - intros b Hb. inversion Hb.
  - constructor.
Qed.

Lemma owns_done (h0 h : heap) : owns h0 h [] -> live h = live h0.
Proof.
  intros O. apply map_eq. intros b. apply (owns_rest _ _ _ O).
  intros Hb. inversion Hb.
Qed.

Lemma owns_one (h0 h : heap) (b : nat) (size : Z) :
  owns h0 h [b] -> live h !! b = Some size ->
  live h0 !! b = None /\ live h = <[b := size]> (live h0).
Proof.
  intros O Hs.
  assert (Hb : live h0 !! b = None).
  { apply (owns_old _ _ _ O). apply (owns_new _ _ _ O).
    apply elem_of_cons. left. reflexivity. }
  split; [exact Hb|]. apply map_eq. intros b'.
  destruct (decide (b' = b)) as [->|Hne].
  - rewrite lookup_insert_eq. exact Hs.
  - rewrite lookup_insert_ne by congruence.
    apply (owns_rest _ _ _ O). intros Hin.
    apply elem_of_cons in Hin. destruct Hin as [?|Hin]; [congruence|inversion Hin].
Qed.

Lemma owns_fresh (h0 h : heap) (bs : list nat) :
  owns h0 h bs -> calls h ∉ bs.
Proof.
  intros O Hin. destruct (owns_new _ _ _ O _ Hin) as [_ [x Hx]].
  rewrite (owns_ok _ _ _ O (calls h)) in Hx by lia. discriminate.
Qed.

Section Heap.
Variable avail : nat -> bool.

Lemma malloc_cases (size : Z) (h : heap) :
  (avail (calls h) = true
   /\ malloc avail size h
      = Ret (Some (calls h))
          {| calls := S (calls h); live := <[calls h := size]> (live h) |})
  \/ (avail (calls h) = false
      /\ malloc avail size h
         = Ret None {| calls := S (calls h); live := live h |}).
Proof. unfold malloc. destruct (avail (calls h)); [left|right]; split; reflexivity. Qed.

Lemma owns_malloc (h0 h : heap) (bs : list nat) (size : Z) :
  owns h0 h bs ->
  owns h0 {| calls := S (calls h); live := <[calls h := size]> (live h) |}
    (calls h :: bs).
Proof.
  intros O. pose proof (owns_fresh _ _ _ O) as Hf.
  split; unfold heap_ok; cbn [calls live].
  - apply (owns_old _ _ _ O).
  - intros b Hb. rewrite lookup_insert_ne by lia.
    apply (owns_ok _ _ _ O). lia.
  - pose proof (owns_calls _ _ _ O). lia.
  - intros b Hb. apply elem_of_cons in Hb. destruct Hb as [->|Hb].
    + split; [apply (owns_calls _ _ _ O)|]. rewrite lookup_insert_eq. eauto.
    + destruct (owns_new _ _ _ O b Hb) as [H1 H2]. split; [exact H1|].
      rewrite lookup_insert_ne; [exact H2|]. intros <-. contradiction.
  - intros b Hb. rewrite not_elem_of_cons in Hb. destruct Hb as [Hne Hb].
    rewrite lookup_insert_ne by congruence. apply (owns_rest _ _ _ O b Hb).
  - constructor; [exact Hf | apply (owns_nodup _ _ _ O)].
Qed.

Lemma owns_malloc_fail (h0 h : heap) (bs : list nat) :
  owns h0 h bs -> owns h0 {| calls := S (calls h); live := live h |} bs.
Proof.
  intros O. split; unfold heap_ok; cbn [calls live].
  - apply (owns_old _ _ _ O).
  - intros b Hb. apply (owns_ok _ _ _ O). lia.
  - pose proof (owns_calls _ _ _ O). lia.
  - apply (owns_new _ _ _ O).
  - apply (owns_rest _ _ _ O).
  - apply (owns_nodup _ _ _ O).
Qed.

Lemma owns_free (h0 h : heap) (l1 : list nat) (b : nat) (l2 : list nat) :
  owns h0 h (l1 ++ b :: l2) ->
  free b h = Ret tt {| calls := calls h; live := delete b (live h) |}
  /\ owns h0 {| calls := calls h; live := delete b (live h) |} (l1 ++ l2).
Proof.
  intros O.
  assert (Hin : b ∈ l1 ++ b :: l2).
  { apply elem_of_app. right. apply elem_of_cons. left. reflexivity. }
  destruct (owns_new _ _ _ O b Hin) as [Hge [x Hx]].
  pose proof (owns_nodup _ _ _ O) as Hnd.
  apply NoDup_app in Hnd. destruct Hnd as (Hn1 & Hn12 & Hn2).
  apply NoDup_cons in Hn2. destruct Hn2 as [Hb2 Hn2].
  assert (Hb1 : b ∉ l1).
  { intros H1. apply (Hn12 b H1). apply elem_of_cons. left. reflexivity. }
  split.
  - unfold free. rewrite Hx. reflexivity.
  - split; unfold heap_ok; cbn [calls live].
    + apply (owns_old _ _ _ O).
    + intros b' Hb'. rewrite lookup_delete_ne.
      * apply (owns_ok _ _ _ O). exact Hb'.
      * intros <-. rewrite (owns_ok _ _ _ O b Hb') in Hx. discriminate.
    + apply (owns_calls _ _ _ O).
    + intros b' Hb'.
      assert (Hne : b' <> b).
      { intros ->. apply elem_of_app in Hb'. destruct Hb'; contradiction. }
      assert (Hin' : b' ∈ l1 ++ b :: l2).
      { apply elem_of_app in Hb'. apply elem_of_app.
        destruct Hb' as [?|?]; [left; assumption|].
        right. apply elem_of_cons. right. assumption. }
      destruct (owns_new _ _ _ O b' Hin') as [H1 H2]. split; [exact H1|].
      rewrite lookup_delete_ne by congruence. exact H2.
    + intros b' Hb'. destruct (decide (b' = b)) as [->|Hne].
      * rewrite lookup_delete_eq. symmetry. apply (owns_old _ _ _ O). exact Hge.
      * rewrite lookup_delete_ne by congruence. apply (owns_rest _ _ _ O).
        intros H. apply Hb'. apply elem_of_app in H. apply elem_of_app.
        destruct H as [?|H]; [left; assumption|].
        apply elem_of_cons in H. destruct H as [?|?]; [contradiction|].
        right. assumption.
    + apply NoDup_app. repeat split; try assumption.
      intros x' H1 H2. apply (Hn12 x' H1). apply elem_of_cons. right. exact H2.
Qed.

Lemma owns_realloc (h0 h : heap) (b : nat) (bs : list nat) (size : Z) :
  owns h0 h (b :: bs) ->
  (avail (calls h) = true
   /\ realloc avail b size h
      = Ret (Some (calls h))
          {| calls := S (calls h);
             live := <[calls h := size]> (delete b (live h)) |}
   /\ owns h0 {| calls := S (calls h);
                 live := <[calls h := size]> (delete b (live h)) |}
        (calls h :: bs))
  \/ (avail (calls h) = false
      /\ realloc avail b size h
         = Ret None {| calls := S (calls h); live := live h |}
      /\ owns h0 {| calls := S (calls h); live := live h |} (b :: bs)).
Proof.
  intros O.
  destruct (owns_new _ _ _ O b ltac:(apply elem_of_cons; left; reflexivity))
    as [Hge [x Hx]].
  unfold realloc. rewrite Hx.
  destruct (avail (calls h)) eqn:Ea; [left|right].
  - split; [reflexivity|]. split; [reflexivity|].
    destruct (owns_free h0 h [] b bs O) as [_ O'].
    exact (owns_malloc h0 _ bs size O').
  - split; [reflexivity|]. split; [reflexivity|].
    apply owns_malloc_fail, O.
Qed.

(** *** The arena *)

Lemma cha_free_loop_owned (h0 : heap) (cur : list chanode) :
  forall (h : heap) (l1 l2 : list nat),
    owns h0 h (l1 ++ map node_block cur ++ l2) ->
    exists h',
      cha_free_loop cur h = Ret tt h' /\ owns h0 h' (l1 ++ l2)
      /\ calls h' = calls h
      /\ forall b, b ∉ map node_block cur -> live h' !! b = live h !! b.
Proof.
  induction cur as [|tmp cur IH]; intros h l1 l2 O.
  - exists h. split; [reflexivity|]. split; [exact O|]. split; reflexivity.
  - cbn [map app] in O. destruct (owns_free h0 h l1 _ _ O) as [Hf O'].
    destruct (IH _ l1 l2 O') as (h' & Hc & O'' & Hcalls & Hlive).
    exists h'. cbn [cha_free_loop].
    rewrite (mem_bind_Ret _ _ _ _ _ Hf).
    split; [exact Hc|]. split; [exact O''|]. split; [exact Hcalls|].
    intros b Hb. cbn [map] in Hb. rewrite not_elem_of_cons in Hb.
    destruct Hb as [Hne Hb]. rewrite (Hlive b Hb). cbn [live].
    apply lookup_delete_ne. congruence.
Qed.

Lemma delta_cleanup_owned (h0 h : heap) (bdf : bdfile_mem) (l1 : list nat) :
  owns h0 h (l1 ++ chunks (cha bdf) ++ [fphash_block bdf]) ->
  exists h',
    delta_cleanup bdf h = Ret tt h' /\ owns h0 h' l1
    /\ calls h' = calls h
    /\ forall b, b ∈ l1 -> live h' !! b = live h !! b.
Proof.
  intros O. unfold delta_cleanup, cha_free.
  pose proof (owns_nodup _ _ _ O) as Hnd.
  rewrite app_assoc in O.
  destruct (owns_free h0 h _ _ [] O) as [Hf O1].
  rewrite app_nil_r in O1.
  rewrite (mem_bind_Ret _ _ _ _ _ Hf).
  assert (O1' : owns h0 {| calls := calls h; live := delete (fphash_block bdf) (live h) |}
                  (l1 ++ map node_block (ancur (cha bdf)) ++ []))
    by (rewrite app_nil_r; exact O1).
  destruct (cha_free_loop_owned h0 _ _ l1 [] O1') as (h' & Hc & O2 & Hcalls & Hlive).
  rewrite app_nil_r in O2.
  exists h'. split; [exact Hc|]. split; [exact O2|]. split; [exact Hcalls|].
  intros b Hb.
  apply NoDup_app in Hnd. destruct Hnd as (_ & Hdis & _).
  specialize (Hdis b Hb).
  rewrite Hlive.
  - cbn [live]. apply lookup_delete_ne. intros <-. apply Hdis.
    apply elem_of_app. right. apply elem_of_cons. left. reflexivity.
  - intros Hin. apply Hdis. apply elem_of_app. left. exact Hin.
Qed.

End Heap.

(** ** The arena allocator *)

Lemma node_unique (l : list chanode) (n n' : chanode) :
  NoDup (map node_block l) -> n ∈ l -> n' ∈ l ->
  node_block n = node_block n' -> n = n'.
Proof.
  induction l as [|x l IH]; intros Hnd Hn Hn' E; [inversion Hn|].
  cbn [map] in Hnd. apply NoDup_cons in Hnd. destruct Hnd as [Hx Hnd].
  apply elem_of_cons in Hn, Hn'.
  destruct Hn as [->|Hn], Hn' as [->|Hn'].
  - reflexivity.
  - exfalso. apply Hx. rewrite E. apply list_elem_of_fmap. exists n'. auto.
  - exfalso. apply Hx. rewrite <- E. apply list_elem_of_fmap. exists n. auto.
  - apply IH; assumption.
Qed.

Lemma arena_inv_perm (cha : chastore) (h : heap) (S S' : list address) :
  S ≡ₚ S' -> arena_inv cha h S -> arena_inv cha h S'.
Proof.
  intros P I. split.
  - apply (arena_isize _ _ _ I).
  - apply (arena_nsize _ _ _ I).
  - apply (arena_nodes _ _ _ I).
  - pose proof (arena_shape _ _ _ I) as Hs.
    destruct (ancur cha) as [|n rest].
    + subst S. symmetry. apply Permutation_nil_l. exact P.
    + unfold len in *. rewrite <- (Permutation_length P). exact Hs.
  - rewrite <- P. apply (arena_nodup _ _ _ I).
  - intros a Ha. rewrite <- P in Ha. apply (arena_slots _ _ _ I a Ha).
Qed.

Lemma arena_inv_heap (cha : chastore) (h h' : heap) (S : list address) :
  (forall b x, live h !! b = Some x -> b ∈ chunks cha -> live h' !! b = Some x) ->
  arena_inv cha h S -> arena_inv cha h' S.
Proof.
  intros Hh I. split.
  - apply (arena_isize _ _ _ I).
  - apply (arena_nsize _ _ _ I).
  - intros n Hn. destruct (arena_nodes _ _ _ I n Hn) as [H1 H2].
    split; [|exact H2]. apply Hh; [exact H1|].
    unfold chunks. apply list_elem_of_fmap. exists n. auto.
  - apply (arena_shape _ _ _ I).
  - apply (arena_nodup _ _ _ I).
  - apply (arena_slots _ _ _ I).
Qed.

(** Lines 76-78 on a node that is not full. *)
Lemma cha_take_inv (cha : chastore) (h : heap) (S : list address)
    (n : chanode) (next : list chanode) :
  NoDup (node_block n :: map node_block next) ->
  0 < isize cha ->
  (exists icount, 0 < icount /\ nsize cha = icount * isize cha) ->
  live h !! node_block n = Some (sizeof_chanode_t + nsize cha) ->
  (exists j, 0 <= j /\ icurr n = j * isize cha /\ icurr n + isize cha <= nsize cha) ->
  (forall n', n' ∈ next ->
     live h !! node_block n' = Some (sizeof_chanode_t + nsize cha)
     /\ exists j, 0 <= j /\ icurr n' = j * isize cha /\ icurr n' <= nsize cha) ->
  Forall (fun n' => icurr n' = nsize cha) next ->
  len S * isize cha = icurr n + len next * nsize cha ->
  NoDup S ->
  (forall a, a ∈ S ->
     exists n' j, n' ∈ n :: next /\ node_block n' = a.1
       /\ 0 <= j /\ a.2 = sizeof_chanode_t + j * isize cha
       /\ a.2 + isize cha <= sizeof_chanode_t + icurr n') ->
  arena_inv (cha_take cha n next).2 h
    ((node_block n, sizeof_chanode_t + icurr n) :: S).
Proof.
  intros Hnd Hi Hns Hlive (j & Hj & Hic & Hroom) Hnext Hfull Hcount HndS Hslots.
  set (n1 := {| node_block := node_block n; icurr := icurr n + isize cha |}).
  split; cbn [cha_take snd isize nsize ancur]; fold n1.
  - exact Hi.
  - exact Hns.
  - intros n' Hn'. apply elem_of_cons in Hn'. destruct Hn' as [->|Hn'].
    + cbn [n1 node_block icurr]. split; [exact Hlive|].
      exists (j + 1). split; [lia|]. split; [lia | exact Hroom].
    + apply Hnext, Hn'.
  - cbn [n1 icurr]. split; [lia|]. split; [exact Hfull|].
    rewrite len_cons. lia.
  - constructor; [|exact HndS]. intros Hin.
    destruct (Hslots _ Hin) as (n' & j' & Hn' & Hb & _ & _ & Hle).
    cbn [fst snd] in Hb, Hle.
    assert (n' = n).
    { apply (node_unique (n :: next)); try assumption.
      apply elem_of_cons. left. reflexivity. }
    subst n'. lia.
  - intros a Ha. apply elem_of_cons in Ha. destruct Ha as [->|Ha].
    + exists n1, j. cbn [fst snd n1 node_block icurr].
      split; [apply elem_of_cons; left; reflexivity|].
      split; [reflexivity|]. split; [exact Hj|]. split; lia.
    + destruct (Hslots a Ha) as (n' & j' & Hn' & Hb & Hj' & Ho & Hle).
      apply elem_of_cons in Hn'. destruct Hn' as [->|Hn'].
      * exists n1, j'. cbn [n1 node_block icurr].
        split; [apply elem_of_cons; left; reflexivity|].
        split; [exact Hb|]. split; [exact Hj'|]. split; [exact Ho|lia].
      * exists n', j'. split; [apply elem_of_cons; right; exact Hn'|].
        split; [exact Hb|]. split; [exact Hj'|]. split; [exact Ho|exact Hle].
Qed.

Section Arena.
Variable avail : nat -> bool.

Lemma cha_fresh_spec (h0 h : heap) (bs : list nat) (cha : chastore)
    (S : list address) :
  owns h0 h (chunks cha ++ bs) -> arena_inv cha h S ->
  match ancur cha with
  | [] => True
  | n :: _ => icurr n = nsize cha
  end ->
  match cha_fresh avail cha h with
  | Ret (Some a, cha') h' =>
      owns h0 h' (chunks cha' ++ bs) /\ arena_inv cha' h' (a :: S)
      /\ (forall b x, live h !! b = Some x -> live h' !! b = Some x)
      /\ isize cha' = isize cha /\ nsize cha' = nsize cha
      /\ len (ancur cha') <= len (ancur cha) + 1
      /\ (calls h <= calls h')%nat
  | Ret (None, cha') h' =>
      cha' = cha /\ owns h0 h' (chunks cha ++ bs)
      /\ avail (calls h) = false /\ calls h' = Datatypes.S (calls h)
  | _ => False
  end.
Proof.
  intros O I Hfull. unfold cha_fresh. rewrite mem_bind_unfold.
  destruct (malloc_cases avail (sizeof_chanode_t + nsize cha) h) as [[Ea E]|[Ea E]];
    rewrite E.
  - rewrite mem_ret_unfold. cbn [cha_take].
    set (h' := {| calls := Datatypes.S (calls h);
                  live := <[calls h := sizeof_chanode_t + nsize cha]> (live h) |}).
    pose proof (owns_malloc h0 h _ (sizeof_chanode_t + nsize cha) O) as O'.
    fold h' in O'.
    assert (Hkeep : forall b x, live h !! b = Some x -> live h' !! b = Some x).
    { intros b x Hx. unfold h'; cbn [live]. rewrite lookup_insert_ne; [exact Hx|].
      intros <-. rewrite (owns_ok _ _ _ O (calls h)) in Hx by lia. discriminate. }
    split; [exact O'|]. split; [|split; [exact Hkeep|]].
    + pose proof (arena_nsize _ _ _ I) as (icount & Hic & Hn).
      pose proof (arena_isize _ _ _ I) as Hi.
      assert (I' : arena_inv cha h' S).
      { apply (arena_inv_heap cha h h'); [|exact I]. intros b x Hx _. apply Hkeep, Hx. }
      apply (cha_take_inv cha h' S {| node_block := calls h; icurr := 0 |} (ancur cha)).
      * cbn [node_block]. pose proof (owns_nodup _ _ _ O') as Hnd.
        cbn [app] in Hnd. rewrite app_comm_cons in Hnd.
        apply NoDup_app in Hnd. apply Hnd.
      * exact Hi.
      * exists icount. auto.
      * cbn [node_block]. unfold h'; cbn [live]. apply lookup_insert_eq.
      * exists 0. cbn [icurr]. split; [lia|]. split; [lia|]. nia.
      * apply (arena_nodes _ _ _ I').
      * pose proof (arena_shape _ _ _ I) as Hs.
        destruct (ancur cha) as [|n rest]; [constructor|].
        destruct Hs as (_ & Hf & _). constructor; [exact Hfull | exact Hf].
      * pose proof (arena_shape _ _ _ I) as Hs. cbn [icurr].
        destruct (ancur cha) as [|n rest].
        -- subst S. reflexivity.
        -- destruct Hs as (_ & _ & Hc). rewrite len_cons, Hc, Hfull. lia.
      * apply (arena_nodup _ _ _ I).
      * intros a Ha. destruct (arena_slots _ _ _ I a Ha) as (n' & j' & Hn' & Hrest).
        exists n', j'. split; [apply elem_of_cons; right; exact Hn'|exact Hrest].
    + cbn [isize nsize ancur]. rewrite len_cons. unfold h'. cbn [calls].
      repeat split; lia.
  - rewrite mem_ret_unfold. split; [reflexivity|].
    split; [apply owns_malloc_fail, O|]. split; [exact Ea | reflexivity].
Qed.

Lemma cha_alloc_spec (h0 h : heap) (bs : list nat) (cha : chastore)
    (S : list address) :
  owns h0 h (chunks cha ++ bs) -> arena_inv cha h S ->
  match cha_alloc avail cha h with
  | Ret (Some a, cha') h' =>
      owns h0 h' (chunks cha' ++ bs) /\ arena_inv cha' h' (a :: S)
      /\ (forall b x, live h !! b = Some x -> live h' !! b = Some x)
      /\ isize cha' = isize cha /\ nsize cha' = nsize cha
      /\ len (ancur cha') <= len (ancur cha) + 1
      /\ (calls h <= calls h')%nat
  | Ret (None, cha') h' =>
      cha' = cha /\ owns h0 h' (chunks cha ++ bs)
      /\ avail (calls h) = false /\ calls h' = Datatypes.S (calls h)
  | _ => False
  end.
Proof.
  intros O I. pose proof (cha_fresh_spec h0 h bs cha S O I) as F.
  unfold cha_alloc.
  destruct (ancur cha) as [|n next] eqn:Ea.
  - apply F. exact Logic.I.
  - destruct (Z.eqb_spec (icurr n) (nsize cha)) as [Efull|Enot].
    + apply F. exact Efull.
    + rewrite mem_ret_unfold.
      pose proof (arena_nsize _ _ _ I) as (icount & Hic & Hn).
      pose proof (arena_isize _ _ _ I) as Hi.
      pose proof (arena_shape _ _ _ I) as Hs. rewrite Ea in Hs.
      destruct Hs as (Hs1 & Hs2 & Hs3).
      assert (Hmem : n ∈ ancur cha) by (rewrite Ea; apply elem_of_cons; left; reflexivity).
      destruct (arena_nodes _ _ _ I n Hmem) as (Hl & j & Hj & Hcur & Hle).
      cbn [cha_take].
      split; [|split; [|split; [auto|]]].
      * unfold chunks in *. cbn [ancur map node_block]. rewrite Ea in O. exact O.
      * apply (cha_take_inv cha h S n next).
        -- pose proof (owns_nodup _ _ _ O) as Hnd. unfold chunks in Hnd.
           rewrite Ea in Hnd. cbn [map] in Hnd.
           apply NoDup_app in Hnd. apply Hnd.
        -- exact Hi.
        -- exists icount. auto.
        -- exact Hl.
        -- exists j. split; [exact Hj|]. split; [exact Hcur|].
           assert (j < icount) by nia. nia.
        -- intros n' Hn'. apply (arena_nodes _ _ _ I). rewrite Ea.
           apply elem_of_cons. right. exact Hn'.
        -- exact Hs2.
        -- exact Hs3.
        -- apply (arena_nodup _ _ _ I).
        -- intros a Ha. destruct (arena_slots _ _ _ I a Ha) as (n' & j' & Hn' & Hrest).
           exists n', j'. rewrite Ea in Hn'. split; [exact Hn' | exact Hrest].
      * cbn [isize nsize ancur]. rewrite !len_cons. repeat split; lia.
Qed.

End Arena.

(** ** delta_prepare with its memory *)

Lemma hashbits_range (size : Z) : 1 <= hashbits size <= 32.
Proof.
  unfold hashbits.
  destruct (hashbits_loop_spec size 32 1 0) as (H1 & _); [lia | lia | reflexivity |].
  destruct (Z.eqb_spec (hashbits_loop 32 size 1 0) 0); lia.
Qed.

Lemma concat_insert_cons {A} (l : list (list A)) (i : nat) (x : A) :
  (i < length l)%nat ->
  concat (<[i := x :: default [] (l !! i)]> l) ≡ₚ x :: concat l.
Proof.
  revert i. induction l as [|c l IH]; intros i Hi; [cbn in Hi; lia|].
  destruct i as [|i].
  - reflexivity.
  - cbn [length] in Hi.
    change (concat (c :: <[i := x :: default [] (l !! i)]> l) ≡ₚ x :: concat (c :: l)).
    cbn [concat]. rewrite IH by lia. symmetry. apply Permutation_middle.
Qed.

Lemma concat_replicate_nil {A} (n : nat) : concat (replicate n (@nil A)) = [].
Proof. induction n as [|n IH]; [reflexivity|]. cbn. exact IH. Qed.

Lemma fphash_mem_insert (fphash : list (list (address * bdrecord))) (i : Z)
    (a : address) (r : bdrecord) :
  map (map snd) (<[Z.to_nat i := (a, r) :: default [] (fphash !! Z.to_nat i)]> fphash)
  = <[Z.to_nat i := r :: bucket (map (map snd) fphash) i]> (map (map snd) fphash).
Proof.
  unfold bucket.
  pose proof (list_fmap_insert (map snd) fphash (Z.to_nat i)
                ((a, r) :: default [] (fphash !! Z.to_nat i))) as H.
  etransitivity; [exact H|]. f_equal. cbn [map snd]. f_equal.
  pose proof (list_lookup_fmap (map snd) fphash (Z.to_nat i)) as L.
  change (map (map snd) fphash !! Z.to_nat i) with ((map snd <$> fphash) !! Z.to_nat i).
  rewrite L. destruct (fphash !! Z.to_nat i); reflexivity.
Qed.

Section PrepareMem.
Variable avail : nat -> bool.
Variable adler32 : Z -> list byte -> Z.

Lemma prepare_loop_mem_spec (h0 : heap) (buf : list byte) (bits : Z)
    (table : nat) (fuel : nat) :
  forall (data : Z) (cha : chastore)
         (fphash : list (list (address * bdrecord))) (h : heap),
    (forall v, 0 <= HASH v bits < len fphash) ->
    owns h0 h (chunks cha ++ [table]) ->
    arena_inv cha h (map fst (concat fphash)) ->
    match prepare_loop_mem avail adler32 fuel buf bits data table cha fphash h with
    | Ret (Some (cha', fphash')) h' =>
        map (map snd) fphash'
        = prepare_loop adler32 fuel buf bits data (map (map snd) fphash)
        /\ owns h0 h' (chunks cha' ++ [table])
        /\ arena_inv cha' h' (map fst (concat fphash'))
        /\ (forall b x, live h !! b = Some x -> live h' !! b = Some x)
        /\ isize cha' = isize cha /\ nsize cha' = nsize cha
        /\ len (concat fphash') <= len (concat fphash) + Z.of_nat fuel
        /\ length fphash' = length fphash
    | Ret None h' =>
        owns h0 h' []
        /\ exists k, (calls h <= k < calls h')%nat /\ avail k = false
    | _ => False
    end.
Proof.
  induction fuel as [|fuel IH]; intros data cha fphash h Hh O I.
  - cbn [prepare_loop_mem prepare_loop]. rewrite mem_ret_unfold.
    split; [reflexivity|]. split; [exact O|]. split; [exact I|].
    split; [auto|]. repeat split; lia.
  - cbn [prepare_loop_mem prepare_loop].
    destruct (data <? 0).
    { rewrite mem_ret_unfold.
      split; [reflexivity|]. split; [exact O|]. split; [exact I|].
      split; [auto|]. repeat split; lia. }
    rewrite mem_bind_unfold.
    pose proof (cha_alloc_spec avail h0 h [table] cha _ O I) as A.
    destruct (cha_alloc avail cha h) as [[[a|] cha1] h1| |]; [| |destruct A|destruct A].
    + destruct A as (O1 & I1 & Hkeep & Hi & Hn & _ & Hc1).
      set (r := {| fp := u32 (adler32 0 (take (Z.to_nat (Z.min BLK_SIZE (len buf - data)))
                                            (drop (Z.to_nat data) buf)));
                   ptr := data |}).
      set (i := HASH (fp r) bits).
      assert (Hi0 : (Z.to_nat i < length fphash)%nat).
      { specialize (Hh (fp r)). fold i in Hh. unfold len in Hh. lia. }
      set (fphash1 := <[Z.to_nat i := (a, r) :: default [] (fphash !! Z.to_nat i)]> fphash).
      assert (P : concat fphash1 ≡ₚ (a, r) :: concat fphash)
        by (apply concat_insert_cons, Hi0).
      assert (I1' : arena_inv cha1 h1 (map fst (concat fphash1))).
      { apply (arena_inv_perm cha1 h1 (a :: map fst (concat fphash))); [|exact I1].
        symmetry. change (map fst (concat fphash1) ≡ₚ map fst ((a, r) :: concat fphash)).
        apply fmap_Permutation, P. }
      assert (Hh1 : forall v, 0 <= HASH v bits < len fphash1).
      { intros v. unfold fphash1, len. rewrite length_insert. apply Hh. }
      specialize (IH (data - BLK_SIZE) cha1 fphash1 h1 Hh1 O1 I1').
      cbv beta iota. fold r i fphash1.
      destruct (prepare_loop_mem avail adler32 fuel buf bits (data - BLK_SIZE)
                  table cha1 fphash1 h1) as [[[cha' fphash']|] h'| |];
        [| |destruct IH|destruct IH].
      * destruct IH as (E & O' & I' & Hkeep' & Hi' & Hn' & Hl' & Hlen').
        split; [rewrite E; unfold fphash1; rewrite fphash_mem_insert; reflexivity|].
        split; [exact O'|]. split; [exact I'|].
        split; [intros b x Hx; apply Hkeep', Hkeep, Hx|].
        split; [congruence|]. split; [congruence|].
        split.
        -- assert (len (concat fphash1) = len (concat fphash) + 1).
           { unfold len. rewrite (Permutation_length P). cbn [length]. lia. }
           lia.
        -- rewrite Hlen'. unfold fphash1. apply length_insert.
      * destruct IH as (O' & k & Hk & Ek). split; [exact O'|].
        exists k. split; [lia | exact Ek].
    + destruct A as (-> & O1 & Ea & Ec). cbv beta iota.
      unfold cha_free. rewrite mem_bind_unfold.
      destruct (cha_free_loop_owned h0 (ancur cha) h1 [] [table] O1)
        as (h2 & Ef & O2 & Ec2).
      rewrite Ef. rewrite mem_bind_unfold.
      destruct (owns_free h0 h2 [] table [] O2) as [Ef2 O3].
      rewrite Ef2. rewrite mem_ret_unfold. split; [exact O3|].
      exists (calls h). cbn [calls]. split; [lia | exact Ea].
Qed.

Lemma delta_prepare_mem_spec (buf : list byte) (h : heap) :
  heap_ok h ->
  match delta_prepare_mem avail adler32 buf h with
  | Ret (Some bdf) h' =>
      index_of bdf = delta_prepare adler32 buf
      /\ owns h h' (chunks (cha bdf) ++ [fphash_block bdf])
      /\ arena_inv (cha bdf) h' (map fst (concat (fphash_mem bdf)))
      /\ isize (cha bdf) = sizeof_bdrecord_t
      /\ nsize (cha bdf) = (len (fphash_mem bdf) / 4 + 1) * sizeof_bdrecord_t
      /\ live h' !! fphash_block bdf
         = Some (len (fphash_mem bdf) * sizeof_pointer)
      /\ len (concat (fphash_mem bdf)) <= len buf / BLK_SIZE + 1
      /\ len (fphash_mem bdf) = 2 ^ bits_mem bdf
      /\ bits_mem bdf = hashbits (u32 (len buf / BLK_SIZE + 1))
  | Ret None h' =>
      owns h h' []
      /\ exists k, (calls h <= k < calls h')%nat /\ avail k = false
  | _ => False
  end.
Proof.
  intros Hok. unfold delta_prepare_mem, delta_prepare.
  set (bits := hashbits (u32 (len buf / BLK_SIZE + 1))).
  set (hsize := Z.shiftl 1 bits).
  set (d0 := len buf / BLK_SIZE * BLK_SIZE).
  set (d := if d0 =? len buf then d0 - BLK_SIZE else d0).
  pose proof (hashbits_range (u32 (len buf / BLK_SIZE + 1))) as Hb. fold bits in Hb.
  assert (Hhs : hsize = 2 ^ bits) by (unfold hsize; apply Z.shiftl_1_l).
  assert (Hpos : 0 < hsize) by (rewrite Hhs; apply Z.pow_pos_nonneg; lia).
  pose proof (len_nonneg buf) as Hn.
  assert (Hq : 0 <= len buf / BLK_SIZE) by (unfold BLK_SIZE; apply Z.div_pos; lia).
  rewrite mem_bind_unfold.
  destruct (malloc_cases avail (hsize * sizeof_pointer) h) as [[Ea E]|[Ea E]];
    rewrite E.
  - set (h1 := {| calls := S (calls h);
                  live := <[calls h := hsize * sizeof_pointer]> (live h) |}).
    pose proof (owns_malloc h h [] (hsize * sizeof_pointer) (owns_refl h Hok)) as O1.
    fold h1 in O1.
    set (cha0 := cha_init sizeof_bdrecord_t (hsize / 4 + 1)).
    set (tbl := replicate (Z.to_nat hsize) (@nil (address * bdrecord))).
    assert (Hlen : len tbl = hsize).
    { unfold tbl, len. rewrite length_replicate. lia. }
    assert (I0 : arena_inv cha0 h1 (map fst (concat tbl))).
    { unfold tbl. rewrite concat_replicate_nil. split; cbn [cha0 cha_init isize nsize ancur].
      - reflexivity.
      - exists (hsize / 4 + 1). split; [|reflexivity].
        assert (0 <= hsize / 4) by (apply Z.div_pos; lia). lia.
      - intros n Hin. inversion Hin.
      - reflexivity.
      - constructor.
      - intros a Hin. inversion Hin. }
    assert (Hh : forall v, 0 <= HASH v bits < len tbl).
    { intros v. rewrite Hlen, Hhs. apply HASH_range. lia. }
    rewrite mem_bind_unfold.
    pose proof (prepare_loop_mem_spec h (buf) bits (calls h)
                  (Z.to_nat (len buf / BLK_SIZE + 1)) d cha0 tbl h1 Hh O1 I0) as P.
    destruct (prepare_loop_mem avail adler32 (Z.to_nat (len buf / BLK_SIZE + 1))
                buf bits d (calls h) cha0 tbl h1) as [[[cha' fphash']|] h'| |];
      [| |destruct P|destruct P].
    + destruct P as (E1 & O' & I' & Hkeep & Hi' & Hn' & Hl' & Hlen').
      rewrite mem_ret_unfold. cbn [cha bits_mem fphash_block fphash_mem].
      assert (Hlf : len fphash' = hsize).
      { unfold len. rewrite Hlen'. exact Hlen. }
      split.
      { unfold index_of. cbn [bits_mem fphash_mem]. f_equal. rewrite E1.
        f_equal. unfold tbl. clear. induction (Z.to_nat hsize) as [|n IH];
          [reflexivity|]. cbn [replicate map]. rewrite IH. reflexivity. }
      split; [exact O'|]. split; [exact I'|].
      split; [rewrite Hi'; reflexivity|].
      split; [rewrite Hn', Hlf; reflexivity|].
      split.
      { rewrite Hlf. apply Hkeep. unfold h1; cbn [live]. apply lookup_insert_eq. }
      split.
      { unfold tbl in Hl'. rewrite concat_replicate_nil in Hl'.
        change (len (@nil (address * bdrecord))) with 0 in Hl'.
        rewrite Z2Nat.id in Hl' by lia. lia. }
      split; [rewrite Hlf; exact Hhs | reflexivity].
    + rewrite mem_ret_unfold. destruct P as (O' & k & Hk & Ek).
      split; [exact O'|]. exists k. split; [|exact Ek].
      unfold h1 in Hk. cbn [calls] in Hk. lia.
  - rewrite mem_ret_unfold. split.
    + apply (owns_malloc_fail h h [] (owns_refl h Hok)).
    + exists (calls h). cbn [calls]. split; [lia | exact Ea].
Qed.

End PrepareMem.

(** ** diff_delta with its memory *)

Lemma clean_bind {A B} (m : run A) (f : A -> run B) :
  clean m -> (forall a, clean (f a)) -> clean (m ≫= f).
Proof. destruct m as [a| | |]; intros Hm Hf; try destruct Hm; [apply Hf | exact I]. Qed.

Lemma clean_store (o : list byte) (i : Z) (v : byte) : clean (store o i v).
Proof. unfold store. destruct ((0 <=? i) && (i <? len o)); exact I. Qed.

Lemma clean_put_if (v flag : Z) (s : list byte * Z * Z) : clean (put_if v flag s).
Proof.
  destruct s as [[o p] i]. unfold put_if.
  destruct (Z.land v 0xff =? 0); [exact I|].
  apply clean_bind; [apply clean_store | intros; exact I].
Qed.

Lemma clean_close_insert (st : enc_state) : clean (close_insert st).
Proof. unfold close_insert. destruct (inscnt st =? 0); [exact I | apply clean_store]. Qed.

Lemma clean_emit_insert (st : enc_state) (moff' : Z) (b : byte) (rest : list byte) :
  clean (emit_insert st moff' b rest).
Proof.
  unfold emit_insert. apply clean_bind; [apply clean_store|]. intros o1.
  destruct (u32 (inscnt st + 1) =? 0x7f); [|exact I].
  apply clean_bind; [apply clean_store | intros; exact I].
Qed.

Lemma clean_emit_copy (st : enc_state) (msize moff' : Z) :
  clean (emit_copy st msize moff').
Proof.
  unfold emit_copy. apply clean_bind; [apply clean_close_insert|]. intros o0.
  apply clean_bind; [apply clean_put_if|]. intros s1.
  apply clean_bind; [apply clean_put_if|]. intros s2.
  apply clean_bind; [apply clean_put_if|]. intros s3.
  apply clean_bind; [apply clean_put_if|]. intros s4.
  apply clean_bind; [apply clean_put_if|]. intros s5.
  apply clean_bind; [apply clean_put_if|]. intros [[o6 p6] i6].
  apply clean_bind; [apply clean_store | intros; exact I].
Qed.

Lemma put_if_len (v flag : Z) (o : list byte) (p i : Z) (o' : list byte)
    (p' i' : Z) :
  put_if v flag (o, p, i) = Done (o', p', i') -> len o' = len o.
Proof.
  unfold put_if. destruct (Z.land v 0xff =? 0).
  - rewrite ret_Done. intros H. inversion H. reflexivity.
  - intros H. apply bind_Done_inv in H. destruct H as (o1 & Hs & H).
    rewrite ret_Done in H. inversion H; subst. apply store_inv in Hs. apply Hs.
Qed.

Lemma emit_copy_len (st : enc_state) (msize moff' : Z) (st' : enc_state) :
  emit_copy st msize moff' = Done st' ->
  len (out st') = len (out st) /\ outsize st' = outsize st.
Proof.
  unfold emit_copy. intros H.
  apply bind_Done_inv in H. destruct H as (out0 & H0 & H).
  apply close_insert_inv in H0.
  apply bind_Done_inv in H. destruct H as ([[o1 p1] i1] & H1 & H).
  apply bind_Done_inv in H. destruct H as ([[o2 p2] i2] & H2 & H).
  apply bind_Done_inv in H. destruct H as ([[o3 p3] i3] & H3 & H).
  apply bind_Done_inv in H. destruct H as ([[o4 p4] i4] & H4 & H).
  apply bind_Done_inv in H. destruct H as ([[o5 p5] i5] & H5 & H).
  apply bind_Done_inv in H. destruct H as ([[o6 p6] i6] & H6 & H).
  apply bind_Done_inv in H. destruct H as (out2 & Hs & H).
  rewrite ret_Done in H. inversion H; subst st'; clear H.
  cbn [out outsize].
  apply put_if_len in H1, H2, H3, H4, H5, H6.
  apply store_inv in Hs. destruct Hs as (_ & _ & Hl).
  split; [congruence | reflexivity].
Qed.

Lemma emit_insert_len (st : enc_state) (moff' : Z) (b : byte)
    (rest : list byte) (st' : enc_state) :
  emit_insert st moff' b rest = Done st' ->
  len (out st') = len (out st) /\ outsize st' = outsize st.
Proof.
  unfold emit_insert. intros H.
  apply bind_Done_inv in H. destruct H as (out1 & H1 & H).
  apply store_inv in H1. destruct H1 as (_ & _ & L1).
  destruct (u32 (inscnt st + 1) =? 0x7f).
  - apply bind_Done_inv in H. destruct H as (out2 & H2 & H).
    apply store_inv in H2. destruct H2 as (_ & _ & L2).
    rewrite ret_Done in H. inversion H. cbn [out outsize].
    split; [congruence | reflexivity].
  - rewrite ret_Done in H. inversion H. cbn [out outsize].
    split; [congruence | reflexivity].
Qed.

Lemma put_size_loop_len (fuel : nat) :
  forall (size : Z) (o : list byte) (p : Z) (o' : list byte) (p' : Z),
    put_size_loop fuel size o p = Done (o', p') -> len o' = len o.
Proof.
  induction fuel as [|fuel IH]; intros size o p o' p' H.
  - cbn [put_size_loop] in H. destruct (size =? 0); [|discriminate].
    rewrite ret_Done in H. inversion H. reflexivity.
  - cbn [put_size_loop] in H. destruct (size =? 0).
    + rewrite ret_Done in H. inversion H. reflexivity.
    + apply bind_Done_inv in H. destruct H as (b & _ & H).
      apply bind_Done_inv in H. destruct H as (o1 & H1 & H).
      apply bind_Done_inv in H. destruct H as (o2 & H2 & H).
      apply store_inv in H1, H2. apply IH in H.
      destruct H1 as (_ & _ & L1). destruct H2 as (_ & _ & L2). congruence.
Qed.

Lemma put_size_len (size : Z) (o : list byte) (p : Z) (o' : list byte) (p' : Z) :
  put_size size o p = Done (o', p') -> len o' = len o.
Proof.
  unfold put_size. intros H.
  apply bind_Done_inv in H. destruct H as (o1 & H1 & H).
  apply store_inv in H1. apply put_size_loop_len in H.
  destruct H1 as (_ & _ & L1). congruence.
Qed.

Lemma put_size_loop_not_null (fuel : nat) :
  forall (size : Z) (o : list byte) (p : Z),
    put_size_loop fuel size o p <> ReturnNull.
Proof.
  induction fuel as [|fuel IH]; intros size o p; cbn [put_size_loop].
  - destruct (size =? 0); discriminate.
  - destruct (size =? 0); [discriminate|].
    unfold load. destruct ((0 <=? u32 (p - 1)) && (u32 (p - 1) <? len o));
      [|discriminate].
    destruct (o !! Z.to_nat (u32 (p - 1))) as [b|]; [|discriminate].
    rewrite bind_Done.
    destruct (store_cases o (u32 (p - 1)) (u8 (Z.lor (byte_val b) 0x80)))
      as [[_ E]|[_ E]]; rewrite E; [|discriminate].
    rewrite bind_Done.
    destruct (store_cases (<[Z.to_nat (u32 (p - 1)) := u8 (Z.lor (byte_val b) 0x80)]> o)
                p (u8 size)) as [[_ E']|[_ E']]; rewrite E'; [|discriminate].
    rewrite bind_Done. apply IH.
Qed.

Lemma put_size_not_null (size : Z) (o : list byte) (p : Z) :
  put_size size o p <> ReturnNull.
Proof.
  unfold put_size.
  destruct (store_cases o p (u8 size)) as [[_ E]|[_ E]]; rewrite E; [|discriminate].
  rewrite bind_Done. apply put_size_loop_not_null.
Qed.

Lemma lift_clean {A} (r : run A) (h : heap) :
  clean r ->
  (exists a, r = Done a /\ lift r h = Ret a h)
  \/ (exists i c, r = OutOfBounds i c /\ lift r h = Undefined).
Proof.
  destruct r as [a| |i c|]; intros H; try destruct H.
  - left. exists a. split; reflexivity.
  - right. exists i, c. split; reflexivity.
Qed.

Section EncodeMem.
Variable avail : nat -> bool.
Variable adler32 : Z -> list byte -> Z.
Variables (h0 : heap) (bdf : bdfile_mem) (ref_buf : list byte) (max_size : Z).

Lemma grow_mem_spec (ob : nat) (st : enc_state) (h : heap) :
  owns h0 h (ob :: chunks (cha bdf) ++ [fphash_block bdf]) ->
  live h !! ob = Some (outsize st) -> len (out st) = outsize st ->
  match grow_mem avail max_size bdf ob st h with
  | Ret (Some (ob', st')) h' =>
      grow max_size st = Done st'
      /\ owns h0 h' (ob' :: chunks (cha bdf) ++ [fphash_block bdf])
      /\ live h' !! ob' = Some (outsize st') /\ len (out st') = outsize st'
      /\ (calls h <= calls h')%nat
  | Ret None h' =>
      owns h0 h' []
      /\ (grow max_size st = ReturnNull
          \/ exists k, (calls h <= k < calls h')%nat /\ avail k = false)
  | _ => False
  end.
Proof.
  intros O Hl Hlen. unfold grow_mem, grow.
  destruct (outpos st >=? u32 (outsize st - MAX_OP_SIZE)).
  - set (outsize2 := if negb (max_size =? 0) && (u32 (outsize st * 3) / 2 >=? max_size)
                     then u32 (max_size + MAX_OP_SIZE + 1)
                     else u32 (outsize st * 3) / 2).
    assert (H2 : 0 <= outsize2).
    { unfold outsize2.
      destruct (negb (max_size =? 0) && (u32 (outsize st * 3) / 2 >=? max_size)).
      - apply u32_range.
      - apply Z.div_pos; [apply u32_range | lia]. }
    rewrite mem_bind_unfold.
    destruct (negb (max_size =? 0) && (outpos st >? max_size)).
    + rewrite mem_ret_unfold, mem_bind_unfold.
      destruct (owns_free h0 h [] ob _ O) as [Ef O1]. rewrite Ef.
      rewrite mem_bind_unfold.
      destruct (delta_cleanup_owned h0 _ bdf [] O1) as (h' & Ec & O2 & Hc & _).
      rewrite Ec, mem_ret_unfold. split; [exact O2|]. left. reflexivity.
    + destruct (owns_realloc avail h0 h ob _ outsize2 O) as [(Ea & E & O1)|(Ea & E & O1)];
        rewrite E.
      * rewrite mem_ret_unfold, ret_Done. cbn [outsize out calls live].
        split; [reflexivity|]. split; [exact O1|].
        split; [apply lookup_insert_eq|]. split; [apply len_resize, H2 | lia].
      * rewrite mem_bind_unfold.
        destruct (owns_free h0 _ [] ob _ O1) as [Ef O2]. rewrite Ef.
        rewrite mem_bind_unfold.
        destruct (delta_cleanup_owned h0 _ bdf [] O2) as (h' & Ec & O3 & Hc & _).
        rewrite Ec, mem_ret_unfold. split; [exact O3|]. right.
        exists (calls h). rewrite Hc. cbn [calls]. split; [lia | exact Ea].
  - rewrite mem_ret_unfold, ret_Done.
    split; [reflexivity|]. split; [exact O|]. split; [exact Hl|].
    split; [exact Hlen | lia].
Qed.

Lemma encode_loop_mem_spec (fuel : nat) :
  forall (ob : nat) (st : enc_state) (h : heap),
    owns h0 h (ob :: chunks (cha bdf) ++ [fphash_block bdf]) ->
    live h !! ob = Some (outsize st) -> len (out st) = outsize st ->
    match encode_loop_mem avail adler32 fuel bdf ref_buf max_size ob st h with
    | Ret (Some (ob', d)) h' =>
        encode_loop adler32 fuel (index_of bdf) ref_buf max_size st = Done d
        /\ owns h0 h' [ob']
        /\ exists size, live h' !! ob' = Some size /\ len d <= size
    | Ret None h' =>
        owns h0 h' []
        /\ (encode_loop adler32 fuel (index_of bdf) ref_buf max_size st
            = ReturnNull
            \/ exists k, (calls h <= k < calls h')%nat /\ avail k = false)
    | Undefined =>
        exists i c,
          encode_loop adler32 fuel (index_of bdf) ref_buf max_size st
          = OutOfBounds i c
    | Unfinished =>
        encode_loop adler32 fuel (index_of bdf) ref_buf max_size st = OutOfFuel
    end.
Proof.
  induction fuel as [|fuel IH]; intros ob st h O Hl Hlen.
  - cbn [encode_loop_mem encode_loop]. destruct (data st) as [|b rest] eqn:Ed;
      [|reflexivity].
    rewrite mem_bind_unfold.
    destruct (lift_clean (close_insert st) h (clean_close_insert st))
      as [(o' & E & L)|(i & c & E & L)]; rewrite L, E.
    + rewrite mem_bind_unfold.
      destruct (delta_cleanup_owned h0 h bdf [ob] O) as (h' & Ec & O1 & Hc & Hlive).
      rewrite Ec, mem_ret_unfold, bind_Done, ret_Done.
      split; [reflexivity|]. split; [exact O1|].
      exists (outsize st). split.
      * rewrite Hlive by (apply elem_of_cons; left; reflexivity). exact Hl.
      * apply close_insert_inv in E. unfold len in *. rewrite length_take. lia.
    + exists i, c. reflexivity.
  - cbn [encode_loop_mem encode_loop]. destruct (data st) as [|b rest] eqn:Ed.
    + rewrite mem_bind_unfold.
      destruct (lift_clean (close_insert st) h (clean_close_insert st))
        as [(o' & E & L)|(i & c & E & L)]; rewrite L, E.
      * rewrite mem_bind_unfold.
        destruct (delta_cleanup_owned h0 h bdf [ob] O) as (h' & Ec & O1 & Hc & Hlive).
        rewrite Ec, mem_ret_unfold, bind_Done, ret_Done.
        split; [reflexivity|]. split; [exact O1|].
        exists (outsize st). split.
        -- rewrite Hlive by (apply elem_of_cons; left; reflexivity). exact Hl.
        -- apply close_insert_inv in E. unfold len in *. rewrite length_take. lia.
      * exists i, c. reflexivity.
    + unfold iteration. rewrite Ed.
      destruct (find_match adler32 (index_of bdf) ref_buf (b :: rest) (moff st))
        as [msize moff'].
      set (step := if insert_path msize moff'
                   then emit_insert st moff' b rest
                   else emit_copy st msize moff').
      assert (Hclean : clean step).
      { unfold step. destruct (insert_path msize moff');
          [apply clean_emit_insert | apply clean_emit_copy]. }
      assert (Hkeep : forall st1, step = Done st1 ->
                len (out st1) = len (out st) /\ outsize st1 = outsize st).
      { unfold step. intros st1. destruct (insert_path msize moff').
        - apply emit_insert_len.
        - apply emit_copy_len. }
      rewrite mem_bind_unfold.
      destruct (lift_clean step h Hclean) as [(st1 & E & L)|(i & c & E & L)];
        rewrite L, E.
      * destruct (Hkeep st1 E) as [K1 K2].
        rewrite bind_Done, mem_bind_unfold.
        pose proof (grow_mem_spec ob st1 h O ltac:(congruence) ltac:(congruence)) as G.
        destruct (grow_mem avail max_size bdf ob st1 h) as [[[ob' st2]|] h1| |];
          [| |destruct G|destruct G].
        -- destruct G as (Eg & O1 & Hl1 & Hlen1 & Hc1). rewrite Eg, bind_Done.
           specialize (IH ob' st2 h1 O1 Hl1 Hlen1).
           destruct (encode_loop_mem avail adler32 fuel bdf ref_buf max_size ob' st2 h1)
             as [[[ob'' d]|] h2| |].
           ++ exact IH.
           ++ destruct IH as (O2 & [Er|(k & Hk & Ek)]); split; try exact O2.
              ** left. exact Er.
              ** right. exists k. split; [lia | exact Ek].
           ++ exact IH.
           ++ exact IH.
        -- rewrite mem_ret_unfold. destruct G as (O1 & [Eg|(k & Hk & Ek)]).
           ++ split; [exact O1|]. left. rewrite Eg. reflexivity.
           ++ split; [exact O1|]. right. exists k. split; [lia | exact Ek].
      * exists i, c. reflexivity.
Qed.

End EncodeMem.

Section DiffDeltaMem.
Variable avail : nat -> bool.
Variable adler32 : Z -> list byte -> Z.

Lemma diff_delta_mem_spec (R T : list byte) (max_size : Z) (h : heap) :
  heap_ok h ->
  match diff_delta_mem avail adler32 R T max_size h with
  | Ret (Some (b, d)) h' =>
      diff_delta adler32 R T max_size = Done d
      /\ live h !! b = None
      /\ exists size, len d <= size /\ live h' = <[b := size]> (live h)
  | Ret None h' =>
      live h' = live h
      /\ (diff_delta adler32 R T max_size = ReturnNull
          \/ exists k, (calls h <= k < calls h')%nat /\ avail k = false)
  | Undefined =>
      exists i c, diff_delta adler32 R T max_size = OutOfBounds i c
  | Unfinished => diff_delta adler32 R T max_size = OutOfFuel
  end.
Proof.
  intros Hok. unfold diff_delta_mem, diff_delta.
  destruct ((len R =? 0) || (len T =? 0)).
  { rewrite mem_ret_unfold. split; [reflexivity|]. left. reflexivity. }
  rewrite mem_bind_unfold.
  pose proof (delta_prepare_mem_spec avail adler32 R h Hok) as P.
  destruct (delta_prepare_mem avail adler32 R h) as [[bdf|] h1| |];
    [| |destruct P|destruct P].
  2:{ rewrite mem_ret_unfold. destruct P as (O & k & Hk & Ek).
      split; [apply owns_done, O|]. right. exists k. split; [lia | exact Ek]. }
  destruct P as (Ei & O1 & _).
  rewrite <- Ei.
  set (outsize0 := if negb (max_size =? 0) && (8192 >=? max_size)
                   then u32 (max_size + MAX_OP_SIZE + 1) else 8192).
  assert (H0 : 0 <= outsize0).
  { unfold outsize0. destruct (negb (max_size =? 0) && (8192 >=? max_size));
      [apply u32_range | lia]. }
  rewrite mem_bind_unfold.
  pose proof (owns_calls _ _ _ O1) as Hc1.
  destruct (malloc_cases avail outsize0 h1) as [[Ea E]|[Ea E]]; rewrite E.
  - pose proof (owns_malloc h h1 _ outsize0 O1) as O2.
    set (h2 := {| calls := S (calls h1); live := <[calls h1 := outsize0]> (live h1) |}) in *.
    set (out0 := replicate (Z.to_nat outsize0) x00).
    assert (Hlen0 : len out0 = outsize0).
    { unfold out0, len. rewrite length_replicate. lia. }
    rewrite mem_bind_unfold.
    destruct (put_size (len R) out0 0) as [[o1 p1]| |i c|] eqn:E1; cbn [lift].
    + rewrite bind_Done, mem_bind_unfold.
      destruct (put_size (len T) o1 p1) as [[o2 p2]| |i c|] eqn:E2; cbn [lift].
      * rewrite bind_Done.
        apply put_size_len in E1, E2.
        pose proof (encode_loop_mem_spec avail adler32 h bdf R max_size (length T)
                      (calls h1)
                      {| out := o2; outsize := outsize0; outpos := p2;
                         inscnt := 0; moff := 0; data := T |} h2 O2) as L.
        cbn [outsize out] in L.
        specialize (L ltac:(unfold h2; cbn [live]; apply lookup_insert_eq)
                      ltac:(congruence)).
        destruct (encode_loop_mem avail adler32 (length T) bdf R max_size (calls h1)
                    {| out := o2; outsize := outsize0; outpos := p2;
                       inscnt := 0; moff := 0; data := T |} h2)
          as [[[ob d]|] h3| |].
        -- destruct L as (Ed & O3 & size & Hs & Hd).
           split; [exact Ed|].
           destruct (owns_one h h3 ob size O3 Hs) as [Hn Hm].
           split; [exact Hn|]. exists size. split; [exact Hd | exact Hm].
        -- destruct L as (O3 & [Er|(k & Hk & Ek)]).
           ++ split; [apply owns_done, O3|]. left. exact Er.
           ++ split; [apply owns_done, O3|]. right. exists k.
              unfold h2 in Hk. cbn [calls] in Hk. split; [lia | exact Ek].
        -- exact L.
        -- exact L.
      * exfalso. exact (put_size_not_null _ _ _ E2).
      * exists i, c. reflexivity.
      * reflexivity.
    + exfalso. exact (put_size_not_null _ _ _ E1).
    + exists i, c. reflexivity.
    + reflexivity.
  - rewrite mem_bind_unfold.
    pose proof (owns_malloc_fail h h1 _ O1) as O2.
    destruct (delta_cleanup_owned h _ bdf [] O2) as (h' & Ec & O3 & Hc & _).
    rewrite Ec, mem_ret_unfold. split; [apply owns_done, O3|].
    right. exists (calls h1). rewrite Hc. cbn [calls]. split; [lia | exact Ea].
Qed.

End DiffDeltaMem.

(** ** What the memory model shows *)

Lemma empty_heap_ok : heap_ok empty_heap.
Proof. intros b _. apply lookup_empty. Qed.

Section MemoryMore.
Variable avail : nat -> bool.
Variable adler32 : Z -> list byte -> Z.

(** X17: [delta_prepare] out of memory.  From any heap, [delta_prepare]
    returns, without freeing or reusing anything it does not hold; when it
    returns [-1] an allocation has failed and the heap is what it was when
    the call began: the table and every chunk of the arena have been freed;
    and when every allocation finds memory it returns [0]. *)
Theorem delta_prepare_out_of_memory (buf : list byte) (h : heap) :
  len buf < 2 ^ 31 -> heap_ok h ->
  (exists r h', delta_prepare_mem avail adler32 buf h = Ret r h')
  /\ (forall h', delta_prepare_mem avail adler32 buf h = Ret None h' ->
        live h' = live h
        /\ exists k, (calls h <= k < calls h')%nat /\ avail k = false)
  /\ ((forall k, (calls h <= k)%nat -> avail k = true) ->
      exists bdf h', delta_prepare_mem avail adler32 buf h = Ret (Some bdf) h').
Proof.
  intros _ Hok. pose proof (delta_prepare_mem_spec avail adler32 buf h Hok) as P.
  destruct (delta_prepare_mem avail adler32 buf h) as [[bdf|] h1| |];
    [| |destruct P|destruct P].
  - split; [eauto|]. split; [discriminate|]. eauto.
  - destruct P as (O & k & Hk & Ek). split; [eauto|]. split.
    + intros h' E. inversion E; subst h'. split; [apply owns_done, O|eauto].
    + intros Hall. rewrite Hall in Ek by lia. discriminate.
Qed.

(** X18: the index in memory is the index of the search, and
    [delta_cleanup] gives all of it back.  When [delta_prepare] returns 0,
    the table it leaves in [*bdf] holds, bucket by bucket and in the same
    order, the records of [delta_prepare] as modelled without a heap; the
    blocks it holds are the table and the chunks of the arena; and
    [delta_cleanup] frees each of them once, leaving the heap as it was
    before [delta_prepare]. *)
Theorem prepare_then_cleanup (buf : list byte) (h h' : heap) (bdf : bdfile_mem) :
  len buf < 2 ^ 31 -> heap_ok h ->
  delta_prepare_mem avail adler32 buf h = Ret (Some bdf) h' ->
  index_of bdf = delta_prepare adler32 buf
  /\ (forall b, is_Some (live h' !! b) <->
        is_Some (live h !! b) \/ b = fphash_block bdf \/ b ∈ chunks (cha bdf))
  /\ exists h'', delta_cleanup bdf h' = Ret tt h'' /\ live h'' = live h.
Proof.
  intros _ Hok E. pose proof (delta_prepare_mem_spec avail adler32 buf h Hok) as P.
  rewrite E in P. destruct P as (Ei & O & _).
  split; [exact Ei|]. split.
  - intros b. destruct (decide (b ∈ chunks (cha bdf) ++ [fphash_block bdf])) as [Hin|Hout].
    + split.
      * intros _. right. apply elem_of_app in Hin. destruct Hin as [Hin|Hin].
        -- right. exact Hin.
        -- left. apply elem_of_cons in Hin. destruct Hin as [->|Hin];
             [reflexivity | inversion Hin].
      * intros _. apply (owns_new _ _ _ O b Hin).
    + rewrite (owns_rest _ _ _ O b Hout). split; [auto|].
      intros [H|[->|H]]; [exact H| |].
      * exfalso. apply Hout. apply elem_of_app. right. apply elem_of_cons. left.
        reflexivity.
      * exfalso. apply Hout. apply elem_of_app. left. exact H.
  - destruct (delta_cleanup_owned h h' bdf [] O) as (h'' & Ec & O' & _).
    exists h''. split; [exact Ec | apply owns_done, O'].
Qed.

(** X19: the records of the index do not overlap.  When [delta_prepare]
    returns 0, the addresses [cha_alloc] gave to the records are distinct;
    each record has its [sizeof (bdrecord_t)] bytes inside an allocated
    chunk of [sizeof (chanode_t) + nsize] bytes, behind the node at its
    head, in a block that is not the table; and two records never share a
    byte. *)
Theorem records_apart (buf : list byte) (h h' : heap) (bdf : bdfile_mem) :
  len buf < 2 ^ 31 -> heap_ok h ->
  delta_prepare_mem avail adler32 buf h = Ret (Some bdf) h' ->
  let slots := map fst (concat (fphash_mem bdf)) in
  NoDup slots
  /\ (forall a, a ∈ slots ->
        live h' !! a.1 = Some (sizeof_chanode_t + nsize (cha bdf))
        /\ a.1 <> fphash_block bdf
        /\ sizeof_chanode_t <= a.2
        /\ a.2 + sizeof_bdrecord_t <= sizeof_chanode_t + nsize (cha bdf))
  /\ (forall a b, a ∈ slots -> b ∈ slots -> a <> b ->
        apart sizeof_bdrecord_t a b).
Proof.
  intros _ Hok E slots. pose proof (delta_prepare_mem_spec avail adler32 buf h Hok) as P.
  rewrite E in P. destruct P as (_ & O & I & Hi & _).
  fold slots in I.
  assert (Hslot : forall a, a ∈ slots ->
            exists n j, n ∈ ancur (cha bdf) /\ node_block n = a.1 /\ 0 <= j
              /\ a.2 = sizeof_chanode_t + j * sizeof_bdrecord_t
              /\ a.2 + sizeof_bdrecord_t <= sizeof_chanode_t + icurr n).
  { intros a Ha. destruct (arena_slots _ _ _ I a Ha) as (n & j & H).
    rewrite Hi in H. exists n, j. exact H. }
  split; [apply (arena_nodup _ _ _ I)|]. split.
  - intros a Ha. destruct (Hslot a Ha) as (n & j & Hn & Hb & Hj & Ho & Hle).
    destruct (arena_nodes _ _ _ I n Hn) as (Hl & _ & _ & _ & Hcur).
    rewrite <- Hb. split; [exact Hl|]. split.
    + pose proof (owns_nodup _ _ _ O) as Hnd. apply NoDup_app in Hnd.
      destruct Hnd as (_ & Hdis & _). intros Eq.
      apply (Hdis (node_block n)).
      * unfold chunks. apply list_elem_of_fmap. exists n. auto.
      * rewrite Eq. apply elem_of_cons. left. reflexivity.
    + unfold sizeof_bdrecord_t, sizeof_chanode_t in *. lia.
  - intros a b Ha Hb Hne.
    destruct (Hslot a Ha) as (n & j & Hn & Hbn & Hj & Ho & Hle).
    destruct (Hslot b Hb) as (n' & j' & Hn' & Hbn' & Hj' & Ho' & Hle').
    unfold apart. destruct (decide (a.1 = b.1)) as [E1|E1]; [|left; exact E1].
    right. assert (a.2 <> b.2).
    { intros E2. apply Hne. destruct a, b. cbn [fst snd] in *. congruence. }
    unfold sizeof_bdrecord_t, sizeof_chanode_t in *. lia.
Qed.

(** X20: the arena takes at most four chunks.  For a reference of a size
    an [int] holds, [delta_prepare] has made fewer records than the table
    has buckets, a chunk holds a quarter of the buckets and one more, and so
    the arena never goes beyond its fourth chunk; the table has
    [2 ^ fphbits] pointers. *)
Theorem arena_at_most_four_chunks (buf : list byte) (h h' : heap)
    (bdf : bdfile_mem) :
  heap_ok h -> len buf < 2 ^ 31 ->
  delta_prepare_mem avail adler32 buf h = Ret (Some bdf) h' ->
  len (chunks (cha bdf)) <= 4
  /\ nsize (cha bdf) = (2 ^ bits_mem bdf / 4 + 1) * sizeof_bdrecord_t
  /\ live h' !! fphash_block bdf = Some (2 ^ bits_mem bdf * sizeof_pointer)
  /\ len (concat (fphash_mem bdf)) <= 2 ^ bits_mem bdf.
Proof.
  intros Hok HR E. pose proof (delta_prepare_mem_spec avail adler32 buf h Hok) as P.
  rewrite E in P.
  destruct P as (_ & O & I & Hi & Hn & Hl & Hcount & Hlen & Hbits).
  pose proof (len_nonneg buf) as H0.
  assert (Hq : 0 <= len buf / BLK_SIZE < 2 ^ 27).
  { unfold BLK_SIZE. split; [apply Z.div_pos; lia|].
    apply Z.div_lt_upper_bound; lia. }
  rewrite u32_small in Hbits by lia.
  destruct (hashbits_smallest (len buf / BLK_SIZE + 1) ltac:(lia)) as (Hb1 & Hb2 & _).
  rewrite <- Hbits in Hb1, Hb2.
  set (hsize := 2 ^ bits_mem bdf) in *.
  rewrite Hlen in Hn, Hl.
  assert (Hrec : len (concat (fphash_mem bdf)) <= hsize) by lia.
  split; [|split; [exact Hn|split; [exact Hl|exact Hrec]]].
  pose proof (arena_shape _ _ _ I) as Hs.
  unfold chunks, len. rewrite length_map. fold (len (ancur (cha bdf))).
  destruct (ancur (cha bdf)) as [|n rest]; [change (len (@nil chanode)) with 0; lia|].
  destruct Hs as (Hs1 & _ & Hs3).
  rewrite len_cons. pose proof (len_nonneg rest) as Hr0.
  unfold len in Hs3 at 1. rewrite length_map in Hs3.
  fold (len (concat (fphash_mem bdf))) in Hs3.
  rewrite Hi in Hs1, Hs3. rewrite Hn in Hs3. unfold sizeof_bdrecord_t in *.
  assert (Hh4 : hsize < 4 * (hsize / 4 + 1)) by (Z.div_mod_to_equations; lia).
  assert (0 <= hsize / 4) by (Z.div_mod_to_equations; lia).
  destruct (Z.le_gt_cases (len rest) 3) as [?|Hbig]; [lia|].
  exfalso.
  assert (4 * ((hsize / 4 + 1) * 24) <= len rest * ((hsize / 4 + 1) * 24)) by nia.
  nia.
Qed.


(** X22: the encoder without a heap is the encoder with memory to spare.
    A delta that [diff_delta] returns is, whichever allocations failed on
    the way, the delta of the model without a heap; and when no allocation
    fails the two models end alike: a delta against the same delta, null
    against null, a store outside the buffer against a store outside the
    buffer. *)
Theorem diff_delta_mem_agrees (R T : list byte) (max_size : Z) (h : heap) :
  len R < 2 ^ 31 -> heap_ok h ->
  (forall b d h', diff_delta_mem avail adler32 R T max_size h
                  = Ret (Some (b, d)) h' ->
     diff_delta adler32 R T max_size = Done d)
  /\ ((forall k, (calls h <= k)%nat -> avail k = true) ->
      match diff_delta adler32 R T max_size with
      | Done d =>
          exists b h', diff_delta_mem avail adler32 R T max_size h
                       = Ret (Some (b, d)) h'
      | ReturnNull =>
          exists h', diff_delta_mem avail adler32 R T max_size h = Ret None h'
      | OutOfBounds _ _ =>
          diff_delta_mem avail adler32 R T max_size h = Undefined
      | OutOfFuel =>
          diff_delta_mem avail adler32 R T max_size h = Unfinished
      end).
Proof.
  intros _ Hok. pose proof (diff_delta_mem_spec avail adler32 R T max_size h Hok) as P.
  split.
  - intros b d h' E. rewrite E in P. apply P.
  - intros Hall.
    destruct (diff_delta_mem avail adler32 R T max_size h) as [[[b d]|] h'| |].
    + destruct P as (-> & _). eauto.
    + destruct P as (_ & [->|(k & Hk & Ek)]); [eauto|].
      rewrite Hall in Ek by lia. discriminate.
    + destruct P as (i & c & ->). reflexivity.
    + rewrite P. reflexivity.
Qed.

(** X23: without a cap, null means out of memory.  For a non-empty
    reference and a non-empty target (of sizes the [int] and [unsigned int]
    variables of the source hold) and [max_size = 0], from any heap:
    [diff_delta] returns the delta, in a block of its own, or it returns
    null after an allocation has failed, leaving the heap as it found it.
    Nothing else happens: no store leaves the buffer and nothing is freed
    twice. *)
Theorem null_means_out_of_memory (R T : list byte) (h : heap) :
  R <> [] -> T <> [] -> len R < 2 ^ 31 -> len T <= 2 ^ 29 -> heap_ok h ->
  (exists b h',
     diff_delta_mem avail adler32 R T 0 h
     = Ret (Some (b, header R T ++ ser_ops (delta_ops adler32 R T))) h'
     /\ live h !! b = None /\ dom (live h') = {[b]} ∪ dom (live h))
  \/ (exists h' k,
        diff_delta_mem avail adler32 R T 0 h = Ret None h'
        /\ live h' = live h
        /\ (calls h <= k < calls h')%nat /\ avail k = false).
Proof.
  intros HRne HTne HR HT Hok.
  pose proof (diff_delta_mem_spec avail adler32 R T 0 h Hok) as P.
  rewrite (diff_delta_total adler32 R T HRne HTne HR HT) in P.
  destruct (diff_delta_mem avail adler32 R T 0 h) as [[[b d]|] h'| |].
  - left. destruct P as (Ed & Hn & size & _ & Hm). inversion Ed; subst d.
    exists b, h'. split; [reflexivity|]. split; [exact Hn|].
    rewrite Hm. apply dom_insert_L.
  - right. destruct P as (Hl & [Ed|(k & Hk & Ek)]); [discriminate|].
    exists h', k. auto.
  - destruct P as (i & c & Ed). discriminate.
  - discriminate.
Qed.

End MemoryMore.

Lemma delta_prepare_out_of_memory_witness :
  (exists r h',
     delta_prepare_mem (MemExamples.all_but 1) Zlib.adler32 Examples.hello
       empty_heap = Ret r h')
  /\ (forall h',
        delta_prepare_mem (MemExamples.all_but 1) Zlib.adler32 Examples.hello
          empty_heap = Ret None h' ->
        live h' = live empty_heap
        /\ exists k, (calls empty_heap <= k < calls h')%nat
                     /\ MemExamples.all_but 1 k = false)
  /\ ((forall k, (calls empty_heap <= k)%nat -> MemExamples.all_but 1 k = true) ->
      exists bdf h',
        delta_prepare_mem (MemExamples.all_but 1) Zlib.adler32 Examples.hello
          empty_heap = Ret (Some bdf) h').
Proof.
  apply (delta_prepare_out_of_memory (MemExamples.all_but 1) Zlib.adler32
           Examples.hello empty_heap).
  - vm_compute. reflexivity.
  - exact empty_heap_ok.
Defined.

Lemma prepare_then_cleanup_witness :
  index_of MemExamples.ramp_bdf = delta_prepare Zlib.adler32 Examples.ramp
  /\ (forall b, is_Some (live MemExamples.ramp_heap !! b) <->
        is_Some (live empty_heap !! b) \/ b = fphash_block MemExamples.ramp_bdf
        \/ b ∈ chunks (cha MemExamples.ramp_bdf))
  /\ exists h'',
       delta_cleanup MemExamples.ramp_bdf MemExamples.ramp_heap = Ret tt h''
       /\ live h'' = live empty_heap.
Proof.
  apply (prepare_then_cleanup MemExamples.plenty Zlib.adler32 Examples.ramp
           empty_heap MemExamples.ramp_heap MemExamples.ramp_bdf).
  - vm_compute. reflexivity.
  - exact empty_heap_ok.
  - vm_compute. reflexivity.
Defined.

Lemma records_apart_witness :
  let slots := map fst (concat (fphash_mem MemExamples.ramp_bdf)) in
  NoDup slots
  /\ (forall a, a ∈ slots ->
        live MemExamples.ramp_heap !! a.1
        = Some (sizeof_chanode_t + nsize (cha MemExamples.ramp_bdf))
        /\ a.1 <> fphash_block MemExamples.ramp_bdf
        /\ sizeof_chanode_t <= a.2
        /\ a.2 + sizeof_bdrecord_t
           <= sizeof_chanode_t + nsize (cha MemExamples.ramp_bdf))
  /\ (forall a b, a ∈ slots -> b ∈ slots -> a <> b ->
        apart sizeof_bdrecord_t a b).
Proof.
  apply (records_apart MemExamples.plenty Zlib.adler32 Examples.ramp
           empty_heap MemExamples.ramp_heap MemExamples.ramp_bdf).
  - vm_compute. reflexivity.
  - exact empty_heap_ok.
  - vm_compute. reflexivity.
Defined.

Lemma arena_at_most_four_chunks_witness :
  len (chunks (cha MemExamples.ramp_bdf)) <= 4
  /\ nsize (cha MemExamples.ramp_bdf)
     = (2 ^ bits_mem MemExamples.ramp_bdf / 4 + 1) * sizeof_bdrecord_t
  /\ live MemExamples.ramp_heap !! fphash_block MemExamples.ramp_bdf
     = Some (2 ^ bits_mem MemExamples.ramp_bdf * sizeof_pointer)
  /\ len (concat (fphash_mem MemExamples.ramp_bdf))
     <= 2 ^ bits_mem MemExamples.ramp_bdf.
Proof.
  apply (arena_at_most_four_chunks MemExamples.plenty Zlib.adler32 Examples.ramp
           empty_heap MemExamples.ramp_heap MemExamples.ramp_bdf).
  - exact empty_heap_ok.
  - vm_compute. reflexivity.
  - vm_compute. reflexivity.
Defined.


Lemma diff_delta_mem_agrees_witness :
  (forall b d h',
     diff_delta_mem MemExamples.plenty Zlib.adler32 Examples.hello
       Examples.hello 4 empty_heap = Ret (Some (b, d)) h' ->
     diff_delta Zlib.adler32 Examples.hello Examples.hello 4 = Done d)
  /\ ((forall k, (calls empty_heap <= k)%nat -> MemExamples.plenty k = true) ->
      match diff_delta Zlib.adler32 Examples.hello Examples.hello 4 with
      | Done d =>
          exists b h',
            diff_delta_mem MemExamples.plenty Zlib.adler32 Examples.hello
              Examples.hello 4 empty_heap = Ret (Some (b, d)) h'
      | ReturnNull =>
          exists h',
            diff_delta_mem MemExamples.plenty Zlib.adler32 Examples.hello
              Examples.hello 4 empty_heap = Ret None h'
      | OutOfBounds _ _ =>
          diff_delta_mem MemExamples.plenty Zlib.adler32 Examples.hello
            Examples.hello 4 empty_heap = Undefined
      | OutOfFuel =>
          diff_delta_mem MemExamples.plenty Zlib.adler32 Examples.hello
            Examples.hello 4 empty_heap = Unfinished
      end).
Proof.
  apply (diff_delta_mem_agrees MemExamples.plenty Zlib.adler32 Examples.hello
           Examples.hello 4 empty_heap).
  - vm_compute. reflexivity.
  - exact empty_heap_ok.
Defined.

Lemma null_means_out_of_memory_witness :
  (exists b h',
     diff_delta_mem (MemExamples.all_but 1) Zlib.adler32 Examples.hello
       Examples.hello 0 empty_heap
     = Ret (Some (b, header Examples.hello Examples.hello
                     ++ ser_ops (delta_ops Zlib.adler32 Examples.hello
                                   Examples.hello))) h'
     /\ live empty_heap !! b = None
     /\ dom (live h') = {[b]} ∪ dom (live empty_heap))
  \/ (exists h' k,
        diff_delta_mem (MemExamples.all_but 1) Zlib.adler32 Examples.hello
          Examples.hello 0 empty_heap = Ret None h'
        /\ live h' = live empty_heap
        /\ (calls empty_heap <= k < calls h')%nat
        /\ MemExamples.all_but 1 k = false).
Proof.
  apply (null_means_out_of_memory (MemExamples.all_but 1) Zlib.adler32
           Examples.hello Examples.hello empty_heap).
  - discriminate.
  - discriminate.
  - vm_compute. reflexivity.
  - vm_compute. discriminate.
  - exact empty_heap_ok.
Defined.

(** ** A delta too long for the 32-bit size of its buffer *)

(** The literal path on a state with room for two more bytes. *)
Lemma emit_insert_Done (st : enc_state) (moff' : Z) (b : byte)
    (rest : list byte) :
  0 <= inscnt st < 0x7f -> inscnt st + 1 <= outpos st ->
  outpos st + 2 <= len (out st) -> len (out st) < 2 ^ 32 ->
  exists st1,
    emit_insert st moff' b rest = Done st1
    /\ len (out st1) = len (out st) /\ outsize st1 = outsize st
    /\ outpos st1 = outpos st + (if inscnt st =? 0 then 2 else 1)
    /\ inscnt st1 = (if inscnt st + 1 =? 0x7f then 0 else inscnt st + 1)
    /\ data st1 = rest /\ moff st1 = moff'.
Proof.
  intros Hi Hp Hroom Hcap. unfold emit_insert.
  destruct (Z.eqb_spec (inscnt st) 0) as [E0|E0].
  - rewrite E0. rewrite (u32_small (outpos st + 1)) by lia.
    rewrite store_in_bounds by lia. rewrite bind_Done.
    rewrite (u32_small (outpos st + 1 + 1)) by lia.
    change (u32 (0 + 1)) with 1. change (1 =? 127) with false.
    change (0 + 1 =? 127) with false. cbv iota. rewrite ret_Done.
    eexists. split; [reflexivity|]. cbn [out outsize outpos inscnt data moff].
    unfold len. rewrite length_insert. repeat split; lia.
  - rewrite store_in_bounds by lia. rewrite bind_Done.
    rewrite (u32_small (outpos st + 1)) by lia.
    rewrite (u32_small (inscnt st + 1)) by lia.
    destruct (Z.eqb_spec (inscnt st + 1) 127) as [E|E].
    + rewrite (u32_small (outpos st + 1 - (inscnt st + 1) - 1)) by lia.
      rewrite store_in_bounds
        by (unfold len in *; rewrite length_insert; lia).
      rewrite bind_Done, ret_Done.
      eexists. split; [reflexivity|]. cbn [out outsize outpos inscnt data moff].
      unfold len. rewrite !length_insert. repeat split; lia.
    + rewrite ret_Done.
      eexists. split; [reflexivity|]. cbn [out outsize outpos inscnt data moff].
      unfold len. rewrite length_insert. repeat split; lia.
Qed.

Section Overflow.
Variable adler32 : Z -> list byte -> Z.
Variables (R : list byte) (bdf : bdfile).

(** One pass over a byte that the reference does not hold, on a state with
    room for the longest opcode: the byte goes out as a literal, and the
    buffer is as large as [outsize] and keeps room, or the new size has
    wrapped and the buffer ends at or before [outpos]. *)
Lemma literal_pass (st : enc_state) (b : byte) (rest : list byte) :
  data st = b :: rest -> (forall x, x ∈ data st -> x ∉ R) ->
  len (out st) = outsize st -> 8192 <= outsize st < 2 ^ 31 ->
  0 <= inscnt st < 0x7f -> inscnt st + 1 <= outpos st ->
  outpos st + 7 < outsize st ->
  exists st',
    iteration adler32 bdf R 0 st = Done st'
    /\ data st' = rest /\ 0 <= inscnt st' < 0x7f
    /\ inscnt st' + 1 <= outpos st'
    /\ outpos st + 1 <= outpos st' < 2 ^ 31
    /\ ((len (out st') = outsize st' /\ 8192 <= outsize st' < 2 ^ 31
         /\ outpos st' + 7 < outsize st')
        \/ len (out st') <= outpos st').
Proof.
  intros Hd Hdis Hlen Hsz Hi Hp Hroom.
  unfold iteration. rewrite Hd. rewrite <- Hd. unfold find_match.
  rewrite (walk_chain_disjoint R (data st) _ _ Hdis 0 (moff st) ltac:(lia)).
  change (insert_path 0 (moff st)) with true. cbv iota.
  destruct (emit_insert_Done st (moff st) b rest Hi Hp ltac:(lia) ltac:(lia))
    as (st1 & E & L1 & S1 & P1 & I1 & D1 & _).
  rewrite E, bind_Done.
  assert (HP1 : outpos st + 1 <= outpos st1 <= outpos st + 2)
    by (rewrite P1; destruct (inscnt st =? 0); lia).
  assert (HI1 : 0 <= inscnt st1 < 0x7f /\ inscnt st1 + 1 <= outpos st1).
  { rewrite I1. destruct (Z.eqb_spec (inscnt st + 1) 127); lia. }
  unfold grow. change MAX_OP_SIZE with 7. rewrite S1.
  rewrite (u32_small (outsize st - 7)) by lia.
  change (negb (0 =? 0)) with false. cbn [andb].
  destruct (Z.geb_spec (outpos st1) (outsize st - 7)) as [Hg|Hg].
  - rewrite ret_Done. eexists. split; [reflexivity|].
    cbn [out outsize outpos inscnt data].
    split; [exact D1|]. split; [apply HI1|]. split; [apply HI1|].
    split; [lia|].
    assert (H0 : 0 <= u32 (outsize st * 3) / 2)
      by (apply Z.div_pos; [apply u32_range | lia]).
    rewrite len_resize by exact H0.
    destruct (Z.lt_ge_cases (outsize st * 3) (2 ^ 32)) as [Hs|Hw].
    + left. rewrite u32_small by lia. split; [reflexivity|].
      split; Z.div_mod_to_equations; lia.
    + right. unfold u32.
      replace (outsize st * 3) with (outsize st * 3 - 2 ^ 32 + 1 * 2 ^ 32) by lia.
      rewrite Z.mod_add by lia. rewrite Z.mod_small by lia.
      Z.div_mod_to_equations. lia.
  - rewrite ret_Done. exists st1. split; [reflexivity|].
    split; [exact D1|]. split; [apply HI1|]. split; [apply HI1|].
    split; [lia|]. left. lia.
Qed.

(** On a buffer that ends at or before [outpos] the next literal is stored
    outside it. *)
Lemma literal_outside (st : enc_state) (b : byte) (rest : list byte) :
  data st = b :: rest -> (forall x, x ∈ data st -> x ∉ R) ->
  len (out st) <= outpos st -> 0 <= outpos st < 2 ^ 31 ->
  exists i c, iteration adler32 bdf R 0 st = OutOfBounds i c.
Proof.
  intros Hd Hdis Hlen Hp.
  unfold iteration. rewrite Hd. rewrite <- Hd. unfold find_match.
  rewrite (walk_chain_disjoint R (data st) _ _ Hdis 0 (moff st) ltac:(lia)).
  change (insert_path 0 (moff st)) with true. cbv iota.
  unfold emit_insert.
  set (p1 := if inscnt st =? 0 then u32 (outpos st + 1) else outpos st).
  assert (Hp1 : outpos st <= p1).
  { unfold p1. destruct (inscnt st =? 0); [rewrite u32_small|]; lia. }
  destruct (store_cases (out st) p1 b) as [[Hin _]|[_ Hst]]; [lia|].
  rewrite Hst. exists p1, (len (out st)). reflexivity.
Qed.

(** A run of literals that is long enough ends outside the buffer: [outpos]
    stays below [outsize], [outsize] below [2 ^ 31], so the size has to wrap
    before [2 ^ 31] bytes are out. *)
Lemma literal_run_overruns (fuel : nat) :
  forall st,
    (forall x, x ∈ data st -> x ∉ R) ->
    len (out st) = outsize st -> 8192 <= outsize st < 2 ^ 31 ->
    0 <= inscnt st < 0x7f -> inscnt st + 1 <= outpos st ->
    outpos st + 7 < outsize st ->
    2 ^ 31 <= outpos st + len (data st) ->
    (length (data st) <= fuel)%nat ->
    exists i c, encode_loop adler32 fuel bdf R 0 st = OutOfBounds i c.
Proof.
  induction fuel as [|fuel IH]; intros st Hdis Hlen Hsz Hi Hp Hroom Hlong Hf.
  - exfalso. unfold len in Hlong. lia.
  - destruct (data st) as [|b rest] eqn:Hd.
    { exfalso. change (len (@nil byte)) with 0 in Hlong. lia. }
    assert (Hdis1 : forall x, x ∈ data st -> x ∉ R) by (rewrite Hd; exact Hdis).
    destruct (literal_pass st b rest Hd Hdis1 Hlen Hsz Hi Hp Hroom)
      as (st' & E & D' & I' & P' & O' & Hcase).
    cbn [encode_loop]. rewrite Hd, E, bind_Done.
    assert (Hdis' : forall x, x ∈ data st' -> x ∉ R).
    { rewrite D'. intros x Hx. apply Hdis. apply elem_of_cons. right. exact Hx. }
    rewrite len_cons in Hlong. cbn [length] in Hf.
    destruct Hcase as [(L' & S' & R')|Hbroken].
    + apply IH; try assumption.
      * rewrite D'. lia.
      * rewrite D'. lia.
    + destruct rest as [|b' rest'] eqn:Hrest.
      { exfalso. change (len (@nil byte)) with 0 in Hlong. lia. }
      destruct fuel as [|fuel']; [cbn [length] in Hf; lia|].
      destruct (literal_outside st' b' rest' D' Hdis' Hbroken ltac:(lia))
        as (i & c & Eo).
      cbn [encode_loop]. rewrite D', Eo. exists i, c. reflexivity.
Qed.

End Overflow.

(** [diff_delta] without a cap, on a target of [2 ^ 31] bytes or more none
    of which the reference holds. *)
Lemma literal_overflow (adler32 : Z -> list byte -> Z) (R T : list byte) :
  R <> [] -> len R < 2 ^ 35 -> 2 ^ 31 <= len T < 2 ^ 35 ->
  (forall x, x ∈ T -> x ∉ R) ->
  exists i c, diff_delta adler32 R T 0 = OutOfBounds i c.
Proof.
  intros HRne HR HT Hdis.
  pose proof (nonempty_len R HRne) as HR1.
  pose proof (size_bytes_len (len R) ltac:(lia)) as HsR.
  pose proof (size_bytes_len (len T) ltac:(lia)) as HsT.
  unfold diff_delta.
  destruct (Z.eqb_spec (len R) 0) as [E|_]; [lia|].
  destruct (Z.eqb_spec (len T) 0) as [E|_]; [lia|]. cbn [orb].
  change (negb (0 =? 0)) with false. cbn [andb].
  set (out0 := replicate (Z.to_nat 8192) x00).
  assert (Hl0 : len out0 = 8192).
  { unfold out0, len. rewrite length_replicate. lia. }
  clearbody out0.
  pose proof (put_size_spec (len R) out0 0 [] ltac:(lia) (take_0 _) eq_refl
                ltac:(lia) ltac:(lia)) as S1.
  destruct (put_size (len R) out0 0) as [[out1 p1]| |? ?|]; [|destruct S1| |].
  2: { exfalso. change (len (@nil byte)) with 0 in S1. lia. }
  2: { exfalso. rewrite Z.shiftr_div_pow2 in S1 by lia.
       assert (len R / 2 ^ 7 <= len R) by (apply Z.div_le_upper_bound; lia).
       lia. }
  destruct S1 as (T1 & L1 & P1 & B1). rewrite bind_Done.
  change (len (@nil byte)) with 0 in P1. cbn [app] in T1.
  pose proof (put_size_spec (len T) out1 p1 (size_bytes (len R)) ltac:(lia) T1
                ltac:(lia) ltac:(lia) ltac:(lia)) as S2.
  destruct (put_size (len T) out1 p1) as [[out2 p2]| |? ?|]; [|destruct S2| |].
  2: { exfalso. lia. }
  2: { exfalso. rewrite Z.shiftr_div_pow2 in S2 by lia.
       assert (len T / 2 ^ 7 <= len T) by (apply Z.div_le_upper_bound; lia).
       lia. }
  destruct S2 as (T2 & L2 & P2 & B2). rewrite bind_Done.
  apply (literal_run_overruns adler32 R (delta_prepare adler32 R));
    cbn [out outsize outpos inscnt data]; try assumption; try lia.
Qed.

(** ** What the two paths store *)

Lemma run_at_room (R data : list byte) (r : bdrecord) :
  0 <= ptr r < len R -> run_at R data r <= len R - ptr r.
Proof.
  intros Hp. unfold run_at.
  set (c0 := u32 (len R - ptr r)).
  assert (H0 : 0 <= c0 <= len R - ptr r).
  { unfold c0, u32. split; [apply Z.mod_pos_bound; lia|]. apply Z.mod_le; lia. }
  pose proof (len_nonneg data) as Hd.
  destruct (Z.gtb_spec c0 (len data)).
  - destruct (match_run_prefix (len data) (drop (Z.to_nat (ptr r)) R) data Hd)
      as (M1 & _). lia.
  - destruct (match_run_prefix c0 (drop (Z.to_nat (ptr r)) R) data ltac:(lia))
      as (M1 & _). lia.
Qed.

(** Whatever the size of the reference, a match lies inside it: [csize]
    starts from [ref_top - brec->ptr] (line 215). *)
Lemma find_match_inside (adler32 : Z -> list byte -> Z) (R data : list byte)
    (moff0 msize moff : Z) :
  find_match adler32 (delta_prepare adler32 R) R data moff0 = (msize, moff) ->
  0 < msize ->
  0 <= moff < 2 ^ 32 /\ moff + msize <= len R /\ msize <= 0x10000.
Proof.
  intros Hf Hpos. unfold find_match in Hf.
  destruct (walk_chain_spec R data _ _ 0 moff0 msize moff Hf ltac:(lia))
    as (H1 & _ & H3).
  destruct H3 as [[E _]|(_ & pre & r & post & Ec & _ & Er & Em & _)]; [lia|].
  match type of Ec with bucket ?t ?i = _ =>
    destruct (delta_prepare_bucket_ok adler32 R i) as [_ Hrange] end.
  rewrite Ec in Hrange. rewrite Forall_forall in Hrange.
  assert (Hp : 0 <= ptr r < len R).
  { apply Hrange. apply elem_of_app. right. apply elem_of_cons. left. reflexivity. }
  pose proof (run_at_room R data r Hp) as Hroom.
  assert (Hm : 0 <= moff <= ptr r /\ moff < 2 ^ 32).
  { rewrite Em. pose proof (u32_range (ptr r)). unfold u32 in *.
    pose proof (Z.mod_le (ptr r) (2 ^ 32) ltac:(lia) ltac:(lia)). lia. }
  unfold capped_run in Er. lia.
Qed.

Lemma put_if_Done (v flag : Z) (o : list byte) (p i : Z) :
  0 <= p < len o -> len o < 2 ^ 32 ->
  exists o' p' i',
    put_if v flag (o, p, i) = Done (o', p', i')
    /\ len o' = len o /\ p <= p' <= p + 1.
Proof.
  intros Hp Hl. unfold put_if. destruct (Z.land v 0xff =? 0).
  - exists o, p, i. rewrite ret_Done. repeat split; lia.
  - rewrite store_in_bounds by lia. rewrite bind_Done, ret_Done.
    rewrite u32_small by lia. eexists _, _, _. split; [reflexivity|].
    unfold len. rewrite length_insert. lia.
Qed.

(** The copy path on a state with room for the longest opcode. *)
Lemma emit_copy_Done (st : enc_state) (msize moff' : Z) :
  0 <= inscnt st -> inscnt st + 1 <= outpos st ->
  outpos st + 7 <= len (out st) -> len (out st) < 2 ^ 32 ->
  exists st1, emit_copy st msize moff' = Done st1.
Proof.
  intros Hi Hp Hroom Hcap. unfold emit_copy.
  assert (Hc : exists out0, close_insert st = Done out0 /\ len out0 = len (out st)).
  { unfold close_insert. destruct (inscnt st =? 0).
    - exists (out st). split; reflexivity.
    - rewrite u32_small by lia. rewrite store_in_bounds by lia.
      eexists. split; [reflexivity|]. unfold len. rewrite length_insert. reflexivity. }
  destruct Hc as (out0 & -> & L0). rewrite bind_Done.
  rewrite (u32_small (outpos st + 1)) by lia.
  destruct (put_if_Done moff' 1 out0 (outpos st + 1) 128 ltac:(lia) ltac:(lia))
    as (o1 & p1 & i1 & -> & L1 & B1). rewrite bind_Done.
  destruct (put_if_Done (Z.shiftr moff' 8) 2 o1 p1 i1 ltac:(lia) ltac:(lia))
    as (o2 & p2 & i2 & -> & L2 & B2). rewrite bind_Done.
  destruct (put_if_Done (Z.shiftr (Z.shiftr moff' 8) 8) 4 o2 p2 i2
              ltac:(lia) ltac:(lia))
    as (o3 & p3 & i3 & -> & L3 & B3). rewrite bind_Done.
  destruct (put_if_Done (Z.shiftr (Z.shiftr (Z.shiftr moff' 8) 8) 8) 8 o3 p3 i3
              ltac:(lia) ltac:(lia))
    as (o4 & p4 & i4 & -> & L4 & B4). rewrite bind_Done.
  destruct (put_if_Done msize 16 o4 p4 i4 ltac:(lia) ltac:(lia))
    as (o5 & p5 & i5 & -> & L5 & B5). rewrite bind_Done.
  destruct (put_if_Done (Z.shiftr msize 8) 32 o5 p5 i5 ltac:(lia) ltac:(lia))
    as (o6 & p6 & i6 & -> & L6 & B6). rewrite bind_Done.
  rewrite store_in_bounds by lia. rewrite bind_Done, ret_Done.
  eexists. reflexivity.
Qed.

(** The bytes the copy path has stored when it completes: behind what was
    written before, with the length byte of the open run filled in, the
    opcode [COPY (moff, msize)]. *)
Lemma emit_copy_bytes (st : enc_state) (msize moff' : Z) (st1 : enc_state) :
  emit_copy st msize moff' = Done st1 ->
  len (out st) < 2 ^ 32 -> 0 <= outpos st ->
  exists out0,
    close_insert st = Done out0
    /\ take (Z.to_nat (outpos st1)) (out st1)
       = take (Z.to_nat (outpos st)) out0 ++ ser_op (Copy moff' msize).
Proof.
  intros H Hcap Hp0. unfold emit_copy in H.
  apply bind_Done_inv in H. destruct H as (out0 & H0 & H).
  exists out0. split; [exact H0|].
  apply close_insert_inv in H0.
  apply bind_Done_inv in H. destruct H as ([[o1 p1] i1] & H1 & H).
  apply bind_Done_inv in H. destruct H as ([[o2 p2] i2] & H2 & H).
  apply bind_Done_inv in H. destruct H as ([[o3 p3] i3] & H3 & H).
  apply bind_Done_inv in H. destruct H as ([[o4 p4] i4] & H4 & H).
  apply bind_Done_inv in H. destruct H as ([[o5 p5] i5] & H5 & H).
  apply bind_Done_inv in H. destruct H as ([[o6 p6] i6] & H6 & H).
  apply bind_Done_inv in H. destruct H as (out2 & Hs & H).
  rewrite ret_Done in H. inversion H; subst st1; clear H.
  cbn [out outpos].
  pose proof (put_if_len _ _ _ _ _ _ _ _ H1) as L1.
  pose proof (put_if_len _ _ _ _ _ _ _ _ H2) as L2.
  pose proof (put_if_len _ _ _ _ _ _ _ _ H3) as L3.
  pose proof (put_if_len _ _ _ _ _ _ _ _ H4) as L4.
  pose proof (put_if_len _ _ _ _ _ _ _ _ H5) as L5.
  pose proof (put_if_len _ _ _ _ _ _ _ _ H6) as L6.
  apply store_inv in Hs. destruct Hs as (Hb & -> & Hl).
  assert (Hlt : outpos st < len out0) by lia.
  set (P0 := take (Z.to_nat (outpos st)) out0).
  assert (Hw0 : written P0 out0 (outpos st))
    by (apply take_written; [lia | reflexivity]).
  destruct (written_skip P0 out0 (outpos st) Hw0 Hlt) as [x1 (Ht & Hp & Hle)].
  assert (Hw1 : written_from (outpos st + 1) (P0 ++ [x1]) out0 (outpos st + 1)).
  { repeat split; try lia. intros _. exact Ht. }
  assert (Hlo : 0 <= outpos st + 1) by lia.
  rewrite (u32_small (outpos st + 1)) in H1 by lia.
  pose proof (put_if_spec moff' 1 out0 (outpos st + 1) 128 _ _ Hw1 ltac:(lia) Hlo) as S1.
  rewrite H1 in S1. destruct S1 as (W1 & _ & I1).
  pose proof (put_if_spec (Z.shiftr moff' 8) 2 o1 p1 i1 _ _ W1 ltac:(lia) Hlo) as S2.
  rewrite H2 in S2. destruct S2 as (W2 & _ & I2).
  pose proof (put_if_spec (Z.shiftr (Z.shiftr moff' 8) 8) 4 o2 p2 i2 _ _ W2
                ltac:(lia) Hlo) as S3.
  rewrite H3 in S3. destruct S3 as (W3 & _ & I3).
  pose proof (put_if_spec (Z.shiftr (Z.shiftr (Z.shiftr moff' 8) 8) 8) 8 o3 p3 i3
                _ _ W3 ltac:(lia) Hlo) as S4.
  rewrite H4 in S4. destruct S4 as (W4 & _ & I4).
  pose proof (put_if_spec msize 16 o4 p4 i4 _ _ W4 ltac:(lia) Hlo) as S5.
  rewrite H5 in S5. destruct S5 as (W5 & _ & I5).
  pose proof (put_if_spec (Z.shiftr msize 8) 32 o5 p5 i5 _ _ W5 ltac:(lia) Hlo) as S6.
  rewrite H6 in S6. destruct S6 as (W6 & _ & I6).
  destruct W6 as (Hp6 & Hlo6 & Hmax6 & Ht6).
  assert (Hle6 : p6 <= len o6) by lia.
  specialize (Ht6 Hle6).
  rewrite <- !app_assoc in Ht6, Hp6. cbn [app] in Ht6, Hp6.
  fold (copy_fields moff' msize) in Ht6, Hp6.
  assert (Ecmd : i6 = copy_cmd moff' msize).
  { unfold copy_cmd. subst i6 i5 i4 i3 i2 i1. reflexivity. }
  assert (Hw6 : written (P0 ++ x1 :: copy_fields moff' msize) o6 p6).
  { split; [exact Ht6|]. split; [exact Hp6 | exact Hle6]. }
  pose proof (written_backfill P0 _ o6 p6 x1 (u8 i6) Hw6) as Hw7.
  pose proof Hw0 as (_ & HlenP & _).
  rewrite <- HlenP in Hw7.
  destruct Hw7 as (Ht7 & _). rewrite Ht7, Ecmd. reflexivity.
Qed.

(** What the literal path has stored when it completes: the byte behind
    what was written, after a cell for the length of the run when the run is
    new; the run is closed with its length byte when it is full. *)
Lemma emit_insert_effect (st : enc_state) (moff' : Z) (b : byte)
    (rest : list byte) (st1 : enc_state) :
  emit_insert st moff' b rest = Done st1 ->
  0 <= inscnt st < 0x7f -> inscnt st < outpos st < len (out st) ->
  len (out st) < 2 ^ 32 ->
  data st1 = rest
  /\ outpos st1 = outpos st + (if inscnt st =? 0 then 2 else 1)
  /\ out st1 !! Z.to_nat (outpos st1 - 1) = Some b
  /\ inscnt st1 = (if inscnt st + 1 =? 0x7f then 0 else inscnt st + 1)
  /\ (inscnt st + 1 = 0x7f ->
      out st1 !! Z.to_nat (outpos st1 - 0x7f - 1) = Some (u8 0x7f))
  /\ take (Z.to_nat (outpos st - inscnt st - 1)) (out st1)
     = take (Z.to_nat (outpos st - inscnt st - 1)) (out st).
Proof.
  intros H Hi Hp Hcap. unfold emit_insert in H.
  apply bind_Done_inv in H. destruct H as (out1 & H1 & H).
  apply store_inv in H1. destruct H1 as (B1 & -> & L1).
  set (p1 := if inscnt st =? 0 then u32 (outpos st + 1) else outpos st) in *.
  assert (Ep1 : p1 = outpos st + (if inscnt st =? 0 then 1 else 0)).
  { unfold p1. destruct (inscnt st =? 0); [apply u32_small|]; lia. }
  rewrite (u32_small (p1 + 1)) in H by lia.
  rewrite (u32_small (inscnt st + 1)) in H by lia.
  assert (Hkeep : forall (o : list byte) (k : Z) (v : byte),
            outpos st - inscnt st - 1 <= k ->
            take (Z.to_nat (outpos st - inscnt st - 1)) (<[Z.to_nat k := v]> o)
            = take (Z.to_nat (outpos st - inscnt st - 1)) o).
  { intros o k v Hk. apply take_insert_ge. lia. }
  destruct (Z.eqb_spec (inscnt st + 1) 127) as [E|E].
  - apply bind_Done_inv in H. destruct H as (out2 & H2 & H).
    apply store_inv in H2. destruct H2 as (B2 & -> & L2).
    rewrite ret_Done in H. inversion H; subst st1; clear H.
    cbn [out outpos inscnt data].
    assert (E0 : (inscnt st =? 0) = false) by (apply Z.eqb_neq; lia).
    rewrite E0 in *.
    assert (Ei : u32 (p1 + 1 - (inscnt st + 1) - 1) = p1 - inscnt st - 1).
    { rewrite u32_small by lia. lia. }
    rewrite Ei in *.
    split; [reflexivity|]. split; [lia|]. split.
    + rewrite list_lookup_insert_ne by lia.
      replace (p1 + 1 - 1) with p1 by lia.
      apply list_lookup_insert_eq. unfold len in B1. lia.
    + split; [reflexivity|]. split.
      * intros _. replace (p1 + 1 - 127 - 1) with (p1 - inscnt st - 1) by lia.
        rewrite <- E. apply list_lookup_insert_eq.
        rewrite length_insert. unfold len in *. rewrite length_insert in B2. lia.
      * rewrite !Hkeep by lia. reflexivity.
  - rewrite ret_Done in H. inversion H; subst st1; clear H.
    cbn [out outpos inscnt data].
    split; [reflexivity|]. split; [destruct (inscnt st =? 0); lia|]. split.
    + replace (p1 + 1 - 1) with p1 by lia.
      apply list_lookup_insert_eq. unfold len in B1. lia.
    + split; [reflexivity|]. split; [intros E'; lia|].
      apply Hkeep. destruct (inscnt st =? 0); lia.
Qed.

(** ** C1: a target too long for a buffer with a 32-bit size *)


Section Paths.
Variable adler32 : Z -> list byte -> Z.

(** ** C2: copies stay inside the reference *)


(** ** C3: the cap *)


(** ** C7: the choice between a literal and a copy *)

(** C7: in an iteration with best match [(msize, moff)], a literal is
    emitted exactly when [msize = 0] or [msize < cost moff msize], a COPY
    otherwise, and so when [msize] equals the cost.  The literal path stores
    the first byte of the rest of the target behind what is written, after
    a cell for the length of the run when the run is new, and moves on by
    that byte; it closes the run with the length 127 when the run is full.
    The copy path stores the bytes of the opcode [COPY (moff, msize)],
    [cost moff msize] of them, and moves on by [msize] bytes.  Either path
    completes when the buffer has room for its bytes. *)
Theorem literal_iff_cheaper (bdf : bdfile) (ref_buf : list byte) (max_size : Z)
    (st : enc_state) (b : byte) (rest : list byte) (msize moff' : Z) :
  data st = b :: rest ->
  find_match adler32 bdf ref_buf (data st) (moff st) = (msize, moff') ->
  ((msize = 0 \/ msize < cost moff' msize) ->
     iteration adler32 bdf ref_buf max_size st
     = emit_insert st moff' b rest ≫= grow max_size
     /\ (0 <= inscnt st < 0x7f -> inscnt st < outpos st < len (out st) ->
         len (out st) < 2 ^ 32 ->
         (forall st1, emit_insert st moff' b rest = Done st1 ->
            data st1 = rest
            /\ outpos st1 = outpos st + (if inscnt st =? 0 then 2 else 1)
            /\ out st1 !! Z.to_nat (outpos st1 - 1) = Some b
            /\ inscnt st1 = (if inscnt st + 1 =? 0x7f then 0 else inscnt st + 1)
            /\ (inscnt st + 1 = 0x7f ->
                out st1 !! Z.to_nat (outpos st1 - 0x7f - 1) = Some (u8 0x7f))
            /\ take (Z.to_nat (outpos st - inscnt st - 1)) (out st1)
               = take (Z.to_nat (outpos st - inscnt st - 1)) (out st))
         /\ (outpos st + 2 <= len (out st) ->
             exists st1, emit_insert st moff' b rest = Done st1)))
  /\ (~ (msize = 0 \/ msize < cost moff' msize) ->
     iteration adler32 bdf ref_buf max_size st
     = emit_copy st msize moff' ≫= grow max_size
     /\ (0 <= inscnt st < outpos st -> len (out st) < 2 ^ 32 ->
         (forall st1, emit_copy st msize moff' = Done st1 ->
            data st1 = drop (Z.to_nat msize) (data st)
            /\ outpos st1 = outpos st + cost moff' msize
            /\ inscnt st1 = 0
            /\ exists out0,
                 close_insert st = Done out0
                 /\ take (Z.to_nat (outpos st1)) (out st1)
                    = take (Z.to_nat (outpos st)) out0
                      ++ ser_op (Copy moff' msize))
         /\ (outpos st + 7 <= len (out st) ->
             exists st1, emit_copy st msize moff' = Done st1)))
  /\ (msize = cost moff' msize ->
      ~ (msize = 0 \/ msize < cost moff' msize)
      /\ iteration adler32 bdf ref_buf max_size st
         = emit_copy st msize moff' ≫= grow max_size).
Proof.
  intros Hd Hm.
  assert (Hcopy : ~ (msize = 0 \/ msize < cost moff' msize) ->
     iteration adler32 bdf ref_buf max_size st
     = emit_copy st msize moff' ≫= grow max_size).
  { intros Hn. unfold iteration. rewrite Hd. rewrite <- Hd, Hm.
    destruct (insert_path msize moff') eqn:E; [|reflexivity].
    apply insert_path_iff in E. contradiction. }
  split; [|split].
  - intros Hc. split.
    + unfold iteration. rewrite Hd. rewrite <- Hd, Hm.
      apply insert_path_iff in Hc. rewrite Hc. reflexivity.
    + intros Hi Hp Hcap. split.
      * intros st1 H1. exact (emit_insert_effect st moff' b rest st1 H1 Hi Hp Hcap).
      * intros Hroom.
        destruct (emit_insert_Done st moff' b rest Hi ltac:(lia) Hroom Hcap)
          as (st1 & H1 & _).
        exists st1. exact H1.
  - intros Hn. split.
    + exact (Hcopy Hn).
    + intros Hi Hcap. split.
      * intros st1 H1.
        destruct (emit_copy_inv st msize moff' st1 H1 Hcap ltac:(lia))
          as (Hpos & _ & _ & _ & Hins & _ & Hdata).
        split; [exact Hdata|]. split; [rewrite <- COPYOP_SIZE_cost; exact Hpos|].
        split; [exact Hins|].
        exact (emit_copy_bytes st msize moff' st1 H1 Hcap ltac:(lia)).
      * intros Hroom.
        exact (emit_copy_Done st msize moff' ltac:(lia) ltac:(lia) Hroom Hcap).
  - intros He.
    assert (Hn : ~ (msize = 0 \/ msize < cost moff' msize)).
    { intros [H0|Hlt]; [|lia].
      rewrite <- COPYOP_SIZE_cost in He.
      pose proof (COPYOP_SIZE_range moff' msize). lia. }
    split; [exact Hn | exact (Hcopy Hn)].
Qed.

End Paths.




Lemma literal_iff_cheaper_witness :
  let bdf := delta_prepare Zlib.adler32 Examples.hello in
  find_match Zlib.adler32 bdf Examples.hello (data hello_state) 0 = (11, 0)
  /\ cost 0 11 = 2
  /\ iteration Zlib.adler32 bdf Examples.hello 0 hello_state
     = emit_copy hello_state 11 0 ≫= grow 0
  /\ exists st1,
       emit_copy hello_state 11 0 = Done st1
       /\ data st1 = []
       /\ outpos st1 = 4
       /\ take (Z.to_nat (outpos st1)) (out st1) = map u8 [0; 0; 144; 11].
Proof.
  split; [vm_compute; reflexivity|]. split; [reflexivity|].
  destruct (literal_iff_cheaper Zlib.adler32
              (delta_prepare Zlib.adler32 Examples.hello) Examples.hello 0
              hello_state (u8 104) (tail Examples.hello) 11 0)
    as (_ & Hcopy & _).
  - reflexivity.
  - vm_compute. reflexivity.
  - destruct Hcopy as (Hpath & Heff).
    + intros [H|H]; [discriminate H|]. vm_compute in H. discriminate H.
    + split; [exact Hpath|].
      destruct Heff as (Hbytes & Hdone).
      * vm_compute. split; [discriminate | reflexivity].
      * vm_compute. reflexivity.
      * destruct Hdone as (st1 & H1); [vm_compute; discriminate|].
        exists st1. split; [exact H1|].
        destruct (Hbytes st1 H1) as (D & P & _ & out0 & Hc & Ht).
        split; [rewrite D; reflexivity|]. split; [rewrite P; reflexivity|].
        rewrite Ht. vm_compute in Hc. inversion Hc; subst out0.
        vm_compute. reflexivity.
Defined.
